(** * probFEApy, Model A: the non-parametric field-wide one-sample t test

    A shallow embedding of [cluster_integral] and [ttest_nonparametric]
    from [modelA/modelA.py], together with the NumPy, SciPy and itertools
    routines they call.

    Numbers: the script computes in float64.  Here a float is an exact
    real number ([R]); rounding, infinities and NaN are outside the model,
    and division is Rocq's total division.  The statements below are
    about the algorithm in exact arithmetic; at a position where the
    standard deviation is zero the script produces an infinity or NaN,
    the model some real number, and the statements say nothing about the
    script there.  Exceptions raised by the libraries are kept: every
    routine that can raise returns a [result]. *)

From Stdlib Require Import Reals Lra Lia List Arith Bool ZArith.
From Stdlib Require Import Permutation Sorted.
Import ListNotations.
Local Open Scope R_scope.

(** ** Exceptions *)

Inductive exn : Set :=
| ValueError.

Inductive result (A : Type) : Type :=
| Ok (a : A)
| Raise (e : exn).

Arguments Ok {A} a.
Arguments Raise {A} e.

Definition bind {A B : Type} (c : result A) (k : A -> result B) : result B :=
  match c with
  | Ok a => k a
  | Raise e => Raise e
  end.

Notation "x <- c ;; k" := (bind c (fun x => k))
  (at level 61, c at next level, right associativity).

(** ** itertools *)

Module itertools.

(** [product(pool, repeat=n)], after the equivalent code of the Python
    documentation:
<<
    result = [[]]
    for pool in pools:
        result = [x+[y] for x in result for y in pool]
>> *)
Definition step {A : Type} (result : list (list A)) (pool : list A)
  : list (list A) :=
  flat_map (fun x => map (fun y => x ++ [y]) pool) result.

Definition product {A : Type} (pool : list A) (n : nat) : list (list A) :=
  fold_left step (repeat pool n) [[]].

End itertools.

(** ** NumPy *)

Module np.

(** A 2-D array: its shape and its items.  A 1-D array is a list. *)
Record ndarray2 : Type := mk2 {
  shape0 : nat;
  shape1 : nat;
  item : nat -> nat -> R
}.

(** [np.array(rows)] for [r] rows of [c] items. *)
Definition array2 (r c : nat) (rows : list (list R)) : ndarray2 :=
  mk2 r c (fun i j => nth j (nth i rows []) 0).

(** [a.T] *)
Definition T (a : ndarray2) : ndarray2 :=
  mk2 (shape1 a) (shape0 a) (fun i j => item a j i).

(** [a - v] for a 2-D [a] and a 1-D [v]: the last axis of [a] is
    broadcast against [v]; two lengths are compatible when they are equal
    or one of them is 1. *)
Definition sub_bcast (a : ndarray2) (v : list R) : result ndarray2 :=
  let k := length v in
  if (k =? shape1 a)%nat then
    Ok (mk2 (shape0 a) (shape1 a) (fun i j => item a i j - nth j v 0))
  else if (k =? 1)%nat then
    Ok (mk2 (shape0 a) (shape1 a) (fun i j => item a i j - nth 0 v 0))
  else if (shape1 a =? 1)%nat then
    Ok (mk2 (shape0 a) k (fun i j => item a i 0 - nth j v 0))
  else Raise ValueError.

(** [(a.T * s).T] where [s] has one item per row of [a]. *)
Definition mul_rows (a : ndarray2) (s : list R) : ndarray2 :=
  mk2 (shape0 a) (shape1 a) (fun i j => item a i j * nth i s 0).

(** [a[:, j]] *)
Definition column (a : ndarray2) (j : nat) : list R :=
  map (fun i => item a i j) (seq 0 (shape0 a)).

Definition sum (l : list R) : R := fold_left Rplus l 0.

(** [a.mean(axis=0)] *)
Definition mean_axis0 (a : ndarray2) : list R :=
  map (fun j => sum (column a j) / INR (shape0 a)) (seq 0 (shape1 a)).

(** [a.std(ddof=ddof, axis=0)]: the mean of the squared deviations from
    the mean, with divisor [max(n - ddof, 0)], then the square root. *)
Definition std_axis0 (ddof : nat) (a : ndarray2) : list R :=
  map (fun j =>
         let c := column a j in
         let arrmean := sum c / INR (shape0 a) in
         let x := map (fun v => (v - arrmean) * (v - arrmean)) c in
         sqrt (sum x / INR (shape0 a - ddof)))
      (seq 0 (shape1 a)).

(** [u / v] and [u * c], item by item. *)
Definition divide (u v : list R) : list R :=
  map (fun p => fst p / snd p) (combine u v).

Definition times (u : list R) (c : R) : list R :=
  map (fun a => a * c) u.

(** [np.abs(u)] *)
Definition abs (u : list R) : list R := map Rabs u.

(** [u.max()]: raises on an array of size 0. *)
Definition amax (u : list R) : result R :=
  match u with
  | [] => Raise ValueError
  | a :: r => Ok (fold_left Rmax r a)
  end.

(** [u > c], a boolean array. *)
Definition gt (u : list R) (c : R) : list bool :=
  map (fun a => if Rgt_dec a c then true else false) u.

(** [L == k], a boolean array. *)
Definition eq (L : list nat) (k : nat) : list bool :=
  map (fun l => (l =? k)%nat) L.

(** [i.sum()] and [i.mean()] of a boolean array. *)
Definition count (i : list bool) : nat := length (filter (fun b => b) i).

Definition bmean (i : list bool) : R := INR (count i) / INR (length i).

(** [z[i]] for a boolean array [i] as long as [z]. *)
Definition select (z : list R) (i : list bool) : list R :=
  map fst (filter snd (combine z i)).

(** [np.trapz(u)] with unit spacing:
    [sum(1.0 * (u[1:] + u[:-1]) / 2.0)]. *)
Definition trapz (u : list R) : R :=
  sum (map (fun p => 1 * (fst p + snd p) / 2)
         (combine (tl u) (removelast u))).

(** Sorting, for [percentile]. *)
Fixpoint insert (a : R) (l : list R) : list R :=
  match l with
  | [] => [a]
  | b :: r => if Rle_dec a b then a :: l else b :: insert a r
  end.

Fixpoint sort (l : list R) : list R :=
  match l with
  | [] => []
  | a :: r => insert a (sort r)
  end.

(** [floor(r).astype(intp)] for [0 <= r]. *)
Definition floor (r : R) : nat := Z.to_nat (Int_part r).

(** [np.percentile(a, q)] with the default linear interpolation, as in
    NumPy 1.10: [q] is checked and divided by 100, the index
    [q * (Nx - 1)] is split into the item below, the item above (clipped
    to the last one) and their weights. *)
Definition percentile (a : list R) (q : R) : result R :=
  if Rlt_dec q 0 then Raise ValueError
  else if Rgt_dec q 100 then Raise ValueError
  else
    let q := q / 100 in
    let ap := sort a in
    let Nx := length a in
    let indices := q * INR (Nx - 1) in
    let indices_below := floor indices in
    let indices_above :=
      if (Nx - 1 <? indices_below + 1)%nat then (Nx - 1)%nat
      else (indices_below + 1)%nat in
    let weights_above := indices - INR indices_below in
    let weights_below := 1 - weights_above in
    let x1 := nth indices_below ap 0 * weights_below in
    let x2 := nth indices_above ap 0 * weights_above in
    Ok (x1 + x2).

End np.

(** ** SciPy *)

Module ndimage.

(** [ndimage.label] on a 1-D boolean array: one scan from the left; a
    [true] item that follows a [false] one (or starts the array) opens a
    new label.  [prev] is the item before, [nC] the labels used so far. *)
Fixpoint label_from (prev : bool) (nC : nat) (b : list bool)
  : list nat * nat :=
  match b with
  | [] => ([], nC)
  | true :: r =>
      let c := if prev then nC else S nC in
      let (L, k) := label_from true c r in
      (c :: L, k)
  | false :: r =>
      let (L, k) := label_from false nC r in
      (O :: L, k)
  end.

Definition label (b : list bool) : list nat * nat :=
  label_from false 0 b.

End ndimage.

(** ** Python builtins *)

(** [max(l)] of a list: the first largest item; raises on an empty list. *)
Definition pymax (l : list R) : result R :=
  match l with
  | [] => Raise ValueError
  | a :: r =>
      Ok (fold_left (fun acc v => if Rgt_dec v acc then v else acc) r a)
  end.

(** [max(a, b)] *)
Definition pymax2 (a b : R) : R :=
  if Rgt_dec b a then b else a.

(** ** modelA.py *)

(** [cluster_integral(z, thresh, i)].  A cluster of one item gives the
    one-item array [z[i] - thresh], taken here as its item. *)
Definition cluster_integral (z : list R) (thresh : R) (i : list bool) : R :=
  if (np.count i =? 1)%nat then
    hd 0 (np.select z i) - thresh
  else
    np.trapz (map (fun v => v - thresh) (np.select z i)).

(** [y.mean(axis=0) / y.std(ddof=1, axis=0) * sqrtN], the expression of
    lines 185, 192 and 202. *)
Definition tfield (y : np.ndarray2) (sqrtN : R) : list R :=
  np.times (np.divide (np.mean_axis0 y) (np.std_axis0 1 y)) sqrtN.

(** [signs = -2*np.array(labels) + 1] *)
Definition signs_of (labels : list Z) : list R :=
  map (fun l => IZR (-2 * l + 1)) labels.

(** [yy = (y.copy().T*signs).T] followed by the statistic of [yy]. *)
Definition tperm (y : np.ndarray2) (sqrtN : R) (labels : list Z) : list R :=
  let signs := signs_of labels in
  let yy := np.mul_rows y signs in
  tfield yy sqrtN.

(** The loop of lines 189-193, [T] being the list built so far. *)
Fixpoint primary_loop (y : np.ndarray2) (sqrtN : R) (LABELS : list (list Z))
  (T : list R) : result (list R) :=
  match LABELS with
  | [] => Ok T
  | labels :: rest =>
      let t := tperm y sqrtN labels in
      tmax <- np.amax t ;;
      primary_loop y sqrtN rest (T ++ [tmax])
  end.

(** The integrals of the clusters of [z] above [thresh]:
    [[cluster_integral(z, thresh, L==(i+1)) for i in range(nC)]]. *)
Definition cluster_integrals (z : list R) (thresh : R) (L : list nat)
  (nC : nat) : list R :=
  map (fun i => cluster_integral z thresh (np.eq L (i + 1))) (seq 0 nC).

(** Lines 204-208: the maximum cluster integral of one permuted field. *)
Definition max_cluster_integral (t : list R) (tCrit : R) : result R :=
  let (L, nC) := ndimage.label (np.gt (np.abs t) tCrit) in
  if (0 <? nC)%nat then
    pymax (cluster_integrals (np.abs t) tCrit L nC)
  else Ok 0.

(** The loop of lines 199-209. *)
Fixpoint secondary_loop (y : np.ndarray2) (sqrtN tCrit : R)
  (LABELS : list (list Z)) (M : list R) : result (list R) :=
  match LABELS with
  | [] => Ok M
  | labels :: rest =>
      let t := tperm y sqrtN labels in
      m <- max_cluster_integral t tCrit ;;
      secondary_loop y sqrtN tCrit rest (M ++ [m])
  end.

(** The third item of the returned tuple: [np.nan] or a list. *)
Inductive pvalues : Type :=
| PNan
| PList (p : list R).

(** Lines 212-218. *)
Definition compute_p (t0 : list R) (tCrit : R) (M : list R) : pvalues :=
  let (L, nC) := ndimage.label (np.gt (np.abs t0) tCrit) in
  if (0 <? nC)%nat then
    let m0 := cluster_integrals (np.abs t0) tCrit L nC in
    let p := map (fun m => np.bmean (np.gt M m)) m0 in
    let p := map (fun pp => pymax2 pp (1 / INR (length M))) p in
    PList p
  else PNan.

(** The local variables of [ttest_nonparametric] when it returns. *)
Record locals : Type := mkLocals {
  l_y : np.ndarray2;
  l_n : nat;
  l_t0 : list R;
  l_LABELS : list (list Z);
  l_T : list R;
  l_tCrit : R;
  l_M : list R;
  l_p : pvalues
}.

Definition ttest_locals (x : np.ndarray2) (mu : list R) (alpha : R)
  : result locals :=
  y <- np.sub_bcast (np.T x) mu ;;
  let n := np.shape0 y in
  let sqrtN := sqrt (INR n) in
  let t0 := tfield y sqrtN in
  let LABELS := itertools.product [0%Z; 1%Z] n in
  T <- primary_loop y sqrtN LABELS [] ;;
  tCrit <- np.percentile T (100 * (1 - alpha)) ;;
  M <- secondary_loop y sqrtN tCrit LABELS [] ;;
  let p := compute_p t0 tCrit M in
  Ok (mkLocals y n t0 LABELS T tCrit M p).

(** [ttest_nonparametric(x, mu, alpha)] returns [t0,tCrit,p]. *)
Definition ttest_nonparametric (x : np.ndarray2) (mu : list R) (alpha : R)
  : result (list R * R * pvalues) :=
  l <- ttest_locals x mu alpha ;;
  Ok (l_t0 l, l_tCrit l, l_p l).

(** The values of [t0], [T] and [tCrit] when control reaches lines 186,
    195 and 197: the same statements, cut there. *)
Definition statistic_field (x : np.ndarray2) (mu : list R)
  : result (list R) :=
  y <- np.sub_bcast (np.T x) mu ;;
  let n := np.shape0 y in
  let sqrtN := sqrt (INR n) in
  Ok (tfield y sqrtN).

Definition primary_pdf (x : np.ndarray2) (mu : list R) : result (list R) :=
  y <- np.sub_bcast (np.T x) mu ;;
  let n := np.shape0 y in
  let sqrtN := sqrt (INR n) in
  let LABELS := itertools.product [0%Z; 1%Z] n in
  primary_loop y sqrtN LABELS [].

Definition critical_threshold (x : np.ndarray2) (mu : list R) (alpha : R)
  : result R :=
  T <- primary_pdf x mu ;;
  np.percentile T (100 * (1 - alpha)).

(** ** Auxiliary notions for the statements *)

(** The two labels, and the two signs they are mapped to. *)
Definition is_label (l : Z) : Prop := l = 0%Z \/ l = 1%Z.

Definition is_sign (s : R) : Prop := s = 1 \/ s = -1.

(** The statistic at position [j], from the column [j] of [y]. *)
Definition tstat_column (c : list R) (n : nat) (sqrtN : R) : R :=
  let arrmean := np.sum c / INR n in
  let x := map (fun v => (v - arrmean) * (v - arrmean)) c in
  arrmean / sqrt (np.sum x / INR (n - 1)) * sqrtN.

(** The boolean array of a run of [len] items after [s] items and before
    [r] items. *)
Definition run_mask (s len r : nat) : list bool :=
  repeat false s ++ repeat true len ++ repeat false r.

(** A run ends at a [false] item or with the array. *)
Definition run_end (rest : list bool) : Prop :=
  rest = [] \/ exists rest', rest = false :: rest'.

(** The trapezoidal rule with unit spacing, after the spec (4.3). *)
Fixpoint spec_trapezoid (u : list R) : R :=
  match u with
  | a :: (b :: _) as r => (a + b) / 2 + spec_trapezoid r
  | _ => 0
  end.

(** The one-sample statistic at one position, after the spec (4.1):
    [mean(d) / sample_std(d, ddof=1) * sqrt(n)] for the [n] differences
    [d] between the observations and the datum there, the sample standard
    deviation dividing by [n - 1]. *)
Definition spec_mean (d : list R) : R :=
  fold_right Rplus 0 d / INR (length d).

Definition spec_sample_std (d : list R) : R :=
  sqrt (fold_right Rplus 0 (map (fun v => (v - spec_mean d) ^ 2) d)
        / (INR (length d) - 1)).

Definition spec_statistic (d : list R) : R :=
  spec_mean d / spec_sample_std d * sqrt (INR (length d)).

(** The differences at position [j]: observation [i] is [x[j, i]]. *)
Definition differences (x : np.ndarray2) (mu : list R) (j : nat) : list R :=
  map (fun i => np.item x j i - nth j mu 0) (seq 0 (np.shape1 x)).

(** The value of [percentile] from the sorted array [s] and the index
    [h]. *)
Definition interp (s : list R) (h : R) : R :=
  let k := np.floor h in
  let w := h - INR k in
  nth k s 0 * (1 - w) + nth (Nat.min (k + 1) (length s - 1)) s 0 * w.

(** [(T <= v).sum()], [(T < v).sum()] and [(T > v).sum()]. *)
Definition count_le (v : R) (T : list R) : nat :=
  np.count (map (fun t => if Rle_dec t v then true else false) T).

Definition count_lt (v : R) (T : list R) : nat :=
  np.count (map (fun t => if Rlt_dec t v then true else false) T).

Definition count_gt (v : R) (T : list R) : nat :=
  np.count (np.gt T v).

(** The number of members of [M] strictly greater than [m], counted
    member by member, and the fraction of the members that they form: the
    "fraction of secondary-distribution members strictly greater than
    [m]" in the words of the specification. *)
Fixpoint spec_members_greater (m : R) (M : list R) : nat :=
  match M with
  | [] => 0
  | v :: rest =>
      if Rlt_dec m v then S (spec_members_greater m rest)
      else spec_members_greater m rest
  end.

Definition spec_fraction_greater (m : R) (M : list R) : R :=
  INR (spec_members_greater m M) / INR (length M).

(** The ceiling of a real number. *)
Definition ceil (r : R) : nat := Z.to_nat (- Int_part (- r)).

(** The other label. *)
Definition complement (labels : list Z) : list Z :=
  map (fun l => (1 - l)%Z) labels.

(** ** Sample inputs *)

(** One position, two observations (1 and 3), datum 0. *)
Definition x_ex : np.ndarray2 := np.array2 1 2 [[1; 3]].

Definition mu_ex : list R := [0].

Definition y_ex : np.ndarray2 :=
  np.mk2 2 1 (fun i j => np.item (np.T x_ex) i j - nth j mu_ex 0).

(** The labels of two observations and the primary distribution of the
    sample input. *)
Definition LABELS_ex : list (list Z) :=
  [[0; 0]; [0; 1]; [1; 0]; [1; 1]]%Z.

Definition T_ex : list R := [2; -1/2; 1/2; -2].

(** The secondary distribution and the locals of the sample input at
    [alpha = 1/3]. *)
Definition M_ex_third : list R := [3/2; 0; 0; 3/2].

Definition locals_ex_third : locals :=
  mkLocals y_ex 2 [2] LABELS_ex T_ex (1/2) M_ex_third (PList [1/4]).

(** One position, two observations (1 and -3), datum 0: the unpermuted
    labelling does not give the largest statistic. *)
Definition x_mix : np.ndarray2 := np.array2 1 2 [[1; -3]].

Definition y_mix : np.ndarray2 :=
  np.mk2 2 1 (fun i j => np.item (np.T x_mix) i j - nth j mu_ex 0).

Definition T_mix : list R := [-1/2; 2; -2; 1/2].

(** The secondary distribution and the locals of that input at
    [alpha = 1/2]. *)
Definition M_mix_half : list R := [1/2; 2; 2; 1/2].

Definition locals_mix_half : locals :=
  mkLocals y_mix 2 [-1/2] LABELS_ex T_mix 0 M_mix_half (PList [1/2]).

(** The field of the cluster example of the spec (8), threshold 4. *)
Definition z_ex : list R := [0; 5; 6; 0; 7; 0].


(** * Further functions of the repository

    [tensor2effective], the numeric tail of [simulate] and the text
    processing of [parse_logfile] from the three scripts, and the
    two-sample statistic given at the end of modelC.py.  Reading files,
    running the solver and the conversion of tokens to numbers stay
    outside. *)

(** ** Further notions for the statements *)

(** [y'] has the shape of [y] and [k] times its items. *)
Definition scaled (k : R) (y y' : np.ndarray2) : Prop :=
  np.shape0 y' = np.shape0 y
  /\ np.shape1 y' = np.shape1 y
  /\ forall i j, (i < np.shape0 y)%nat -> (j < np.shape1 y)%nat ->
       np.item y' i j = k * np.item y i j.

(** The sample input with observations twice as large, and reflected
    about the datum. *)
Definition x_ex_twice : np.ndarray2 := np.array2 1 2 [[2; 6]].

Definition x_ex_neg : np.ndarray2 := np.array2 1 2 [[-1; -3]].

(** ** NumPy: arithmetic on 1-D arrays of equal length, rows, slices *)

Module np1.

(** [u - v], [u + v], [u * v], item by item. *)
Definition zip_with (f : R -> R -> R) (u v : list R) : list R :=
  map (fun p => f (fst p) (snd p)) (combine u v).

Definition sub (u v : list R) : list R := zip_with Rminus u v.

Definition add (u v : list R) : list R := zip_with Rplus u v.

Definition mul (u v : list R) : list R := zip_with Rmult u v.

(** [u**2], [c*u] and [u**0.5] (the square root; the script applies it
    to sums of squares only). *)
Definition square (u : list R) : list R := map (fun a => a ^ 2) u.

Definition scale (c : R) (u : list R) : list R := map (fun a => c * a) u.

Definition sqrt (u : list R) : list R := map R_sqrt.sqrt u.

(** Iterating over a 2-D array gives its rows. *)
Definition rows (a : np.ndarray2) : list (list R) :=
  map (fun i => map (fun j => np.item a i j) (seq 0 (np.shape1 a)))
      (seq 0 (np.shape0 a)).

(** [a[:, :k]] and [a[:, k:]] *)
Definition cols_to (k : nat) (a : np.ndarray2) : np.ndarray2 :=
  np.mk2 (np.shape0 a) (Nat.min k (np.shape1 a)) (np.item a).

Definition cols_from (k : nat) (a : np.ndarray2) : np.ndarray2 :=
  np.mk2 (np.shape0 a) (np.shape1 a - k)
    (fun i j => np.item a i (k + j)).

End np1.

(** ** modelA.py, modelB.py, modelC.py: [tensor2effective] *)

(** [tensor2effective(Y)]: the six rows of [Y.T] are unpacked, which
    raises unless there are exactly six. *)
Definition tensor2effective (Y : np.ndarray2) : result (list R) :=
  match np1.rows (np.T Y) with
  | [x0; x1; x2; a; b; c] =>
      let s :=
        np1.add
          (np1.add
             (np1.add (np1.square (np1.sub x0 x1))
                      (np1.square (np1.sub x0 x2)))
             (np1.square (np1.sub x1 x2)))
          (np1.scale 6
             (np1.add (np1.add (np1.mul a a) (np1.mul b b)) (np1.mul c c)))
      in
      Ok (np1.sqrt (np1.scale 0.5 s))
  | _ => Raise ValueError
  end.

(** Lines 145-146 of [simulate] in modelA.py: the effective strain and
    the von Mises stress from the parsed log [A]. *)
Definition effective_fields (A : np.ndarray2) : result (list R * list R) :=
  strain <- tensor2effective (np1.cols_to 6 A) ;;
  stress <- tensor2effective (np1.cols_from 6 A) ;;
  Ok (strain, stress).

(** The value for one element, from its six tensor components. *)
Definition effective_value (x0 x1 x2 a b c : R) : R :=
  sqrt (0.5 * ((x0 - x1) ^ 2 + (x0 - x2) ^ 2 + (x1 - x2) ^ 2
               + 6 * (a * a + b * b + c * c))).

(** ** Python strings, and the exceptions of the log parser and of the
    two-sample statistic *)

From Stdlib Require Import Ascii.

Module py.

(** A [str] is the list of its characters. *)
Definition str : Type := list ascii.

Inductive error : Set :=
| UnboundLocalError
| IndexError
| ValueError
| ZeroDivisionError.

Inductive outcome (A : Type) : Type :=
| Returns (a : A)
| Raises (e : error).

Arguments Returns {A} a.
Arguments Raises {A} e.

Definition bind {A B : Type} (c : outcome A) (k : A -> outcome B)
  : outcome B :=
  match c with
  | Returns a => k a
  | Raises e => Raises e
  end.

(** [s.startswith(prefix)] *)
Fixpoint startswith (s prefix : str) : bool :=
  match prefix, s with
  | [], _ => true
  | _ :: _, [] => false
  | p :: prefix', c :: s' => Ascii.eqb c p && startswith s' prefix'
  end.

(** The characters removed by [s.strip()] from a Python 2 [str]: space,
    tab, line feed, vertical tab, form feed and carriage return. *)
Definition isspace (c : ascii) : bool :=
  let n := nat_of_ascii c in
  (n =? 32)%nat || ((9 <=? n)%nat && (n <=? 13)%nat).

Fixpoint lstrip (s : str) : str :=
  match s with
  | [] => []
  | c :: r => if isspace c then lstrip r else s
  end.

Definition rstrip (s : str) : str := rev (lstrip (rev s)).

Definition strip (s : str) : str := rstrip (lstrip s).

(** [s.split(sep)] for a separator of one character: every occurrence
    separates, so that neighbouring separators give empty strings and the
    empty string gives one empty string. *)
Fixpoint split (sep : ascii) (s : str) : list str :=
  match s with
  | [] => [[]]
  | c :: r =>
      if Ascii.eqb c sep then [] :: split sep r
      else match split sep r with
           | w :: ws => (c :: w) :: ws
           | [] => [[c]]
           end
  end.

End py.

(** ** modelA.py, modelB.py, modelC.py: [parse_logfile] *)

Definition space : ascii := " "%char.

(** ['Data Record'] *)
Definition data_record : py.str :=
  ["D"; "a"; "t"; "a"; " "; "R"; "e"; "c"; "o"; "r"; "d"]%char.

(** The loop of lines 101-103 of modelA.py, on the lines from index [idx]
    on: the value of [i] when the loop is left, [last] when it is not
    entered. *)
Fixpoint first_record_loop (lines : list py.str) (idx : nat)
  (last : option nat) : option nat :=
  match lines with
  | [] => last
  | s :: rest =>
      if py.startswith s data_record then Some idx
      else first_record_loop rest (S idx) (Some idx)
  end.

(** [s.strip().split(' ')[1:]] *)
Definition row_tokens (s : py.str) : list py.str :=
  tl (py.split space (py.strip s)).

(** [parse_logfile] of modelA.py (with [nrows = 101]) and of modelC.py
    (with [nrows = 149300]), up to the list [A] that is handed to
    [np.asarray]: the rows of tokens, not yet converted to numbers. *)
Definition parse_logfile_rows (nrows : nat) (lines : list py.str)
  : py.outcome (list (list py.str)) :=
  match first_record_loop lines 0 None with
  | None => py.Raises py.UnboundLocalError
  | Some i =>
      let i := (i + 5)%nat in
      py.Returns (map row_tokens (firstn nrows (skipn i lines)))
  end.

(** The loop of lines 80-82 of modelB.py: the indices appended to
    [ind]. *)
Fixpoint record_indices (lines : list py.str) (idx : nat) (ind : list nat)
  : list nat :=
  match lines with
  | [] => ind
  | s :: rest =>
      record_indices rest (S idx)
        (if py.startswith s data_record then ind ++ [idx] else ind)
  end.

(** [parse_logfile] of modelB.py, up to the list [A]. *)
Definition parse_logfile_rows_B (nElements : nat) (lines : list py.str)
  : py.outcome (list (list py.str)) :=
  let ind := record_indices lines 0 [] in
  match rev ind with
  | [] => py.Raises py.IndexError
  | last :: _ =>
      let i := (last + 5)%nat in
      py.Returns (map row_tokens (firstn nElements (skipn i lines)))
  end.

(** A line of the log as the parser expects it: a label, then each value
    after one space, then the end of the line. *)
Definition log_line (label : py.str) (values : list py.str) : py.str :=
  label ++ concat (map (fun v => space :: v) values) ++ ["010"%char].

(** No line of [lines] starts with ['Data Record']. *)
Definition no_record (lines : list py.str) : Prop :=
  Forall (fun s => py.startswith s data_record = false) lines.

(** No character of [s] is removed by [strip]. *)
Definition no_space (s : py.str) : Prop :=
  Forall (fun c => py.isspace c = false) s.

(** A small log: a line of text, the record header, four lines that are
    skipped, and two rows. *)
Definition log_ex_pre : list py.str := [["*"]%char].

Definition log_ex_post : list py.str :=
  [["a"]; ["b"]; ["c"]; ["d"]]%char
  ++ [log_line ["1"]%char [["2"; "."; "5"]; ["7"]]%char;
      log_line ["2"]%char [["0"]; ["9"]]%char].

Definition log_ex : list py.str := log_ex_pre ++ data_record :: log_ex_post.

(** ** modelB.py: the image returned by [simulate] *)

(** [u[-n:]] for [0 < n]: the last [n] items, all of them when there are
    fewer. *)
Definition last_items (n : nat) (u : list R) : list R :=
  skipn (length u - n) u.

(** [u.reshape([r, c])] *)
Definition reshape2 (r c : nat) (u : list R) : result np.ndarray2 :=
  if (length u =? r * c)%nat then
    Ok (np.mk2 r c (fun i j => nth (i * c + j) u 0))
  else Raise ValueError.

(** Lines 110-114 of [simulate] in modelB.py, from the parsed log [A]
    on. *)
Definition stress_image (A : np.ndarray2) : result np.ndarray2 :=
  stress <- tensor2effective (np1.cols_from 6 A) ;;
  let nex := 32%nat in
  let ney := 32%nat in
  let n := (nex * ney)%nat in
  reshape2 nex ney (last_items n stress).

(** ** modelC.py: the two-sample statistic given at the end of the script *)

(** [u op v] for two 1-D arrays: equal lengths, or one of them 1. *)
Definition bcast (f : R -> R -> R) (u v : list R) : py.outcome (list R) :=
  if (length u =? length v)%nat then py.Returns (np1.zip_with f u v)
  else if (length u =? 1)%nat then py.Returns (map (f (nth 0 u 0)) v)
  else if (length v =? 1)%nat then
    py.Returns (map (fun a => f a (nth 0 v 0)) u)
  else py.Raises py.ValueError.

(** [tstat2(YA, YB)]; [2.0/n] raises for [n = 0]. *)
Definition tstat2 (YA YB : np.ndarray2) : py.outcome (list R) :=
  let mA := np.mean_axis0 YA in
  let mB := np.mean_axis0 YB in
  let sA := np.std_axis0 1 YA in
  let sB := np.std_axis0 1 YB in
  let n := np.shape0 YA in
  py.bind (bcast Rplus (np1.mul sA sA) (np1.mul sB sB)) (fun ss =>
  let s := np1.sqrt (np1.scale 0.5 ss) in
  py.bind (bcast Rminus mA mB) (fun d =>
  if (n =? 0)%nat then py.Raises py.ZeroDivisionError
  else bcast Rdiv d (np.times s (sqrt (2 / INR n))))).

(** [Y[sel]] for a list of row indices. *)
Definition take_rows (Y : np.ndarray2) (sel : list nat) : np.ndarray2 :=
  np.mk2 (length sel) (np.shape1 Y) (fun i j => np.item Y (nth i sel 0%nat) j).

(** [tstat2_labels(Y, ones)]: the rows whose index is in [ones] get the
    label 1 (an index past the last row raises), the rows labelled 0 form
    [YA] and those labelled 1 form [YB]. *)
Definition tstat2_labels (Y : np.ndarray2) (ones : list nat)
  : py.outcome (list R) :=
  let n := np.shape0 Y in
  if forallb (fun i => i <? n)%nat ones then
    let labels := fun i => existsb (Nat.eqb i) ones in
    let YA := take_rows Y (filter (fun i => negb (labels i)) (seq 0 n)) in
    let YB := take_rows Y (filter labels (seq 0 n)) in
    tstat2 YA YB
  else py.Raises py.IndexError.

(** [np.vstack([YA, YB])] for two 2-D arrays. *)
Definition vstack (YA YB : np.ndarray2) : py.outcome np.ndarray2 :=
  if (np.shape1 YA =? np.shape1 YB)%nat then
    py.Returns
      (np.mk2 (np.shape0 YA + np.shape0 YB) (np.shape1 YA)
         (fun i j =>
            if (i <? np.shape0 YA)%nat then np.item YA i j
            else np.item YB (i - np.shape0 YA) j))
  else py.Raises py.ValueError.

(** The two-sample statistic at one position, after the spec (4.1):
    [(meanA - meanB) / (pooled_std * sqrt(1/nA + 1/nB))] with
    [pooled_std = sqrt(0.5*(stdA^2 + stdB^2))]. *)
Definition spec_statistic2 (dA dB : list R) : R :=
  let pooled_std :=
    sqrt (0.5 * (spec_sample_std dA ^ 2 + spec_sample_std dB ^ 2)) in
  (spec_mean dA - spec_mean dB)
  / (pooled_std * sqrt (1 / INR (length dA) + 1 / INR (length dB))).

(** Two groups of two observations of one position. *)
Definition YA_ex : np.ndarray2 := np.array2 2 1 [[1]; [3]].

Definition YB_ex : np.ndarray2 := np.array2 2 1 [[5]; [9]].

(** * Properties *)

(** ** The error monad *)

Lemma bind_Ok {A B : Type} (c : result A) (k : A -> result B) (b : B) :
  bind c k = Ok b <-> exists a, c = Ok a /\ k a = Ok b.
Proof.
  destruct c as [a|e]; simpl; split.
  - intros H. exists a. split; [reflexivity | exact H].
  - intros [a' [Ha Hk]]. injection Ha as ->. exact Hk.
  - discriminate.
  - intros [a' [Ha _]]. discriminate.
Qed.

(** ** The enumeration of the labels *)

Section Product.

Context {A : Type}.
Implicit Types (pool : list A) (n : nat).

Lemma fold_step_comm pool n (acc : list (list A)) :
  fold_left itertools.step (repeat pool n) (itertools.step acc pool)
  = itertools.step (fold_left itertools.step (repeat pool n) acc) pool.
Proof.
  revert acc. induction n as [|n IH]; intros acc; simpl.
  - reflexivity.
  - apply IH.
Qed.

Lemma product_0 pool : itertools.product pool 0 = [[]].
Proof. reflexivity. Qed.

Lemma product_S pool n :
  itertools.product pool (S n)
  = itertools.step (itertools.product pool n) pool.
Proof.
  unfold itertools.product. cbn [repeat fold_left]. apply fold_step_comm.
Qed.

Lemma step_length pool (res : list (list A)) :
  length (itertools.step res pool) = (length res * length pool)%nat.
Proof.
  unfold itertools.step. induction res as [|x res IH]; simpl.
  - reflexivity.
  - rewrite length_app, length_map, IH. reflexivity.
Qed.

Lemma product_length pool n :
  length (itertools.product pool n) = (length pool ^ n)%nat.
Proof.
  induction n as [|n IH].
  - reflexivity.
  - rewrite product_S, step_length, IH. simpl. lia.
Qed.

Lemma in_step pool (res : list (list A)) (l : list A) :
  In l (itertools.step res pool)
  <-> exists x y, In x res /\ In y pool /\ l = x ++ [y].
Proof.
  unfold itertools.step. rewrite in_flat_map. split.
  - intros [x [Hx Hl]]. apply in_map_iff in Hl as [y [Hy Hin]].
    exists x, y. auto.
  - intros [x [y [Hx [Hy ->]]]]. exists x. split; [exact Hx|].
    apply in_map_iff. exists y. auto.
Qed.

(** The tuples produced are exactly the lists of [n] items of the pool. *)
Lemma in_product pool n (l : list A) :
  In l (itertools.product pool n)
  <-> length l = n /\ Forall (fun a => In a pool) l.
Proof.
  revert l. induction n as [|n IH]; intros l.
  - rewrite product_0. simpl. split.
    + intros [<-|[]]. split; [reflexivity | constructor].
    + intros [Hl _]. left. symmetry. now apply length_zero_iff_nil.
  - rewrite product_S, in_step. split.
    + intros [x [y [Hx [Hy ->]]]]. apply IH in Hx as [Hlen Hall].
      split.
      * rewrite length_app. simpl. lia.
      * apply Forall_app. split; [exact Hall | now constructor].
    + intros [Hlen Hall].
      destruct (exists_last (l := l)) as [x [y ->]].
      { intros ->. discriminate. }
      rewrite length_app in Hlen. simpl in Hlen.
      apply Forall_app in Hall as [Hx Hy].
      exists x, y. split; [|split].
      * apply IH. split; [lia | exact Hx].
      * now inversion Hy.
      * reflexivity.
Qed.

Lemma NoDup_step pool (res : list (list A)) :
  NoDup pool -> NoDup res -> NoDup (itertools.step res pool).
Proof.
  intros Hp Hr. unfold itertools.step.
  induction Hr as [|x res Hx Hr IH]; simpl.
  - constructor.
  - apply NoDup_app.
    + apply Finite.Injective_map_NoDup; [|exact Hp].
      intros a b Hab. apply app_inj_tail in Hab. tauto.
    + exact IH.
    + intros l Hl Hl'. apply in_map_iff in Hl as [y [<- Hy]].
      apply in_flat_map in Hl' as [x' [Hx' Hl']].
      apply in_map_iff in Hl' as [y' [Heq Hy']].
      apply app_inj_tail in Heq as [-> _]. contradiction.
Qed.

Lemma NoDup_product pool n :
  NoDup pool -> NoDup (itertools.product pool n).
Proof.
  intros Hp. induction n as [|n IH].
  - rewrite product_0. constructor; [simpl; tauto | constructor].
  - rewrite product_S. now apply NoDup_step.
Qed.

End Product.

(** The two labels and their signs. *)

Lemma signs_of_length labels : length (signs_of labels) = length labels.
Proof. apply length_map. Qed.

Lemma signs_of_sign labels :
  Forall is_label labels -> Forall is_sign (signs_of labels).
Proof.
  intros H. unfold signs_of. apply Forall_map.
  eapply Forall_impl; [|exact H].
  intros l [-> | ->]; [left | right]; reflexivity.
Qed.

Lemma signs_of_zeros n :
  signs_of (repeat 0%Z n) = repeat 1 n.
Proof.
  unfold signs_of. induction n as [|n IH]; simpl.
  - reflexivity.
  - f_equal. exact IH.
Qed.

Lemma in_labels n (labels : list Z) :
  In labels (itertools.product [0%Z; 1%Z] n)
  <-> length labels = n /\ Forall is_label labels.
Proof.
  rewrite in_product. split; intros [Hlen Hall]; (split; [exact Hlen|]);
    (eapply Forall_impl; [|exact Hall]); intros l; unfold is_label; simpl.
  - intros [<- | [<- | []]]; auto.
  - intros [-> | ->]; auto.
Qed.

(** ** Sums *)

Lemma sum_fold_right (l : list R) : np.sum l = fold_right Rplus 0 l.
Proof.
  unfold np.sum.
  assert (H : forall a, fold_left Rplus l a = a + fold_right Rplus 0 l).
  { induction l as [|b l IH]; intros a; simpl.
    - lra.
    - rewrite IH. lra. }
  rewrite H. lra.
Qed.

Lemma sum_cons (a : R) (l : list R) : np.sum (a :: l) = a + np.sum l.
Proof. rewrite !sum_fold_right. reflexivity. Qed.

Lemma sum_nil : np.sum [] = 0.
Proof. reflexivity. Qed.

Lemma sum_map_opp (l : list R) : np.sum (map Ropp l) = - np.sum l.
Proof.
  induction l as [|a l IH]; simpl.
  - rewrite sum_nil. lra.
  - rewrite !sum_cons, IH. lra.
Qed.

Lemma sum_pos (l : list R) :
  l <> [] -> Forall (fun v => 0 < v) l -> 0 < np.sum l.
Proof.
  intros Hne Hall. induction Hall as [|a l Ha Hall IH].
  - contradiction.
  - rewrite sum_cons. destruct l as [|b l].
    + rewrite sum_nil. lra.
    + assert (0 < np.sum (b :: l)) by (apply IH; discriminate). lra.
Qed.

(** ** The statistic field *)

Lemma nth_map_seq {A : Type} (f : nat -> A) (n j : nat) (d : A) :
  (j < n)%nat -> nth j (map f (seq 0 n)) d = f j.
Proof.
  intros Hj.
  rewrite (nth_indep _ d (f 0%nat)) by (now rewrite length_map, length_seq).
  rewrite map_nth, seq_nth by exact Hj. reflexivity.
Qed.

Lemma mean_axis0_length a : length (np.mean_axis0 a) = np.shape1 a.
Proof. unfold np.mean_axis0. now rewrite length_map, length_seq. Qed.

Lemma std_axis0_length ddof a : length (np.std_axis0 ddof a) = np.shape1 a.
Proof. unfold np.std_axis0. now rewrite length_map, length_seq. Qed.

Lemma tfield_length y sqrtN : length (tfield y sqrtN) = np.shape1 y.
Proof.
  unfold tfield, np.times, np.divide.
  rewrite !length_map, length_combine, mean_axis0_length, std_axis0_length.
  apply Nat.min_id.
Qed.

Lemma tperm_length y sqrtN labels :
  length (tperm y sqrtN labels) = np.shape1 y.
Proof. unfold tperm. now rewrite tfield_length. Qed.

Lemma nth_divide (u v : list R) (j : nat) :
  (j < length u)%nat -> (j < length v)%nat ->
  nth j (np.divide u v) 0 = nth j u 0 / nth j v 0.
Proof.
  revert v j. induction u as [|a u IH]; intros [|b v] [|j]; simpl;
    try lia; intros Hu Hv.
  - reflexivity.
  - apply IH; lia.
Qed.

Lemma nth_times (u : list R) (c : R) (j : nat) :
  (j < length u)%nat -> nth j (np.times u c) 0 = nth j u 0 * c.
Proof.
  revert j. induction u as [|a u IH]; intros [|j]; simpl; try lia; intros Hu.
  - reflexivity.
  - apply IH; lia.
Qed.

Lemma tfield_nth y sqrtN j :
  (j < np.shape1 y)%nat ->
  nth j (tfield y sqrtN) 0 = tstat_column (np.column y j) (np.shape0 y) sqrtN.
Proof.
  intros Hj. unfold tfield.
  rewrite nth_times
    by (unfold np.divide; rewrite length_map, length_combine,
          mean_axis0_length, std_axis0_length; lia).
  rewrite nth_divide
    by (rewrite ?mean_axis0_length, ?std_axis0_length; exact Hj).
  unfold np.mean_axis0, np.std_axis0.
  rewrite !nth_map_seq by exact Hj. reflexivity.
Qed.

Lemma tfield_eq y sqrtN :
  tfield y sqrtN
  = map (fun j => tstat_column (np.column y j) (np.shape0 y) sqrtN)
        (seq 0 (np.shape1 y)).
Proof.
  apply (nth_ext _ _ 0 0).
  - now rewrite tfield_length, length_map, length_seq.
  - intros j Hj. rewrite tfield_length in Hj.
    rewrite tfield_nth, nth_map_seq by exact Hj. reflexivity.
Qed.

(** ** The two loops *)

Lemma primary_loop_spec y sqrtN LABELS T0 T :
  primary_loop y sqrtN LABELS T0 = Ok T
  <-> exists ms,
        T = T0 ++ ms
        /\ Forall2 (fun labels tm => np.amax (tperm y sqrtN labels) = Ok tm)
             LABELS ms.
Proof.
  revert T0. induction LABELS as [|labels rest IH]; intros T0; simpl.
  - split.
    + intros H. injection H as <-. exists []. rewrite app_nil_r.
      split; [reflexivity | constructor].
    + intros [ms [-> H]]. inversion H. now rewrite app_nil_r.
  - rewrite bind_Ok. split.
    + intros [tm [Htm Hrest]]. apply IH in Hrest as [ms [-> Hms]].
      exists (tm :: ms). rewrite <- app_assoc. split; [reflexivity|].
      constructor; assumption.
    + intros [ms [-> Hms]]. inversion Hms as [|? tm ? ms' Htm Hms']; subst.
      exists tm. split; [exact Htm|]. apply IH. exists ms'.
      rewrite <- app_assoc. split; [reflexivity | exact Hms'].
Qed.

Lemma secondary_loop_spec y sqrtN tCrit LABELS M0 M :
  secondary_loop y sqrtN tCrit LABELS M0 = Ok M
  <-> exists ms,
        M = M0 ++ ms
        /\ Forall2 (fun labels m =>
                      max_cluster_integral (tperm y sqrtN labels) tCrit = Ok m)
             LABELS ms.
Proof.
  revert M0. induction LABELS as [|labels rest IH]; intros M0; simpl.
  - split.
    + intros H. injection H as <-. exists []. rewrite app_nil_r.
      split; [reflexivity | constructor].
    + intros [ms [-> H]]. inversion H. now rewrite app_nil_r.
  - rewrite bind_Ok. split.
    + intros [m [Hm Hrest]]. apply IH in Hrest as [ms [-> Hms]].
      exists (m :: ms). rewrite <- app_assoc. split; [reflexivity|].
      constructor; assumption.
    + intros [ms [-> Hms]]. inversion Hms as [|? m ? ms' Hm Hms']; subst.
      exists m. split; [exact Hm|]. apply IH. exists ms'.
      rewrite <- app_assoc. split; [reflexivity | exact Hms'].
Qed.

(** What [ttest_locals] computes, stage by stage. *)
Lemma ttest_locals_Ok x mu alpha l :
  ttest_locals x mu alpha = Ok l
  <-> exists y T tCrit M,
        np.sub_bcast (np.T x) mu = Ok y
        /\ primary_loop y (sqrt (INR (np.shape0 y)))
             (itertools.product [0%Z; 1%Z] (np.shape0 y)) [] = Ok T
        /\ np.percentile T (100 * (1 - alpha)) = Ok tCrit
        /\ secondary_loop y (sqrt (INR (np.shape0 y))) tCrit
             (itertools.product [0%Z; 1%Z] (np.shape0 y)) [] = Ok M
        /\ l = mkLocals y (np.shape0 y)
                 (tfield y (sqrt (INR (np.shape0 y))))
                 (itertools.product [0%Z; 1%Z] (np.shape0 y))
                 T tCrit M
                 (compute_p (tfield y (sqrt (INR (np.shape0 y)))) tCrit M).
Proof.
  unfold ttest_locals. rewrite bind_Ok. split.
  - intros [y [Hy H]]. apply bind_Ok in H as [T [HT H]].
    apply bind_Ok in H as [tCrit [Hc H]]. apply bind_Ok in H as [M [HM H]].
    injection H as <-. exists y, T, tCrit, M. auto.
  - intros [y [T [tCrit [M [Hy [HT [Hc [HM ->]]]]]]]].
    exists y. split; [exact Hy|]. apply bind_Ok. exists T. split; [exact HT|].
    apply bind_Ok. exists tCrit. split; [exact Hc|].
    apply bind_Ok. exists M. split; [exact HM | reflexivity].
Qed.

Lemma ttest_locals_stages x mu alpha l :
  ttest_locals x mu alpha = Ok l ->
  statistic_field x mu = Ok (l_t0 l)
  /\ primary_pdf x mu = Ok (l_T l)
  /\ critical_threshold x mu alpha = Ok (l_tCrit l).
Proof.
  intros H. apply ttest_locals_Ok in H
    as [y [T [tCrit [M [Hy [HT [Hc [HM ->]]]]]]]]. simpl.
  unfold critical_threshold, primary_pdf, statistic_field.
  rewrite Hy. simpl. rewrite HT. simpl. auto.
Qed.

(** ** Sorting and the percentile *)

Lemma insert_perm a l : Permutation (a :: l) (np.insert a l).
Proof.
  induction l as [|b l IH]; simpl.
  - apply Permutation_refl.
  - destruct (Rle_dec a b).
    + apply Permutation_refl.
    + eapply perm_trans; [apply perm_swap|]. now apply perm_skip.
Qed.

Lemma sort_perm l : Permutation l (np.sort l).
Proof.
  induction l as [|a l IH]; simpl.
  - constructor.
  - eapply perm_trans; [|apply insert_perm]. now apply perm_skip.
Qed.

Lemma sort_length l : length (np.sort l) = length l.
Proof. symmetry. apply Permutation_length, sort_perm. Qed.

Lemma insert_sorted a l :
  Sorted Rle l -> Sorted Rle (np.insert a l).
Proof.
  induction l as [|b l IH]; simpl; intros Hs.
  - repeat constructor.
  - destruct (Rle_dec a b) as [Hab|Hab].
    + constructor; [exact Hs | constructor; exact Hab].
    + inversion Hs as [|? ? Hl Hb]; subst.
      constructor; [now apply IH|].
      destruct l as [|c l]; simpl.
      * constructor. lra.
      * destruct (Rle_dec a c); constructor; [lra|].
        now inversion Hb.
Qed.

Lemma sort_sorted l : Sorted Rle (np.sort l).
Proof.
  induction l as [|a l IH]; simpl.
  - constructor.
  - now apply insert_sorted.
Qed.

(** In a sorted list the items grow with the index. *)
Lemma sorted_nth_le (s : list R) (i j : nat) :
  Sorted Rle s -> (i <= j)%nat -> (j < length s)%nat ->
  nth i s 0 <= nth j s 0.
Proof.
  intros Hs.
  apply Sorted_StronglySorted in Hs; [|intros a b c; apply Rle_trans].
  revert i j. induction Hs as [|a s Hs IH Ha]; intros i j Hij Hj.
  - simpl in Hj. lia.
  - destruct i as [|i], j as [|j]; simpl in *; try lia.
    + lra.
    + rewrite Forall_forall in Ha. apply Ha, nth_In. lia.
    + apply IH; lia.
Qed.

Lemma floor_spec (r : R) (k : nat) :
  INR k <= r < INR k + 1 -> np.floor r = k.
Proof.
  intros [H1 H2]. unfold np.floor.
  rewrite <- (Int_part_spec r (Z.of_nat k)).
  - apply Nat2Z.id.
  - rewrite <- INR_IZR_INZ. lra.
Qed.

Lemma floor_bounds (r : R) :
  0 <= r -> INR (np.floor r) <= r < INR (np.floor r) + 1.
Proof.
  intros Hr. unfold np.floor.
  destruct (base_Int_part r) as [H1 H2].
  assert (Hz : (0 <= Int_part r)%Z).
  { apply le_IZR.
    assert (Hlt : -1 < IZR (Int_part r)) by lra.
    apply lt_IZR in Hlt. apply IZR_le. lia. }
  rewrite INR_IZR_INZ, Z2Nat.id by exact Hz.
  unfold Rminus in H2. lra.
Qed.

(** [percentile] once the index is split into its integer part [k] and
    its fractional part [w]. *)
Lemma percentile_split (a : list R) (q : R) (k : nat) (w : R) :
  0 <= q <= 100 ->
  q / 100 * INR (length a - 1) = INR k + w ->
  0 <= w < 1 ->
  np.percentile a q
  = Ok (nth k (np.sort a) 0 * (1 - w)
        + nth (Nat.min (k + 1) (length a - 1)) (np.sort a) 0 * w).
Proof.
  intros Hq Hidx Hw. unfold np.percentile.
  destruct (Rlt_dec q 0) as [H|_]; [lra|].
  destruct (Rgt_dec q 100) as [H|_]; [lra|].
  rewrite Hidx, (floor_spec (INR k + w) k) by lra.
  replace (INR k + w - INR k) with w by lra.
  destruct (Nat.ltb_spec (length a - 1) (k + 1)) as [H|H].
  - now rewrite Nat.min_r by lia.
  - now rewrite Nat.min_l by lia.
Qed.

(** ** The sample input, evaluated *)

Lemma y_ex_Ok : np.sub_bcast (np.T x_ex) mu_ex = Ok y_ex.
Proof. reflexivity. Qed.

Lemma LABELS_ex_eq : itertools.product [0%Z; 1%Z] 2 = LABELS_ex.
Proof. reflexivity. Qed.

Lemma sqrt_2_sqr : sqrt 2 * sqrt 2 = 2.
Proof. apply sqrt_sqrt. lra. Qed.

Lemma sqrt_2_neq_0 : sqrt 2 <> 0.
Proof. intros H. pose proof sqrt_2_sqr as H2. rewrite H in H2. lra. Qed.

Lemma sqrt_8 : sqrt 8 = 2 * sqrt 2.
Proof.
  replace 8 with ((2 * 2) * 2) by lra.
  rewrite sqrt_mult by lra. rewrite sqrt_square by lra. reflexivity.
Qed.

Ltac decide_R :=
  repeat (match goal with
          | |- context [Rgt_dec ?a ?b] =>
              destruct (Rgt_dec a b); try (exfalso; lra); simpl
          | |- context [Rle_dec ?a ?b] =>
              destruct (Rle_dec a b); try (exfalso; lra); simpl
          | |- context [Rlt_dec ?a ?b] =>
              destruct (Rlt_dec a b); try (exfalso; lra); simpl
          end).

Ltac tperm_ex m v :=
  unfold tperm; rewrite tfield_eq; simpl;
  unfold tstat_column, np.column; simpl;
  rewrite !sum_cons, sum_nil; f_equal;
  match goal with
  | |- ?m' / sqrt ?v' * _ = _ =>
      replace v' with v by lra; replace m' with m by lra
  end.

Lemma tperm_ex_00 : tperm y_ex (sqrt 2) [0; 0]%Z = [2].
Proof. tperm_ex 2 2. field. apply sqrt_2_neq_0. Qed.

Lemma tperm_ex_01 : tperm y_ex (sqrt 2) [0; 1]%Z = [-1/2].
Proof. tperm_ex (-1) 8. rewrite sqrt_8. field. apply sqrt_2_neq_0. Qed.

Lemma tperm_ex_10 : tperm y_ex (sqrt 2) [1; 0]%Z = [1/2].
Proof. tperm_ex 1 8. rewrite sqrt_8. field. apply sqrt_2_neq_0. Qed.

Lemma tperm_ex_11 : tperm y_ex (sqrt 2) [1; 1]%Z = [-2].
Proof. tperm_ex (-2) 2. field. apply sqrt_2_neq_0. Qed.

Lemma INR_2 : INR 2 = 2.
Proof. simpl. lra. Qed.

Lemma t0_ex : tfield y_ex (sqrt 2) = [2].
Proof.
  rewrite tfield_eq; simpl;
  unfold tstat_column, np.column; simpl;
  rewrite !sum_cons, sum_nil; f_equal.
  match goal with
  | |- ?m' / sqrt ?v' * _ = _ =>
      replace v' with 2 by lra; replace m' with 2 by lra
  end. field. apply sqrt_2_neq_0.
Qed.

Lemma primary_ex : primary_pdf x_ex mu_ex = Ok T_ex.
Proof.
  unfold primary_pdf. rewrite y_ex_Ok. cbn [bind np.shape0 y_ex].
  rewrite INR_2, LABELS_ex_eq. unfold LABELS_ex. cbn [primary_loop].
  rewrite tperm_ex_00, tperm_ex_01, tperm_ex_10, tperm_ex_11.
  reflexivity.
Qed.

Lemma sort_T_ex : np.sort T_ex = [-2; -1/2; 1/2; 2].
Proof.
  unfold T_ex. simpl.
  decide_R. reflexivity.
Qed.

Lemma max_cluster_integral_single_above (v c : R) :
  Rabs v > c -> max_cluster_integral [v] c = Ok (Rabs v - c).
Proof.
  intros H. unfold max_cluster_integral. simpl.
  destruct (Rgt_dec (Rabs v) c) as [_|Hn]; [|contradiction]. reflexivity.
Qed.

Lemma max_cluster_integral_single_below (v c : R) :
  ~ Rabs v > c -> max_cluster_integral [v] c = Ok 0.
Proof.
  intros H. unfold max_cluster_integral. simpl.
  destruct (Rgt_dec (Rabs v) c) as [Hn|_]; [contradiction|]. reflexivity.
Qed.

Lemma tCrit_ex_third : critical_threshold x_ex mu_ex (1/3) = Ok (1/2).
Proof.
  unfold critical_threshold. rewrite primary_ex. cbn [bind].
  rewrite (percentile_split T_ex _ 2 0).
  - rewrite sort_T_ex. simpl. f_equal. lra.
  - lra.
  - simpl. lra.
  - lra.
Qed.

Lemma secondary_ex_third :
  secondary_loop y_ex (sqrt 2) (1/2) LABELS_ex [] = Ok M_ex_third.
Proof.
  unfold LABELS_ex. cbn [secondary_loop].
  rewrite tperm_ex_00, tperm_ex_01, tperm_ex_10, tperm_ex_11.
  rewrite (max_cluster_integral_single_above 2)
    by (rewrite Rabs_right; lra).
  rewrite (max_cluster_integral_single_below (-1/2))
    by (rewrite Rabs_left; lra).
  rewrite (max_cluster_integral_single_below (1/2))
    by (rewrite Rabs_right; lra).
  rewrite (max_cluster_integral_single_above (-2))
    by (rewrite Rabs_left; lra).
  cbn [bind app]. unfold M_ex_third.
  rewrite (Rabs_right 2), (Rabs_left (-2)) by lra.
  do 2 f_equal; [lra|]. do 3 f_equal. lra.
Qed.

Lemma compute_p_ex_third : compute_p [2] (1/2) M_ex_third = PList [1/4].
Proof.
  unfold compute_p. simpl.
  destruct (Rgt_dec (Rabs 2) (1/2)) as [_|Hn];
    [|exfalso; apply Hn; rewrite Rabs_right; lra].
  simpl. unfold cluster_integral. simpl. rewrite Rabs_right by lra.
  unfold np.bmean, np.gt, M_ex_third. simpl. decide_R.
  unfold pymax2. decide_R. do 2 f_equal. lra.
Qed.

Lemma ttest_locals_ex_third :
  ttest_locals x_ex mu_ex (1/3) = Ok locals_ex_third.
Proof.
  apply ttest_locals_Ok. exists y_ex, T_ex, (1/2), M_ex_third.
  pose proof primary_ex as HT. pose proof tCrit_ex_third as Hc.
  unfold critical_threshold in Hc. rewrite HT in Hc. cbn [bind] in Hc.
  unfold primary_pdf in HT. rewrite y_ex_Ok in HT. cbn [bind] in HT.
  cbn [np.shape0 y_ex] in *. rewrite INR_2, LABELS_ex_eq in *.
  rewrite t0_ex, compute_p_ex_third, secondary_ex_third.
  repeat split; assumption.
Qed.

(** ** The primary distribution *)

Lemma Forall2_nth_rel {A B : Type} (P : A -> B -> Prop) (u : list A)
  (v : list B) (k : nat) (da : A) (db : B) :
  Forall2 P u v -> (k < length u)%nat -> P (nth k u da) (nth k v db).
Proof.
  intros H. revert k. induction H as [|a b u v Hab H IH]; intros [|k] Hk;
    simpl in *; try lia.
  - exact Hab.
  - apply IH. lia.
Qed.




Lemma sub_bcast_shape0 a v y :
  np.sub_bcast a v = Ok y -> np.shape0 y = np.shape0 a.
Proof.
  unfold np.sub_bcast.
  destruct (length v =? np.shape1 a)%nat;
    [|destruct (length v =? 1)%nat; [|destruct (np.shape1 a =? 1)%nat]];
    intros H; try discriminate; injection H as <-; reflexivity.
Qed.

Lemma signs_of_nth labels i :
  (i < length labels)%nat ->
  nth i (signs_of labels) 0 = 1 - 2 * IZR (nth i labels 0%Z).
Proof.
  unfold signs_of.
  revert i. induction labels as [|l labels IH]; intros [|i] Hi;
    cbn [map nth length] in *; try lia.
  - rewrite plus_IZR, mult_IZR. lra.
  - apply IH. lia.
Qed.

(** C5: the labels are the [2^n] tuples of [n] items 0 or 1, each once;
    a label [l] becomes the sign [1 - 2*l], which is 1 or -1; the tuple of
    zeros, whose signs are all 1, is among them; and the primary
    distribution has one member per tuple, [2^n] in all. *)
Theorem exhaustive_enumeration (n : nat) :
  let LABELS := itertools.product [0%Z; 1%Z] n in
  length LABELS = (2 ^ n)%nat
  /\ NoDup LABELS
  /\ (forall labels,
        In labels LABELS <-> length labels = n /\ Forall is_label labels)
  /\ (forall labels, In labels LABELS ->
        length (signs_of labels) = n
        /\ Forall is_sign (signs_of labels)
        /\ forall i, (i < n)%nat ->
             nth i (signs_of labels) 0 = 1 - 2 * IZR (nth i labels 0%Z))
  /\ In (repeat 0%Z n) LABELS
  /\ signs_of (repeat 0%Z n) = repeat 1 n
  /\ (forall x mu alpha l,
        np.shape1 x = n -> ttest_locals x mu alpha = Ok l ->
        l_LABELS l = LABELS /\ length (l_T l) = (2 ^ n)%nat).
Proof.
  intros LABELS. subst LABELS.
  split; [|split; [|split; [|split; [|split; [|split]]]]].
  - apply (product_length [0%Z; 1%Z]).
  - apply NoDup_product. repeat constructor; simpl; intuition discriminate.
  - intros labels. apply in_labels.
  - intros labels H. apply in_labels in H as [Hlen Hall].
    split; [|split].
    + now rewrite signs_of_length.
    + now apply signs_of_sign.
    + intros i Hi. apply signs_of_nth. lia.
  - apply in_labels. split.
    + apply repeat_length.
    + apply Forall_forall. intros l Hl. apply repeat_spec in Hl. now left.
  - apply signs_of_zeros.
  - intros x mu alpha l Hn H.
    apply ttest_locals_Ok in H
      as [y [T [tCrit [M [Hy [HT [Hc [HM ->]]]]]]]]. simpl.
    apply sub_bcast_shape0 in Hy. simpl in Hy. rewrite Hy, Hn in *.
    split; [reflexivity|].
    apply primary_loop_spec in HT as [ms [-> Hms]]. simpl.
    apply Forall2_length in Hms. rewrite <- Hms.
    apply (product_length [0%Z; 1%Z]).
Qed.

Lemma exhaustive_enumeration_witness :
  l_LABELS locals_ex_third = itertools.product [0%Z; 1%Z] 2
  /\ length (l_T locals_ex_third) = 4%nat.
Proof.
  destruct (exhaustive_enumeration 2) as [_ [_ [_ [_ [_ [_ H]]]]]].
  exact (H x_ex mu_ex (1/3) locals_ex_third eq_refl ttest_locals_ex_third).
Defined.

(** ** Labelling *)

Lemma label_from_false prev c r :
  ndimage.label_from prev c (false :: r)
  = (0%nat :: fst (ndimage.label_from false c r),
     snd (ndimage.label_from false c r)).
Proof. simpl. now destruct (ndimage.label_from false c r). Qed.

Lemma label_from_true prev c r :
  ndimage.label_from prev c (true :: r)
  = let c' := if prev then c else S c in
    (c' :: fst (ndimage.label_from true c' r),
     snd (ndimage.label_from true c' r)).
Proof.
  simpl. now destruct (ndimage.label_from true (if prev then c else S c) r).
Qed.

(** Inside a run the label is repeated. *)
Lemma label_from_run c len rest :
  ndimage.label_from true c (repeat true len ++ rest)
  = (repeat c len ++ fst (ndimage.label_from true c rest),
     snd (ndimage.label_from true c rest)).
Proof.
  induction len as [|len IH].
  - simpl. now destruct (ndimage.label_from true c rest).
  - cbn [repeat app]. rewrite label_from_true. cbn zeta. rewrite IH.
    reflexivity.
Qed.

Lemma label_from_run_end c rest :
  run_end rest ->
  ndimage.label_from true c rest = ndimage.label_from false c rest.
Proof. intros [-> | [rest' ->]]; reflexivity. Qed.

Lemma leading_trues (r : list bool) :
  exists len rest, r = repeat true len ++ rest /\ run_end rest.
Proof.
  induction r as [|[|] r IH].
  - exists 0%nat, []. split; [reflexivity | now left].
  - destruct IH as [len [rest [-> Hend]]].
    exists (S len), rest. split; [reflexivity | exact Hend].
  - exists 0%nat, (false :: r). split; [reflexivity|]. right. now exists r.
Qed.

(** Labels are 0 on [false] items and between 1 and [nC] on [true]
    items. *)
Lemma label_from_range b :
  forall prev c,
    let L := fst (ndimage.label_from prev c b) in
    let k := snd (ndimage.label_from prev c b) in
    (c <= k)%nat
    /\ Forall2 (fun (bj : bool) lj =>
                  if bj then ((if prev then c else S c) <= lj <= k)%nat
                  else lj = 0%nat) b L.
Proof.
  induction b as [|[|] b IH]; intros prev c.
  - simpl. split; [lia | constructor].
  - rewrite label_from_true. cbn zeta. cbn [fst snd].
    destruct (IH true (if prev then c else S c)) as [Hk Hall].
    split; [destruct prev; lia|].
    constructor.
    + lia.
    + eapply Forall2_impl; [|exact Hall].
      intros [|] lj; simpl; [|auto]. destruct prev; lia.
  - rewrite label_from_false. cbn [fst snd].
    destruct (IH false c) as [Hk Hall]. split; [exact Hk|].
    constructor; [reflexivity|].
    eapply Forall2_impl; [|exact Hall].
    intros [|] lj; simpl; [|auto]. destruct prev; lia.
Qed.

Lemma eq_repeat (c q n : nat) : np.eq (repeat c n) q = repeat (c =? q)%nat n.
Proof.
  induction n as [|n IH]; simpl; [reflexivity | now rewrite IH].
Qed.

Lemma eq_app (L1 L2 : list nat) (q : nat) :
  np.eq (L1 ++ L2) q = np.eq L1 q ++ np.eq L2 q.
Proof. unfold np.eq. apply map_app. Qed.

(** A label below the first new one marks nothing. *)
Lemma eq_old_label b c q :
  (1 <= q <= c)%nat ->
  np.eq (fst (ndimage.label_from false c b)) q = repeat false (length b).
Proof.
  intros Hq. destruct (label_from_range b false c) as [_ Hall].
  cbv zeta in Hall. revert Hall.
  generalize (fst (ndimage.label_from false c b)) as L.
  generalize (snd (ndimage.label_from false c b)) as k.
  intros k L Hall. induction Hall as [|bj lj b L Hj Hall IH]; simpl.
  - reflexivity.
  - f_equal; [|exact IH].
    apply Nat.eqb_neq. destruct bj; lia.
Qed.

(** The items carrying one label form one maximal run of [true] items. *)
Lemma label_from_clusters (n : nat) :
  forall b c q,
    (length b <= n)%nat ->
    (c < q <= snd (ndimage.label_from false c b))%nat ->
    exists b1 len b3,
      (1 <= len)%nat
      /\ b = b1 ++ repeat true len ++ b3
      /\ np.eq (fst (ndimage.label_from false c b)) q
         = run_mask (length b1) len (length b3)
      /\ (b1 = [] \/ exists b1', b1 = b1' ++ [false])
      /\ run_end b3.
Proof.
  induction n as [|n IH]; intros b c q Hlen Hq.
  - destruct b; [|simpl in Hlen; lia]. simpl in Hq. lia.
  - destruct b as [|[|] r].
    + simpl in Hq. lia.
    + destruct (leading_trues r) as [len0 [rest [-> Hend]]].
      rewrite label_from_true in *. cbv zeta in *. cbn [fst snd] in *.
      rewrite label_from_run, (label_from_run_end _ _ Hend) in *.
      cbn [fst snd] in *.
      simpl in Hlen. rewrite length_app, repeat_length in Hlen.
      destruct (Nat.eq_dec q (S c)) as [-> | Hne].
      * exists [], (S len0), rest. split; [lia|]. split; [reflexivity|].
        split; [|split; [now left | exact Hend]].
        change (S c :: repeat (S c) len0 ++ ?L)
          with (repeat (S c) (S len0) ++ L).
        rewrite eq_app, eq_repeat, Nat.eqb_refl, eq_old_label by lia.
        reflexivity.
      * destruct (IH rest (S c) q) as [b1 [len [b3 [Hl [Hb [Hm [Hb1 Hb3]]]]]]];
          [lia | lia |].
        exists (true :: repeat true len0 ++ b1), len, b3.
        split; [exact Hl|]. split; [|split; [|split; [|exact Hb3]]].
        -- rewrite Hb at 1. cbn [app]. now rewrite <- app_assoc.
        -- change (S c :: repeat (S c) len0 ++ ?L)
             with (repeat (S c) (S len0) ++ L).
           rewrite eq_app, eq_repeat, Hm.
           replace (S c =? q)%nat with false
             by (symmetry; apply Nat.eqb_neq; lia).
           unfold run_mask. cbn [length]. rewrite length_app, repeat_length.
           rewrite app_assoc, <- repeat_app. reflexivity.
        -- right. destruct Hb1 as [-> | [b1' ->]].
           ++ exfalso. cbn [app] in Hb. destruct len; [lia|].
              destruct Hend as [-> | [rest' ->]]; discriminate.
           ++ exists (true :: repeat true len0 ++ b1').
              cbn [app]. now rewrite <- app_assoc.
    + rewrite label_from_false in *. cbn [fst snd] in *.
      simpl in Hlen.
      destruct (IH r c q) as [b1 [len [b3 [Hl [Hb [Hm [Hb1 Hb3]]]]]]];
        [lia | exact Hq |].
      exists (false :: b1), len, b3.
      split; [exact Hl|]. split; [|split; [|split; [|exact Hb3]]].
      * rewrite Hb at 1. reflexivity.
      * cbn [np.eq map]. fold (np.eq (fst (ndimage.label_from false c r)) q).
        rewrite Hm. replace (0 =? q)%nat with false
          by (symmetry; apply Nat.eqb_neq; lia).
        reflexivity.
      * right. destruct Hb1 as [-> | [b1' ->]].
        -- now exists [].
        -- now exists (false :: b1').
Qed.

Theorem label_clusters (b : list bool) (L : list nat) (nC q : nat) :
  ndimage.label b = (L, nC) ->
  (1 <= q <= nC)%nat ->
  exists b1 len b3,
    (1 <= len)%nat
    /\ b = b1 ++ repeat true len ++ b3
    /\ np.eq L q = run_mask (length b1) len (length b3)
    /\ (b1 = [] \/ exists b1', b1 = b1' ++ [false])
    /\ run_end b3.
Proof.
  unfold ndimage.label. intros H Hq.
  destruct (label_from_clusters (length b) b 0 q) as [b1 [len [b3 Hc]]].
  - lia.
  - rewrite H. simpl. lia.
  - rewrite H in Hc. exists b1, len, b3. exact Hc.
Qed.

(** ** The cluster integral *)

Lemma select_nil_false (a : list R) :
  np.select a (repeat false (length a)) = [].
Proof.
  unfold np.select. induction a as [|v a IH]; simpl; [reflexivity | exact IH].
Qed.

Lemma select_all_true (c rest : list R) (i : list bool) :
  np.select (c ++ rest) (repeat true (length c) ++ i) = c ++ np.select rest i.
Proof.
  unfold np.select. induction c as [|v c IH]; simpl.
  - reflexivity.
  - f_equal. exact IH.
Qed.

Lemma select_skip (a rest : list R) (i : list bool) :
  np.select (a ++ rest) (repeat false (length a) ++ i) = np.select rest i.
Proof.
  unfold np.select. induction a as [|v a IH]; simpl; [reflexivity | exact IH].
Qed.

Lemma select_run (a c d : list R) :
  np.select (a ++ c ++ d) (run_mask (length a) (length c) (length d)) = c.
Proof.
  unfold run_mask.
  rewrite select_skip, select_all_true, select_nil_false.
  apply app_nil_r.
Qed.

Lemma count_run (s len r : nat) : np.count (run_mask s len r) = len.
Proof.
  unfold np.count, run_mask.
  rewrite !filter_app, !length_app.
  assert (Hf : forall n,
             length (filter (fun b : bool => b) (repeat false n)) = 0%nat).
  { induction n; simpl; auto. }
  assert (Ht : forall n,
             length (filter (fun b : bool => b) (repeat true n)) = n).
  { induction n; simpl; auto. }
  rewrite !Hf, Ht. lia.
Qed.

Lemma trapz_cons2 (a b : R) (r : list R) :
  np.trapz (a :: b :: r) = (a + b) / 2 + np.trapz (b :: r).
Proof.
  unfold np.trapz. cbn [tl].
  change (removelast (a :: b :: r)) with (a :: removelast (b :: r)).
  cbn [combine map fst snd]. rewrite sum_cons. lra.
Qed.

Lemma trapz_spec (u : list R) : np.trapz u = spec_trapezoid u.
Proof.
  induction u as [|a [|b r] IH].
  - reflexivity.
  - reflexivity.
  - rewrite trapz_cons2, IH. reflexivity.
Qed.

Lemma cluster_integral_run (a c d : list R) (thresh : R) :
  cluster_integral (a ++ c ++ d) thresh
    (run_mask (length a) (length c) (length d))
  = match c with
    | [v] => v - thresh
    | _ => spec_trapezoid (map (fun v => v - thresh) c)
    end.
Proof.
  unfold cluster_integral. rewrite count_run, select_run, trapz_spec.
  destruct c as [|v [|w c]]; reflexivity.
Qed.

(** The runs of a thresholded field. *)
Lemma gt_app_inv (z : list R) (thresh : R) (b1 b2 : list bool) :
  np.gt z thresh = b1 ++ b2 ->
  exists a c, z = a ++ c /\ np.gt a thresh = b1 /\ np.gt c thresh = b2.
Proof.
  unfold np.gt. intros H. apply map_eq_app in H as [a [c [-> [H1 H2]]]].
  now exists a, c.
Qed.

Lemma gt_all_true (c : list R) (thresh : R) (len : nat) :
  np.gt c thresh = repeat true len ->
  length c = len /\ Forall (fun v => v > thresh) c.
Proof.
  revert len. induction c as [|v c IH]; intros [|len] H; simpl in H;
    try discriminate.
  - split; [reflexivity | constructor].
  - injection H as Hv Hc. apply IH in Hc as [Hlen Hall].
    split; [simpl; now f_equal|]. constructor; [|exact Hall].
    destruct (Rgt_dec v thresh); [assumption | discriminate].
Qed.

Lemma gt_length z thresh : length (np.gt z thresh) = length z.
Proof. apply length_map. Qed.

Lemma field_clusters (z : list R) (thresh : R) (L : list nat) (nC q : nat) :
  ndimage.label (np.gt z thresh) = (L, nC) ->
  (1 <= q <= nC)%nat ->
  exists a c d,
    z = a ++ c ++ d
    /\ c <> []
    /\ np.eq L q = run_mask (length a) (length c) (length d)
    /\ Forall (fun v => v > thresh) c
    /\ (a = [] \/ exists a' v, a = a' ++ [v] /\ ~ v > thresh)
    /\ (d = [] \/ exists v d', d = v :: d' /\ ~ v > thresh).
Proof.
  intros HL Hq.
  destruct (label_clusters _ _ _ _ HL Hq)
    as [b1 [len [b3 [Hlen [Hb [Hm [Hb1 Hb3]]]]]]].
  apply gt_app_inv in Hb as [a [cd [-> [Ha Hcd]]]].
  apply gt_app_inv in Hcd as [c [d [-> [Hc Hd]]]].
  apply gt_all_true in Hc as [Hclen Hc].
  exists a, c, d. split; [reflexivity|].
  split; [intros ->; simpl in Hclen; lia|].
  split; [|split; [exact Hc|split]].
  - rewrite Hm, <- Ha, <- Hd, !gt_length, Hclen. reflexivity.
  - destruct Hb1 as [-> | [b1' ->]].
    + left. destruct a; [reflexivity | discriminate].
    + right. apply gt_app_inv in Ha as [a' [v1 [-> [_ Hv]]]].
      destruct v1 as [|v [|w v1]]; try discriminate.
      exists a', v. split; [reflexivity|]. simpl in Hv.
      destruct (Rgt_dec v thresh); [discriminate | assumption].
  - destruct Hb3 as [-> | [b3' ->]].
    + left. destruct d; [reflexivity | discriminate].
    + right. destruct d as [|v d']; [discriminate|].
      exists v, d'. split; [reflexivity|]. simpl in Hd.
      destruct (Rgt_dec v thresh); [discriminate | assumption].
Qed.

Lemma label_z_ex :
  ndimage.label (np.gt z_ex 4) = ([0; 1; 1; 0; 2; 0]%nat, 2%nat).
Proof. unfold z_ex, np.gt. simpl. decide_R. reflexivity. Qed.

(** C3: on a run of one position the integral is the statistic there
    minus the threshold, on a longer run it is the trapezoidal rule with
    unit spacing applied to the statistic minus the threshold; the boolean
    arrays [L == q] handed to [cluster_integral] are the maximal runs above
    the threshold; and the field [[0, 5, 6, 0, 7, 0]] at threshold 4 has
    the clusters [[1,2]] and [[4,4]] with integrals 1.5 and 3. *)
Theorem cluster_integral_on_runs :
  (forall (a c d : list R) (thresh : R),
      cluster_integral (a ++ c ++ d) thresh
        (run_mask (length a) (length c) (length d))
      = match c with
        | [v] => v - thresh
        | _ => spec_trapezoid (map (fun v => v - thresh) c)
        end)
  /\ (forall (z : list R) (thresh : R) (L : list nat) (nC q : nat),
        ndimage.label (np.gt z thresh) = (L, nC) ->
        (1 <= q <= nC)%nat ->
        exists a c d,
          z = a ++ c ++ d
          /\ c <> []
          /\ np.eq L q = run_mask (length a) (length c) (length d)
          /\ Forall (fun v => v > thresh) c
          /\ (a = [] \/ exists a' v, a = a' ++ [v] /\ ~ v > thresh)
          /\ (d = [] \/ exists v d', d = v :: d' /\ ~ v > thresh))
  /\ (ndimage.label (np.gt z_ex 4) = ([0; 1; 1; 0; 2; 0]%nat, 2%nat)
      /\ np.eq [0; 1; 1; 0; 2; 0]%nat 1 = run_mask 1 2 3
      /\ np.eq [0; 1; 1; 0; 2; 0]%nat 2 = run_mask 4 1 1
      /\ cluster_integrals z_ex 4 [0; 1; 1; 0; 2; 0]%nat 2 = [3/2; 3]).
Proof.
  split; [exact cluster_integral_run|]. split; [exact field_clusters|].
  split; [exact label_z_ex|]. split; [reflexivity|]. split; [reflexivity|].
  unfold cluster_integrals, cluster_integral, z_ex. simpl.
  unfold np.trapz. simpl. rewrite sum_cons, sum_nil.
  f_equal; [lra | f_equal; lra].
Qed.

Lemma cluster_integral_on_runs_witness :
  exists a c d,
    z_ex = a ++ c ++ d
    /\ c <> []
    /\ np.eq [0; 1; 1; 0; 2; 0]%nat 1
       = run_mask (length a) (length c) (length d)
    /\ Forall (fun v => v > 4) c
    /\ (a = [] \/ exists a' v, a = a' ++ [v] /\ ~ v > 4)
    /\ (d = [] \/ exists v d', d = v :: d' /\ ~ v > 4).
Proof.
  destruct cluster_integral_on_runs as [_ [H _]].
  apply (H z_ex 4 [0; 1; 1; 0; 2; 0]%nat 2%nat 1%nat).
  - exact label_z_ex.
  - lia.
Defined.

(** ** The secondary distribution *)

Lemma pymax_spec (l : list R) (m : R) :
  pymax l = Ok m -> In m l /\ Forall (fun v => v <= m) l.
Proof.
  destruct l as [|a r]; [discriminate|]. simpl. intros H. injection H as <-.
  assert (G : forall r a,
             let m := fold_left
                        (fun acc v => if Rgt_dec v acc then v else acc) r a in
             (m = a \/ In m r) /\ a <= m /\ Forall (fun v => v <= m) r).
  { clear. induction r as [|b r IH]; intros a; simpl.
    - split; [now left|]. split; [lra | constructor].
    - destruct (IH (if Rgt_dec b a then b else a)) as [Hin [Hle Hall]].
      destruct (Rgt_dec b a) as [Hba|Hba].
      + split; [destruct Hin; auto|]. split; [lra|].
        constructor; assumption.
      + split; [destruct Hin; auto|]. split; [exact Hle|].
        constructor; [lra | exact Hall]. }
  destruct (G r a) as [Hin [Hle Hall]]. split.
  - destruct Hin as [-> | Hin]; [now left | now right].
  - constructor; assumption.
Qed.

Lemma pymax_Ok (l : list R) : l <> [] -> exists m, pymax l = Ok m.
Proof.
  destruct l as [|a r]; [contradiction|]. intros _. eexists. reflexivity.
Qed.

Lemma spec_trapezoid_pos (u : list R) :
  (2 <= length u)%nat -> Forall (fun v => 0 < v) u -> 0 < spec_trapezoid u.
Proof.
  induction u as [|a u IH]; intros Hlen Hall.
  - simpl in Hlen. lia.
  - destruct u as [|b r]; [simpl in Hlen; lia|].
    change (spec_trapezoid (a :: b :: r))
      with ((a + b) / 2 + spec_trapezoid (b :: r)).
    inversion Hall as [|? ? Ha Hall']; subst.
    inversion Hall' as [|? ? Hb _]; subst.
    destruct r as [|c r].
    + simpl. lra.
    + assert (0 < spec_trapezoid (b :: c :: r))
        by (apply IH; [simpl; lia | exact Hall']).
      lra.
Qed.

(** The integral of a cluster above the threshold is positive. *)
Lemma cluster_integral_pos (z : list R) (thresh : R) (L : list nat)
  (nC q : nat) :
  ndimage.label (np.gt z thresh) = (L, nC) ->
  (1 <= q <= nC)%nat ->
  0 < cluster_integral z thresh (np.eq L q).
Proof.
  intros HL Hq.
  destruct (field_clusters _ _ _ _ _ HL Hq)
    as [a [c [d [-> [Hne [-> [Hc _]]]]]]].
  rewrite cluster_integral_run.
  destruct c as [|v [|w c]].
  - contradiction.
  - inversion Hc; subst. lra.
  - apply spec_trapezoid_pos.
    + simpl. lia.
    + apply Forall_map. eapply Forall_impl; [|exact Hc].
      intros u Hu. simpl in Hu. lra.
Qed.

Lemma label_none (z : list R) (thresh : R) :
  Forall (fun v => ~ v > thresh) z ->
  snd (ndimage.label (np.gt z thresh)) = 0%nat.
Proof.
  intros Hall.
  destruct (ndimage.label (np.gt z thresh)) as [L nC] eqn:HL. simpl.
  destruct nC as [|nC]; [reflexivity | exfalso].
  destruct (field_clusters _ _ _ _ 1 HL ltac:(lia))
    as [a [c [d [-> [Hne [_ [Hc _]]]]]]].
  destruct c as [|v c]; [contradiction|].
  inversion Hc; subst.
  apply Forall_app in Hall as [_ Hall]. inversion Hall; subst. contradiction.
Qed.

Lemma label_some (z : list R) (thresh : R) :
  Exists (fun v => v > thresh) z ->
  (0 < snd (ndimage.label (np.gt z thresh)))%nat.
Proof.
  intros Hex. unfold ndimage.label.
  destruct (label_from_range (np.gt z thresh) false 0) as [_ Hall].
  cbv zeta in Hall. revert Hall.
  generalize (fst (ndimage.label_from false 0 (np.gt z thresh))) as L.
  generalize (snd (ndimage.label_from false 0 (np.gt z thresh))) as k.
  intros k L Hall. apply Exists_exists in Hex as [v [Hin Hv]].
  apply (in_map (fun a => if Rgt_dec a thresh then true else false)) in Hin.
  fold (np.gt z thresh) in Hin.
  destruct (Rgt_dec v thresh); [|contradiction].
  clear -Hall Hin. induction Hall as [|bj lj b L Hj Hall IH].
  - destruct Hin.
  - destruct Hin as [-> | Hin]; [lia | now apply IH].
Qed.

Lemma cluster_integrals_pos z thresh L nC :
  ndimage.label (np.gt z thresh) = (L, nC) ->
  Forall (fun m => 0 < m) (cluster_integrals z thresh L nC).
Proof.
  intros HL. unfold cluster_integrals. apply Forall_map, Forall_forall.
  intros i Hi. apply in_seq in Hi.
  apply (cluster_integral_pos _ _ _ nC); [exact HL | lia].
Qed.

(** Lines 204-208 never raise; the value is 0 without a cluster and the
    largest cluster integral, which is positive, otherwise. *)
Lemma max_cluster_integral_spec (t : list R) (tCrit : R) :
  exists m,
    max_cluster_integral t tCrit = Ok m
    /\ 0 <= m
    /\ (Forall (fun v => ~ Rabs v > tCrit) t -> m = 0)
    /\ (Exists (fun v => Rabs v > tCrit) t ->
        0 < m
        /\ let (L, nC) := ndimage.label (np.gt (np.abs t) tCrit) in
           In m (cluster_integrals (np.abs t) tCrit L nC)
           /\ Forall (fun v => v <= m)
                (cluster_integrals (np.abs t) tCrit L nC)).
Proof.
  unfold max_cluster_integral.
  pose proof (label_none (np.abs t) tCrit) as Hnone.
  pose proof (label_some (np.abs t) tCrit) as Hsome.
  pose proof (cluster_integrals_pos (np.abs t) tCrit) as Hpos.
  destruct (ndimage.label (np.gt (np.abs t) tCrit)) as [L nC].
  simpl in Hnone, Hsome. specialize (Hpos L nC eq_refl).
  assert (Habs : forall P : R -> Prop,
             Forall (fun v => P (Rabs v)) t -> Forall P (np.abs t)).
  { intros P H. unfold np.abs. now apply Forall_map. }
  assert (Habs' : forall P : R -> Prop,
             Exists (fun v => P (Rabs v)) t -> Exists P (np.abs t)).
  { intros P H. unfold np.abs. now apply Exists_map. }
  destruct (Nat.ltb_spec 0 nC) as [HnC|HnC].
  - destruct (pymax_Ok (cluster_integrals (np.abs t) tCrit L nC)) as [m Hm].
    { unfold cluster_integrals. destruct nC; [lia | discriminate]. }
    exists m. split; [exact Hm|].
    apply pymax_spec in Hm as [Hin Hmax].
    assert (0 < m) by (rewrite Forall_forall in Hpos; now apply Hpos).
    split; [lra|]. split.
    + intros Hall. apply (Habs (fun v => ~ v > tCrit)) in Hall.
      apply Hnone in Hall. lia.
    + intros _. auto.
  - exists 0. split; [reflexivity|]. split; [lra|]. split; [reflexivity|].
    intros Hex. apply (Habs' (fun v => v > tCrit)) in Hex.
    apply Hsome in Hex. lia.
Qed.

Lemma secondary_loop_total y sqrtN tCrit LABELS M0 :
  exists M, secondary_loop y sqrtN tCrit LABELS M0 = Ok M.
Proof.
  revert M0. induction LABELS as [|labels rest IH]; intros M0; simpl.
  - now exists M0.
  - destruct (max_cluster_integral_spec (tperm y sqrtN labels) tCrit)
      as [m [Hm _]].
    rewrite Hm. simpl. apply IH.
Qed.

(** C10: the secondary distribution has one member per relabeling, none
    of them negative: the member is 0 when no position of the permuted
    absolute field exceeds the threshold, and otherwise it is the largest
    of the cluster integrals, all of which are positive. *)
Theorem secondary_nonnegative x mu alpha l :
  ttest_locals x mu alpha = Ok l ->
  length (l_M l) = length (l_LABELS l)
  /\ Forall (fun m => 0 <= m) (l_M l)
  /\ forall k, (k < length (l_LABELS l))%nat ->
       let t := tperm (l_y l) (sqrt (INR (l_n l))) (nth k (l_LABELS l) []) in
       let m := nth k (l_M l) 0 in
       (Forall (fun v => ~ Rabs v > l_tCrit l) t -> m = 0)
       /\ (Exists (fun v => Rabs v > l_tCrit l) t ->
           0 < m
           /\ let (L, nC) := ndimage.label (np.gt (np.abs t) (l_tCrit l)) in
              In m (cluster_integrals (np.abs t) (l_tCrit l) L nC)
              /\ Forall (fun v => v <= m)
                   (cluster_integrals (np.abs t) (l_tCrit l) L nC)).
Proof.
  intros H. apply ttest_locals_Ok in H
    as [y [T [tCrit [M [Hy [HT [Hc [HM ->]]]]]]]]. simpl.
  apply secondary_loop_spec in HM as [ms [-> Hms]]. simpl.
  split; [symmetry; eapply Forall2_length, Hms|]. split.
  - clear -Hms. induction Hms as [|labels m LABELS ms Hm Hms IH].
    + constructor.
    + constructor; [|exact IH].
      destruct (max_cluster_integral_spec
                  (tperm y (sqrt (INR (np.shape0 y))) labels) tCrit)
        as [m' [Hm' [Hpos _]]].
      rewrite Hm in Hm'. injection Hm' as <-. exact Hpos.
  - intros k Hk.
    pose proof (Forall2_nth_rel _ _ _ k [] 0 Hms Hk) as Hm. simpl in Hm.
    destruct (max_cluster_integral_spec
                (tperm y (sqrt (INR (np.shape0 y)))
                   (nth k (itertools.product [0%Z; 1%Z] (np.shape0 y)) []))
                tCrit)
      as [m' [Hm' [_ Hrest]]].
    rewrite Hm in Hm'. injection Hm' as <-. exact Hrest.
Qed.

Lemma secondary_nonnegative_witness :
  Forall (fun m => 0 <= m) (l_M locals_ex_third).
Proof.
  exact (proj1 (proj2 (secondary_nonnegative x_ex mu_ex (1/3) locals_ex_third
                         ttest_locals_ex_third))).
Defined.

(** ** Returning normally *)

Lemma ttest_locals_total x mu alpha t0 tc :
  statistic_field x mu = Ok t0 ->
  critical_threshold x mu alpha = Ok tc ->
  exists l, ttest_locals x mu alpha = Ok l /\ l_t0 l = t0 /\ l_tCrit l = tc.
Proof.
  unfold statistic_field, critical_threshold, primary_pdf.
  intros Ht Hc. apply bind_Ok in Ht as [y [Hy Ht]]. injection Ht as <-.
  rewrite Hy in Hc. cbn [bind] in Hc.
  apply bind_Ok in Hc as [T [HT Hc]].
  destruct (secondary_loop_total y (sqrt (INR (np.shape0 y))) tc
              (itertools.product [0%Z; 1%Z] (np.shape0 y)) []) as [M HM].
  eexists. split.
  - apply ttest_locals_Ok. exists y, T, tc, M. repeat split; eassumption.
  - split; reflexivity.
Qed.

Lemma compute_p_none t0 tCrit M :
  Forall (fun v => ~ Rabs v > tCrit) t0 -> compute_p t0 tCrit M = PNan.
Proof.
  intros Hall. unfold compute_p.
  pose proof (label_none (np.abs t0) tCrit) as Hnone.
  destruct (ndimage.label (np.gt (np.abs t0) tCrit)) as [L nC].
  simpl in Hnone. rewrite Hnone; [reflexivity|].
  unfold np.abs. now apply Forall_map.
Qed.

(** C6: when the statistic field and the critical threshold are computed
    and no position of the absolute field exceeds the threshold, the call
    returns, and its third result is [np.nan], not a list of p-values. *)
Theorem no_cluster_result x mu alpha t0 tc :
  statistic_field x mu = Ok t0 ->
  critical_threshold x mu alpha = Ok tc ->
  Forall (fun v => ~ Rabs v > tc) t0 ->
  ttest_nonparametric x mu alpha = Ok (t0, tc, PNan).
Proof.
  intros Ht Hc Hall.
  destruct (ttest_locals_total _ _ _ _ _ Ht Hc) as [l [Hl [H0 H1]]].
  unfold ttest_nonparametric. rewrite Hl. cbn [bind]. subst t0 tc.
  apply ttest_locals_Ok in Hl
    as [y [T [tCrit [M [Hy [HT [Hc' [HM ->]]]]]]]]. simpl in *.
  now rewrite compute_p_none.
Qed.

Lemma statistic_field_ex : statistic_field x_ex mu_ex = Ok [2].
Proof.
  unfold statistic_field. rewrite y_ex_Ok. cbn [bind np.shape0 y_ex].
  now rewrite INR_2, t0_ex.
Qed.

Lemma tCrit_ex_zero : critical_threshold x_ex mu_ex 0 = Ok 2.
Proof.
  unfold critical_threshold. rewrite primary_ex. cbn [bind].
  rewrite (percentile_split T_ex _ 3 0).
  - rewrite sort_T_ex. simpl. f_equal. lra.
  - lra.
  - simpl. lra.
  - lra.
Qed.

Lemma no_cluster_result_witness :
  ttest_nonparametric x_ex mu_ex 0 = Ok ([2], 2, PNan).
Proof.
  apply (no_cluster_result x_ex mu_ex 0 [2] 2).
  - exact statistic_field_ex.
  - exact tCrit_ex_zero.
  - constructor; [|constructor]. rewrite Rabs_right; lra.
Defined.

(** ** The p-values *)

Lemma pymax2_Rmax (a b : R) : pymax2 a b = Rmax a b.
Proof.
  unfold pymax2, Rmax.
  destruct (Rgt_dec b a), (Rle_dec a b); try reflexivity; lra.
Qed.

Lemma INR_pow2 (n : nat) : INR (2 ^ n) = 2 ^ n.
Proof.
  rewrite pow_INR. replace (INR 2) with 2 by (simpl; lra). reflexivity.
Qed.

Lemma pow2_pos (n : nat) : 0 < 2 ^ n.
Proof. apply pow_lt. lra. Qed.

Lemma secondary_length x mu alpha l :
  ttest_locals x mu alpha = Ok l ->
  length (l_M l) = (2 ^ np.shape1 x)%nat.
Proof.
  intros H. apply ttest_locals_Ok in H
    as [y [T [tCrit [M [Hy [HT [Hc [HM ->]]]]]]]]. simpl.
  apply secondary_loop_spec in HM as [ms [-> Hms]]. simpl.
  apply Forall2_length in Hms. rewrite <- Hms.
  apply sub_bcast_shape0 in Hy. simpl in Hy. rewrite Hy.
  apply (product_length [0%Z; 1%Z]).
Qed.

(** The count that [(M > m).mean()] takes is the number of members
    strictly greater than [m]. *)
Lemma count_gt_members (m : R) (M : list R) :
  np.count (np.gt M m) = spec_members_greater m M.
Proof.
  induction M as [|v M IH]; [reflexivity|].
  unfold np.count, np.gt in *. cbn [map spec_members_greater].
  destruct (Rgt_dec v m), (Rlt_dec m v); try (exfalso; lra);
    cbn [filter length]; now rewrite IH.
Qed.

Lemma bmean_gt_fraction (m : R) (M : list R) :
  np.bmean (np.gt M m) = spec_fraction_greater m M.
Proof.
  unfold np.bmean, spec_fraction_greater.
  now rewrite gt_length, count_gt_members.
Qed.

Lemma abs_exceeds (t0 : list R) (c : R) :
  Exists (fun v => Rabs v > c) t0 -> Exists (fun v => v > c) (np.abs t0).
Proof.
  intros H. unfold np.abs.
  induction H as [v t Hv | v t _ IH]; cbn [map];
    [now apply Exists_cons_hd | now apply Exists_cons_tl].
Qed.

(** The second sample input, evaluated at [alpha = 1/2]. *)
Lemma y_mix_Ok : np.sub_bcast (np.T x_mix) mu_ex = Ok y_mix.
Proof. reflexivity. Qed.

Lemma tperm_mix_00 : tperm y_mix (sqrt 2) [0; 0]%Z = [-1/2].
Proof. tperm_ex (-1) 8. rewrite sqrt_8. field. apply sqrt_2_neq_0. Qed.

Lemma tperm_mix_01 : tperm y_mix (sqrt 2) [0; 1]%Z = [2].
Proof. tperm_ex 2 2. field. apply sqrt_2_neq_0. Qed.

Lemma tperm_mix_10 : tperm y_mix (sqrt 2) [1; 0]%Z = [-2].
Proof. tperm_ex (-2) 2. field. apply sqrt_2_neq_0. Qed.

Lemma tperm_mix_11 : tperm y_mix (sqrt 2) [1; 1]%Z = [1/2].
Proof. tperm_ex 1 8. rewrite sqrt_8. field. apply sqrt_2_neq_0. Qed.

Lemma t0_mix : tfield y_mix (sqrt 2) = [-1/2].
Proof.
  rewrite tfield_eq; simpl;
  unfold tstat_column, np.column; simpl;
  rewrite !sum_cons, sum_nil; f_equal.
  match goal with
  | |- ?m' / sqrt ?v' * _ = _ =>
      replace v' with 8 by lra; replace m' with (-1) by lra
  end. rewrite sqrt_8. field. apply sqrt_2_neq_0.
Qed.

Lemma primary_mix : primary_pdf x_mix mu_ex = Ok T_mix.
Proof.
  unfold primary_pdf. rewrite y_mix_Ok. cbn [bind np.shape0 y_mix].
  rewrite INR_2, LABELS_ex_eq. unfold LABELS_ex. cbn [primary_loop].
  rewrite tperm_mix_00, tperm_mix_01, tperm_mix_10, tperm_mix_11.
  reflexivity.
Qed.

Lemma sort_T_mix : np.sort T_mix = [-2; -1/2; 1/2; 2].
Proof.
  unfold T_mix. simpl.
  decide_R. reflexivity.
Qed.

Lemma tCrit_mix_half : critical_threshold x_mix mu_ex (1/2) = Ok 0.
Proof.
  unfold critical_threshold. rewrite primary_mix. cbn [bind].
  rewrite (percentile_split T_mix _ 1 (1/2)).
  - rewrite sort_T_mix. simpl. f_equal. lra.
  - lra.
  - simpl. lra.
  - lra.
Qed.

Lemma secondary_mix_half :
  secondary_loop y_mix (sqrt 2) 0 LABELS_ex [] = Ok M_mix_half.
Proof.
  unfold LABELS_ex. cbn [secondary_loop].
  rewrite tperm_mix_00, tperm_mix_01, tperm_mix_10, tperm_mix_11.
  rewrite (max_cluster_integral_single_above (-1/2))
    by (rewrite Rabs_left; lra).
  rewrite (max_cluster_integral_single_above 2)
    by (rewrite Rabs_right; lra).
  rewrite (max_cluster_integral_single_above (-2))
    by (rewrite Rabs_left; lra).
  rewrite (max_cluster_integral_single_above (1/2))
    by (rewrite Rabs_right; lra).
  cbn [bind app]. unfold M_mix_half.
  rewrite (Rabs_left (-1/2)), (Rabs_right 2), (Rabs_left (-2)),
    (Rabs_right (1/2)) by lra.
  do 2 f_equal; [lra|]. f_equal; [lra|]. f_equal; [lra|]. f_equal. lra.
Qed.

Lemma compute_p_mix_half : compute_p [-1/2] 0 M_mix_half = PList [1/2].
Proof.
  unfold compute_p. simpl.
  destruct (Rgt_dec (Rabs (-1/2)) 0) as [_|Hn];
    [|exfalso; apply Hn; rewrite Rabs_left; lra].
  simpl. unfold cluster_integral. simpl. rewrite Rabs_left by lra.
  unfold np.bmean, np.gt, M_mix_half. simpl. decide_R.
  unfold pymax2. decide_R. do 2 f_equal. lra.
Qed.

Lemma ttest_locals_mix_half :
  ttest_locals x_mix mu_ex (1/2) = Ok locals_mix_half.
Proof.
  apply ttest_locals_Ok. exists y_mix, T_mix, 0, M_mix_half.
  pose proof primary_mix as HT. pose proof tCrit_mix_half as Hc.
  unfold critical_threshold in Hc. rewrite HT in Hc. cbn [bind] in Hc.
  unfold primary_pdf in HT. rewrite y_mix_Ok in HT. cbn [bind] in HT.
  cbn [np.shape0 y_mix] in *. rewrite INR_2, LABELS_ex_eq in *.
  rewrite t0_mix, compute_p_mix_half, secondary_mix_half.
  repeat split; assumption.
Qed.

Lemma cluster_integral_mix :
  cluster_integral (np.abs [-1/2]) 0
    (np.eq (fst (ndimage.label (np.gt (np.abs [-1/2]) 0))) (0 + 1))
  = 1/2.
Proof.
  simpl.
  destruct (Rgt_dec (Rabs (-1/2)) 0) as [_|Hn];
    [|exfalso; apply Hn; rewrite Rabs_left; lra].
  simpl. unfold cluster_integral. simpl. rewrite Rabs_left by lra. lra.
Qed.

Lemma fraction_mix : spec_fraction_greater (1/2) M_mix_half = 1/2.
Proof.
  unfold spec_fraction_greater, M_mix_half. simpl. decide_R. lra.
Qed.

(** C4: when some position of the absolute unpermuted field exceeds the
    critical threshold, the call returns a list of p-values, one per
    cluster of the unpermuted field; each is the fraction of the members
    of the secondary distribution that are strictly greater than the
    integral of its cluster, raised to 1 over the size of the secondary
    distribution when it is smaller; that size is [2^n], hence every
    p-value is at least [1/2^n] and positive. *)
Theorem pvalue_floor x mu alpha l :
  ttest_locals x mu alpha = Ok l ->
  Exists (fun v => Rabs v > l_tCrit l) (l_t0 l) ->
  let n := np.shape1 x in
  let z := np.abs (l_t0 l) in
  let L := fst (ndimage.label (np.gt z (l_tCrit l))) in
  let nC := snd (ndimage.label (np.gt z (l_tCrit l))) in
  exists p,
    ttest_nonparametric x mu alpha = Ok (l_t0 l, l_tCrit l, PList p)
    /\ l_p l = PList p
    /\ length (l_M l) = (2 ^ n)%nat
    /\ (0 < nC)%nat
    /\ length p = nC
    /\ forall k, (k < nC)%nat ->
         let m0 := cluster_integral z (l_tCrit l) (np.eq L (k + 1)) in
         nth k p 0
         = Rmax (spec_fraction_greater m0 (l_M l))
                (1 / INR (length (l_M l)))
         /\ 1 / 2 ^ n <= nth k p 0
         /\ 0 < nth k p 0.
Proof.
  intros H Hex n z L nC.
  pose proof (secondary_length _ _ _ _ H) as Hlen. fold n in Hlen.
  unfold ttest_nonparametric. rewrite H. cbn [bind].
  apply ttest_locals_Ok in H
    as [y [T [tCrit [M [Hy [HT [Hc [HM ->]]]]]]]].
  cbn [l_p l_M l_t0 l_tCrit] in *.
  apply abs_exceeds, label_some in Hex.
  unfold compute_p. subst z L nC.
  destruct (ndimage.label
              (np.gt (np.abs (tfield y (sqrt (INR (np.shape0 y))))) tCrit))
    as [L nC]. cbn [fst snd] in *.
  destruct (Nat.ltb_spec 0 nC) as [HnC|HnC]; [|lia].
  eexists. split; [reflexivity|]. split; [reflexivity|].
  split; [exact Hlen|]. split; [exact HnC|]. split.
  - unfold cluster_integrals. now rewrite !length_map, length_seq.
  - intros k Hk. cbv zeta.
    rewrite map_map. unfold cluster_integrals. rewrite map_map.
    rewrite nth_map_seq by exact Hk.
    set (m0 := cluster_integral _ _ _).
    rewrite pymax2_Rmax, bmean_gt_fraction.
    split; [reflexivity|].
    assert (Hfloor : 1 / INR (length M) = 1 / 2 ^ n)
      by (now rewrite Hlen, INR_pow2).
    pose proof (pow2_pos n) as Hpos.
    assert (0 < 1 / 2 ^ n)
      by (unfold Rdiv; rewrite Rmult_1_l; now apply Rinv_0_lt_compat).
    pose proof (Rmax_r (spec_fraction_greater m0 M)
                  (1 / INR (length M))) as Hr.
    rewrite Hfloor in *. split; lra.
Qed.

Lemma pvalue_floor_witness :
  exists p,
    ttest_nonparametric x_mix mu_ex (1/2) = Ok ([-1/2], 0, PList p)
    /\ length M_mix_half = (2 ^ 2)%nat
    /\ length p = 1%nat
    /\ nth 0 p 0
       = Rmax (spec_fraction_greater (1/2) M_mix_half)
              (1 / INR (length M_mix_half))
    /\ spec_fraction_greater (1/2) M_mix_half = 1/2
    /\ 1 / 2 ^ 2 <= nth 0 p 0.
Proof.
  assert (Hex : Exists (fun v => Rabs v > l_tCrit locals_mix_half)
                  (l_t0 locals_mix_half))
    by (constructor; simpl; rewrite Rabs_left; lra).
  destruct (pvalue_floor x_mix mu_ex (1/2) locals_mix_half
              ttest_locals_mix_half Hex)
    as [p [Hret [Hp [Hlen [HnC [Hl Hk]]]]]].
  cbn [l_t0 l_tCrit l_M locals_mix_half] in *.
  specialize (Hk 0%nat HnC). cbv zeta in Hk.
  rewrite cluster_integral_mix in Hk. destruct Hk as [Hk [Hfl _]].
  injection Hp as <-.
  exists [1/2]. repeat split; try assumption; try reflexivity.
  exact fraction_mix.
Defined.

(** ** Errors *)

Lemma sub_bcast_Raise a v e :
  np.sub_bcast a v = Raise e
  <-> length v <> np.shape1 a /\ length v <> 1%nat /\ np.shape1 a <> 1%nat.
Proof.
  unfold np.sub_bcast.
  destruct (Nat.eqb_spec (length v) (np.shape1 a));
    [|destruct (Nat.eqb_spec (length v) 1);
      [|destruct (Nat.eqb_spec (np.shape1 a) 1)]];
    (split; [try discriminate; auto | try tauto]).
  intros _. now destruct e.
Qed.

Lemma amax_Ok (u : list R) : u <> [] -> exists m, np.amax u = Ok m.
Proof. destruct u; [contradiction|]. intros _. eexists. reflexivity. Qed.

Lemma primary_loop_total y sqrtN LABELS T0 :
  (0 < np.shape1 y)%nat ->
  exists T, primary_loop y sqrtN LABELS T0 = Ok T.
Proof.
  intros Hm. revert T0.
  induction LABELS as [|labels rest IH]; intros T0; simpl.
  - now exists T0.
  - destruct (amax_Ok (tperm y sqrtN labels)) as [m Hmax].
    { intros Hnil. pose proof (tperm_length y sqrtN labels) as Hlen.
      rewrite Hnil in Hlen. simpl in Hlen. lia. }
    rewrite Hmax. simpl. apply IH.
Qed.

Lemma percentile_Ok (a : list R) (q : R) :
  0 <= q <= 100 -> exists v, np.percentile a q = Ok v.
Proof.
  intros Hq. unfold np.percentile.
  destruct (Rlt_dec q 0); [lra|]. destruct (Rgt_dec q 100); [lra|].
  eexists. reflexivity.
Qed.

(** The call returns whenever the subtraction succeeds, the fields are
    not empty and [alpha] is a probability. *)
Lemma ttest_returns x mu alpha y :
  np.sub_bcast (np.T x) mu = Ok y ->
  (0 < np.shape1 y)%nat ->
  0 <= alpha <= 1 ->
  exists r, ttest_nonparametric x mu alpha = Ok r.
Proof.
  intros Hy Hm Ha.
  destruct (primary_loop_total y (sqrt (INR (np.shape0 y)))
              (itertools.product [0%Z; 1%Z] (np.shape0 y)) [] Hm) as [T HT].
  destruct (percentile_Ok T (100 * (1 - alpha))) as [tc Hc]; [lra|].
  destruct (ttest_locals_total x mu alpha
              (tfield y (sqrt (INR (np.shape0 y)))) tc) as [l [Hl _]].
  - unfold statistic_field. now rewrite Hy.
  - unfold critical_threshold, primary_pdf. rewrite Hy. cbn [bind].
    now rewrite HT.
  - unfold ttest_nonparametric. rewrite Hl. eexists. reflexivity.
Qed.




(** ** The statistic against the formula of the spec *)

Lemma tstat_column_spec (d : list R) (n : nat) :
  length d = n -> (1 <= n)%nat ->
  tstat_column d n (sqrt (INR n)) = spec_statistic d.
Proof.
  intros Hlen Hn.
  unfold tstat_column, spec_statistic, spec_sample_std, spec_mean.
  rewrite Hlen, !sum_fold_right, minus_INR by exact Hn.
  replace (INR 1) with 1 by reflexivity.
  do 5 f_equal. apply map_ext. intros v. ring.
Qed.

(** C2: with at least two observations and a datum as long as the
    fields, the statistic field returned has one value per position, the
    mean of the differences divided by their sample standard deviation
    (divisor [n - 1]) and multiplied by [sqrt n]. *)
Theorem statistic_field_formula x mu alpha t0 tc p :
  (2 <= np.shape1 x)%nat ->
  length mu = np.shape0 x ->
  ttest_nonparametric x mu alpha = Ok (t0, tc, p) ->
  length t0 = np.shape0 x
  /\ forall j, (j < np.shape0 x)%nat ->
       nth j t0 0 = spec_statistic (differences x mu j).
Proof.
  intros Hn Hmu H. unfold ttest_nonparametric in H.
  apply bind_Ok in H as [l [Hl H]]. injection H as <- _ _.
  apply ttest_locals_Ok in Hl
    as [y [T [tCrit [M [Hy [HT [Hc [HM ->]]]]]]]]. cbn [l_t0].
  unfold np.sub_bcast in Hy. cbn [np.T np.shape1 np.shape0] in Hy.
  rewrite Hmu, Nat.eqb_refl in Hy. injection Hy as <-.
  rewrite tfield_length. split; [reflexivity|].
  intros j Hj. rewrite tfield_nth by exact Hj.
  cbn [np.shape0].
  change (np.column _ j) with (differences x mu j).
  apply tstat_column_spec; [|lia].
  unfold differences. now rewrite length_map, length_seq.
Qed.

Lemma ttest_ex_third :
  ttest_nonparametric x_ex mu_ex (1/3) = Ok ([2], 1/2, PList [1/4]).
Proof.
  unfold ttest_nonparametric. now rewrite ttest_locals_ex_third.
Qed.

Lemma statistic_field_formula_witness :
  length [2] = np.shape0 x_ex
  /\ forall j, (j < np.shape0 x_ex)%nat ->
       nth j [2] 0 = spec_statistic (differences x_ex mu_ex j).
Proof.
  apply (statistic_field_formula x_ex mu_ex (1/3) [2] (1/2) (PList [1/4])).
  - simpl. lia.
  - reflexivity.
  - exact ttest_ex_third.
Defined.

(** ** The critical threshold *)

Lemma percentile_interp (a : list R) (q v : R) :
  np.percentile a q = Ok v <->
  0 <= q <= 100 /\ v = interp (np.sort a) (q / 100 * INR (length a - 1)).
Proof.
  unfold np.percentile, interp. rewrite sort_length.
  destruct (Rlt_dec q 0); [split; [discriminate | lra]|].
  destruct (Rgt_dec q 100); [split; [discriminate | lra]|].
  set (h := q / 100 * INR (length a - 1)).
  destruct (Nat.ltb_spec (length a - 1) (np.floor h + 1)) as [H|H].
  - rewrite Nat.min_r by lia. split.
    + intros E. injection E as <-. split; [lra | reflexivity].
    + intros [_ ->]. reflexivity.
  - rewrite Nat.min_l by lia. split.
    + intros E. injection E as <-. split; [lra | reflexivity].
    + intros [_ ->]. reflexivity.
Qed.

Lemma floor_le_mono (h1 h2 : R) :
  0 <= h1 <= h2 -> (np.floor h1 <= np.floor h2)%nat.
Proof.
  intros H.
  destruct (floor_bounds h1) as [A1 B1]; [lra|].
  destruct (floor_bounds h2) as [A2 B2]; [lra|].
  apply INR_le. 
  destruct (Nat.le_gt_cases (np.floor h1) (np.floor h2)) as [Hle|Hgt].
  - now apply le_INR.
  - exfalso. assert (Hs : (np.floor h2 + 1 <= np.floor h1)%nat) by lia.
    apply le_INR in Hs. rewrite plus_INR in Hs. simpl in Hs. lra.
Qed.

Lemma floor_le_index (h : R) (n : nat) :
  0 <= h <= INR n -> (np.floor h <= n)%nat.
Proof.
  intros H. destruct (floor_bounds h) as [A B]; [lra|].
  apply INR_le. lra.
Qed.

(** The interpolated value lies between the two items it is taken from. *)
Lemma interp_bounds (s : list R) (h : R) :
  Sorted Rle s -> s <> [] -> 0 <= h <= INR (length s - 1) ->
  nth (np.floor h) s 0 <= interp s h
  /\ interp s h <= nth (Nat.min (np.floor h + 1) (length s - 1)) s 0.
Proof.
  intros Hs Hne Hh. unfold interp.
  destruct (floor_bounds h) as [A B]; [lra|].
  pose proof (floor_le_index h _ Hh) as Hk.
  assert (Hlen : (0 < length s)%nat)
    by (destruct s; [contradiction | simpl; lia]).
  assert (Hle : nth (np.floor h) s 0
                <= nth (Nat.min (np.floor h + 1) (length s - 1)) s 0)
    by (apply sorted_nth_le; [exact Hs | lia | lia]).
  set (k := np.floor h) in *. set (w := h - INR k).
  assert (0 <= w < 1) by (unfold w; lra).
  split; nra.
Qed.

Lemma interp_mono (s : list R) (h1 h2 : R) :
  Sorted Rle s -> s <> [] ->
  0 <= h1 -> h1 <= h2 -> h2 <= INR (length s - 1) ->
  interp s h1 <= interp s h2.
Proof.
  intros Hs Hne H0 H12 H2.
  assert (Hlen : (0 < length s)%nat)
    by (destruct s; [contradiction | simpl; lia]).
  pose proof (floor_le_mono h1 h2 (conj H0 H12)) as Hk.
  pose proof (floor_le_index h2 (length s - 1) ltac:(split; lra)) as Hk2.
  destruct (Nat.eq_dec (np.floor h1) (np.floor h2)) as [Heq|Hne12].
  - unfold interp. rewrite Heq.
    set (k := np.floor h2) in *.
    assert (Hle : nth k s 0 <= nth (Nat.min (k + 1) (length s - 1)) s 0)
      by (apply sorted_nth_le; [exact Hs | lia | lia]).
    nra.
  - destruct (interp_bounds s h1 Hs Hne ltac:(split; lra)) as [_ Hup].
    destruct (interp_bounds s h2 Hs Hne ltac:(split; lra)) as [Hlow _].
    assert (Hmid : nth (Nat.min (np.floor h1 + 1) (length s - 1)) s 0
                   <= nth (np.floor h2) s 0)
      by (apply sorted_nth_le; [exact Hs | lia | lia]).
    lra.
Qed.

Lemma percentile_mono (a : list R) (q1 q2 v1 v2 : R) :
  q1 <= q2 ->
  np.percentile a q1 = Ok v1 -> np.percentile a q2 = Ok v2 -> v1 <= v2.
Proof.
  intros Hq H1 H2.
  apply percentile_interp in H1 as [Hq1 ->].
  apply percentile_interp in H2 as [Hq2 ->].
  destruct a as [|x a].
  - unfold interp. cbn [np.sort].
    rewrite !(nth_overflow []) by (simpl; lia). lra.
  - assert (Hn : 0 <= INR (length (x :: a) - 1)) by apply pos_INR.
    apply interp_mono.
    + apply sort_sorted.
    + intros E. apply (f_equal (@length R)) in E.
      rewrite sort_length in E. discriminate.
    + apply Rmult_le_pos; [lra | exact Hn].
    + apply Rmult_le_compat_r; [exact Hn | lra].
    + rewrite sort_length.
      rewrite <- (Rmult_1_l (INR (length (x :: a) - 1))) at 2.
      apply Rmult_le_compat_r; [exact Hn | lra].
Qed.

(** C9: for the same observations and datum, a larger [alpha] never gives
    a larger critical threshold. *)
Theorem threshold_monotone x mu alpha1 alpha2 tCrit1 tCrit2 :
  alpha1 <= alpha2 ->
  critical_threshold x mu alpha1 = Ok tCrit1 ->
  critical_threshold x mu alpha2 = Ok tCrit2 ->
  tCrit2 <= tCrit1.
Proof.
  unfold critical_threshold. intros Ha H1 H2.
  apply bind_Ok in H1 as [T [HT H1]]. rewrite HT in H2. cbn [bind] in H2.
  apply (percentile_mono T (100 * (1 - alpha2)) (100 * (1 - alpha1)));
    [lra | exact H2 | exact H1].
Qed.

Lemma threshold_monotone_witness : 1/2 <= 2.
Proof.
  apply (threshold_monotone x_ex mu_ex 0 (1/3) 2 (1/2)).
  - lra.
  - exact tCrit_ex_zero.
  - exact tCrit_ex_third.
Defined.

(** ** Counting in a sorted array *)

Lemma count_map_cons {A : Type} (f : A -> bool) (a : A) (l : list A) :
  np.count (map f (a :: l))
  = ((if f a then 1 else 0) + np.count (map f l))%nat.
Proof. unfold np.count. simpl. now destruct (f a). Qed.

Lemma count_map_le_length {A : Type} (f : A -> bool) (l : list A) :
  (np.count (map f l) <= length l)%nat.
Proof.
  induction l as [|a l IH].
  - simpl. unfold np.count. simpl. lia.
  - rewrite count_map_cons. simpl. destruct (f a); lia.
Qed.

Lemma count_map_perm {A : Type} (f : A -> bool) (l l' : list A) :
  Permutation l l' -> np.count (map f l) = np.count (map f l').
Proof.
  intros H. induction H as [|a l l' H IH|a b l|l l' l'' H1 IH1 H2 IH2].
  - reflexivity.
  - rewrite !count_map_cons, IH. reflexivity.
  - rewrite !count_map_cons. lia.
  - congruence.
Qed.

Lemma count_le_cons v a T :
  count_le v (a :: T)
  = ((if Rle_dec a v then 1 else 0) + count_le v T)%nat.
Proof.
  unfold count_le. rewrite count_map_cons. now destruct (Rle_dec a v).
Qed.

Lemma count_lt_cons v a T :
  count_lt v (a :: T)
  = ((if Rlt_dec a v then 1 else 0) + count_lt v T)%nat.
Proof.
  unfold count_lt. rewrite count_map_cons. now destruct (Rlt_dec a v).
Qed.

Lemma count_gt_cons v a T :
  count_gt v (a :: T)
  = ((if Rgt_dec a v then 1 else 0) + count_gt v T)%nat.
Proof.
  unfold count_gt, np.gt. rewrite count_map_cons. now destruct (Rgt_dec a v).
Qed.

Lemma strongly_sorted (s : list R) : Sorted Rle s -> StronglySorted Rle s.
Proof. apply Sorted_StronglySorted. intros a b c. apply Rle_trans. Qed.

(** At least [k + 1] items of a sorted array are at most any value from
    its item [k] on. *)
Lemma count_le_sorted (s : list R) (k : nat) (v : R) :
  Sorted Rle s -> (k < length s)%nat -> nth k s 0 <= v ->
  (k + 1 <= count_le v s)%nat.
Proof.
  intros Hs. apply strongly_sorted in Hs. revert k.
  induction Hs as [|a s Hs IH Ha]; intros k Hk Hv.
  - simpl in Hk. lia.
  - rewrite count_le_cons. destruct k as [|k]; simpl in Hk, Hv.
    + destruct (Rle_dec a v); [lia | contradiction].
    + assert (a <= nth k s 0)
        by (rewrite Forall_forall in Ha; apply Ha, nth_In; lia).
      destruct (Rle_dec a v); [|lra].
      specialize (IH k ltac:(lia) Hv). lia.
Qed.

Lemma count_lt_sorted (s : list R) (i : nat) (v : R) :
  Sorted Rle s -> (i < length s)%nat -> (count_lt v s <= i)%nat ->
  v <= nth i s 0.
Proof.
  intros Hs. apply strongly_sorted in Hs. revert i.
  induction Hs as [|a s Hs IH Ha]; intros i Hi Hc.
  - simpl in Hi. lia.
  - rewrite count_lt_cons in Hc. destruct i as [|i]; simpl in Hi |- *.
    + destruct (Rlt_dec a v); [lia | lra].
    + destruct (Rlt_dec a v) as [Hav|Hav].
      * apply IH; lia.
      * assert (a <= nth i s 0)
          by (rewrite Forall_forall in Ha; apply Ha, nth_In; lia).
        lra.
Qed.

Lemma count_gt_sorted (s : list R) (j : nat) :
  Sorted Rle s -> (j < length s)%nat ->
  (count_gt (nth j s 0%R) s <= length s - 1 - j)%nat.
Proof.
  intros Hs. apply strongly_sorted in Hs. revert j.
  induction Hs as [|a s Hs IH Ha]; intros j Hj.
  - simpl in Hj. lia.
  - rewrite count_gt_cons. destruct j as [|j]; simpl in Hj |- *.
    + destruct (Rgt_dec a a); [lra|].
      pose proof (count_map_le_length
                    (fun t => if Rgt_dec t a then true else false) s) as Hle.
      unfold count_gt, np.gt. lia.
    + assert (a <= nth j s 0)
        by (rewrite Forall_forall in Ha; apply Ha, nth_In; lia).
      destruct (Rgt_dec a (nth j s 0)); [lra|].
      specialize (IH j ltac:(lia)). lia.
Qed.

Lemma count_lt_gt_paired (T T' : list R) (c : R) :
  Forall2 (fun a b => 0 <= a + b) T T' ->
  (count_lt (- c)%R T <= count_gt c T')%nat.
Proof.
  intros H. induction H as [|a b T T' Hab H IH].
  - unfold count_lt, count_gt, np.count. simpl. lia.
  - rewrite count_lt_cons, count_gt_cons.
    destruct (Rlt_dec a (- c)), (Rgt_dec b c); try lia. lra.
Qed.

(** When the items of an array and those of its reverse have
    non-negative sums, so have the items of the sorted array. *)
Lemma sorted_paired (T : list R) (i : nat) :
  Forall2 (fun a b => 0 <= a + b) T (rev T) ->
  (i < length T)%nat ->
  0 <= nth i (np.sort T) 0 + nth (length T - 1 - i) (np.sort T) 0.
Proof.
  intros Hp Hi.
  set (s := np.sort T). set (c := nth (length T - 1 - i) s 0).
  assert (Hs : Sorted Rle s) by apply sort_sorted.
  assert (Hlen : length s = length T) by apply sort_length.
  assert (Hperm : Permutation T s) by apply sort_perm.
  assert (Hc : - c <= nth i s 0).
  { apply count_lt_sorted; [exact Hs | lia |].
    unfold count_lt. rewrite <- (count_map_perm _ _ _ Hperm).
    fold (count_lt (- c) T).
    eapply Nat.le_trans; [apply (count_lt_gt_paired _ _ _ Hp)|].
    unfold count_gt, np.gt.
    rewrite (count_map_perm _ (rev T) s)
      by (eapply perm_trans;
          [apply Permutation_sym, Permutation_rev | exact Hperm]).
    pose proof (count_gt_sorted s (length T - 1 - i) Hs ltac:(lia)) as Hg.
    fold c in Hg. unfold count_gt, np.gt in Hg. lia. }
  lra.
Qed.

(** From the middle index on, the interpolated value is non-negative. *)
Lemma interp_nonneg (s : list R) (h : R) :
  Sorted Rle s -> s <> [] ->
  (forall i, (i < length s)%nat ->
        0 <= nth i s 0 + nth (length s - 1 - i) s 0) ->
  INR (length s - 1) / 2 <= h <= INR (length s - 1) ->
  0 <= interp s h.
Proof.
  intros Hs Hne Hp Hh.
  assert (Hlen : (0 < length s)%nat)
    by (destruct s; [contradiction | simpl; lia]).
  assert (Hn : 0 <= INR (length s - 1)) by apply pos_INR.
  assert (Hh0 : 0 <= h <= INR (length s - 1)) by lra.
  destruct (floor_bounds h) as [A B]; [lra|].
  pose proof (floor_le_index h _ Hh0) as Hk.
  destruct (interp_bounds s h Hs Hne Hh0) as [Hlow _].
  destruct (Nat.le_gt_cases (length s - 1) (2 * np.floor h)) as [Hc|Hc].
  - specialize (Hp (np.floor h) ltac:(lia)).
    assert (nth (length s - 1 - np.floor h) s 0 <= nth (np.floor h) s 0)
      by (apply sorted_nth_le; [exact Hs | lia | lia]).
    lra.
  - assert (Heq : (length s - 1 = 2 * np.floor h + 1)%nat).
    { assert (Hlt : INR (length s - 1) < INR (2 * np.floor h + 2)).
      { rewrite plus_INR, mult_INR. simpl. lra. }
      apply INR_lt in Hlt. lia. }
    specialize (Hp (np.floor h) ltac:(lia)).
    replace (length s - 1 - np.floor h)%nat with (np.floor h + 1)%nat in Hp
      by lia.
    assert (Hle : nth (np.floor h) s 0 <= nth (np.floor h + 1) s 0)
      by (apply sorted_nth_le; [exact Hs | lia | lia]).
    unfold interp. rewrite Nat.min_l by lia.
    assert (Hw : 1 / 2 <= h - INR (np.floor h)).
    { rewrite Heq, plus_INR, mult_INR in Hh. simpl in Hh. lra. }
    set (k := np.floor h) in *. set (w := h - INR k) in *.
    assert (0 <= (w - 1 / 2) * (nth (k + 1) s 0 - nth k s 0))
      by (apply Rmult_le_pos; lra).
    lra.
Qed.

Lemma percentile_nonneg (T : list R) (q v : R) :
  T <> [] ->
  Forall2 (fun a b => 0 <= a + b) T (rev T) ->
  50 <= q ->
  np.percentile T q = Ok v ->
  0 <= v.
Proof.
  intros Hne Hp Hq H. apply percentile_interp in H as [Hq' ->].
  assert (Hn : 0 <= INR (length T - 1)) by apply pos_INR.
  apply interp_nonneg.
  - apply sort_sorted.
  - intros E. apply (f_equal (@length R)) in E.
    rewrite sort_length in E. destruct T; [contradiction | discriminate].
  - intros i Hi. rewrite sort_length in *. now apply sorted_paired.
  - rewrite sort_length. split; nra.
Qed.

(** ** The symmetry of the primary distribution *)

Lemma rev_flat_map {A B : Type} (f : A -> list B) (l : list A) :
  rev (flat_map f l) = flat_map (fun x => rev (f x)) (rev l).
Proof.
  induction l as [|a l IH]; simpl.
  - reflexivity.
  - rewrite rev_app_distr, IH, flat_map_app. simpl.
    now rewrite app_nil_r.
Qed.

Lemma flat_map_map {A B C : Type} (f : B -> list C) (g : A -> B)
  (l : list A) :
  flat_map f (map g l) = flat_map (fun x => f (g x)) l.
Proof.
  induction l as [|a l IH]; simpl; [reflexivity | now rewrite IH].
Qed.

Lemma map_flat_map {A B C : Type} (f : A -> list B) (g : B -> C)
  (l : list A) :
  map g (flat_map f l) = flat_map (fun x => map g (f x)) l.
Proof.
  induction l as [|a l IH]; simpl; [reflexivity|].
  now rewrite map_app, IH.
Qed.

(** Reading the labels backwards exchanges 0 and 1. *)
Lemma product_rev (n : nat) :
  rev (itertools.product [0%Z; 1%Z] n)
  = map complement (itertools.product [0%Z; 1%Z] n).
Proof.
  induction n as [|n IH].
  - reflexivity.
  - rewrite product_S. unfold itertools.step.
    rewrite rev_flat_map, IH, flat_map_map, map_flat_map.
    apply flat_map_ext. intros x. unfold complement. simpl.
    now rewrite !map_app.
Qed.

Lemma nth_map_opp (l : list R) (i : nat) :
  nth i (map Ropp l) 0 = - nth i l 0.
Proof.
  revert i. induction l as [|a l IH]; intros [|i]; simpl;
    try (symmetry; apply Ropp_0); try reflexivity.
  apply IH.
Qed.

Lemma signs_of_complement labels :
  signs_of (complement labels) = map Ropp (signs_of labels).
Proof.
  unfold signs_of, complement. rewrite !map_map. apply map_ext.
  intros l. rewrite <- opp_IZR. f_equal. lia.
Qed.

Lemma tstat_column_opp (c : list R) (n : nat) (sqrtN : R) :
  tstat_column (map Ropp c) n sqrtN = - tstat_column c n sqrtN.
Proof.
  unfold tstat_column. rewrite sum_map_opp, map_map.
  set (m := np.sum c / INR n).
  replace (map (fun v => (- v - - np.sum c / INR n)
                         * (- v - - np.sum c / INR n)) c)
    with (map (fun v => (v - m) * (v - m)) c)
    by (apply map_ext; intros v; unfold m, Rdiv; ring).
  unfold m.
  unfold Rdiv. ring.
Qed.

Lemma tperm_complement y sqrtN labels :
  tperm y sqrtN (complement labels) = map Ropp (tperm y sqrtN labels).
Proof.
  unfold tperm. rewrite !tfield_eq, signs_of_complement, map_map.
  cbn [np.mul_rows np.shape0 np.shape1].
  apply map_ext. intros j. rewrite <- tstat_column_opp. f_equal.
  unfold np.column. cbn [np.mul_rows np.shape0 np.item].
  rewrite map_map. apply map_ext. intros i. rewrite nth_map_opp. ring.
Qed.

Lemma fold_Rmax_ge (r : list R) (a : R) : a <= fold_left Rmax r a.
Proof.
  revert a. induction r as [|b r IH]; intros a; simpl.
  - lra.
  - eapply Rle_trans; [apply (Rmax_l a b) | apply IH].
Qed.

Lemma amax_opp_sum (u : list R) (m m' : R) :
  np.amax u = Ok m -> np.amax (map Ropp u) = Ok m' -> 0 <= m + m'.
Proof.
  destruct u as [|a r]; [discriminate|]. simpl.
  intros H H'. injection H as <-. injection H' as <-.
  pose proof (fold_Rmax_ge r a). pose proof (fold_Rmax_ge (map Ropp r) (- a)).
  lra.
Qed.

Lemma Forall2_rev_both {A B : Type} (P : A -> B -> Prop) (u : list A)
  (v : list B) :
  Forall2 P u v -> Forall2 P (rev u) (rev v).
Proof.
  intros H. induction H as [|a b u v Hab H IH]; simpl.
  - constructor.
  - apply Forall2_app; [exact IH | now constructor].
Qed.

Lemma Forall2_shared {A B C : Type} (P : A -> B -> Prop) (Q : A -> C -> Prop)
  (S : B -> C -> Prop) (l : list A) (u : list B) (v : list C) :
  (forall a b c, P a b -> Q a c -> S b c) ->
  Forall2 P l u -> Forall2 Q l v -> Forall2 S u v.
Proof.
  intros HS HP. revert v. induction HP as [|a b l u Hab HP IH]; intros v HQ.
  - inversion HQ. constructor.
  - inversion HQ as [|? c ? v' Hac HQ']; subst.
    constructor; [eapply HS; eassumption | now apply IH].
Qed.

Lemma Forall2_map_left {A A' B : Type} (f : A -> A') (P : A' -> B -> Prop)
  (l : list A) (v : list B) :
  Forall2 P (map f l) v -> Forall2 (fun a b => P (f a) b) l v.
Proof.
  revert v. induction l as [|a l IH]; intros v H; simpl in H.
  - inversion H. constructor.
  - inversion H as [|? b ? v' Hab H']; subst.
    apply Forall2_cons; [exact Hab | apply IH, H'].
Qed.

(** The primary distribution read backwards, added item by item to
    itself, is nowhere negative. *)
Lemma primary_paired y sqrtN n T :
  primary_loop y sqrtN (itertools.product [0%Z; 1%Z] n) [] = Ok T ->
  Forall2 (fun a b => 0 <= a + b) T (rev T).
Proof.
  intros H. apply primary_loop_spec in H as [ms [-> Hms]]. simpl.
  pose proof (Forall2_rev_both _ _ _ Hms) as Hrev.
  rewrite product_rev in Hrev. apply Forall2_map_left in Hrev.
  eapply Forall2_shared; [|exact Hms | exact Hrev].
  intros labels a b Ha Hb. cbv beta in Hb.
  rewrite tperm_complement in Hb.
  exact (amax_opp_sum _ _ _ Ha Hb).
Qed.

Lemma primary_pdf_length x mu T :
  primary_pdf x mu = Ok T -> length T = (2 ^ np.shape1 x)%nat.
Proof.
  unfold primary_pdf. intros H. apply bind_Ok in H as [y [Hy H]].
  apply primary_loop_spec in H as [ms [-> Hms]]. simpl.
  apply Forall2_length in Hms. rewrite <- Hms.
  apply sub_bcast_shape0 in Hy. simpl in Hy. rewrite Hy.
  apply (product_length [0%Z; 1%Z]).
Qed.

Lemma primary_pdf_paired x mu T :
  primary_pdf x mu = Ok T -> Forall2 (fun a b => 0 <= a + b) T (rev T).
Proof.
  unfold primary_pdf. intros H. apply bind_Ok in H as [y [Hy H]].
  eapply primary_paired, H.
Qed.

Lemma pow2_ge_1 (n : nat) : (1 <= 2 ^ n)%nat.
Proof. induction n; simpl; lia. Qed.

(** C8, as amended: the critical threshold is non-negative whenever
    [alpha <= 1/2], and at least [floor((1 - alpha) * (2^n - 1)) + 1] of
    the [2^n] members of the primary distribution are at most the
    threshold. *)
Theorem threshold_properties x mu alpha T tCrit :
  primary_pdf x mu = Ok T ->
  critical_threshold x mu alpha = Ok tCrit ->
  (alpha <= 1 / 2 -> 0 <= tCrit)
  /\ (np.floor ((1 - alpha) * (2 ^ np.shape1 x - 1)) + 1
      <= count_le tCrit T)%nat.
Proof.
  intros HT Hc. unfold critical_threshold in Hc. rewrite HT in Hc.
  cbn [bind] in Hc.
  pose proof (primary_pdf_length _ _ _ HT) as Hlen.
  pose proof (pow2_ge_1 (np.shape1 x)) as Hge.
  assert (Hne : T <> []) by (intros ->; simpl in Hlen; lia).
  split.
  - intros Ha. apply (percentile_nonneg T (100 * (1 - alpha))).
    + exact Hne.
    + eapply primary_pdf_paired, HT.
    + lra.
    + exact Hc.
  - apply percentile_interp in Hc as [Hq ->].
    assert (HN : INR (length T - 1) = 2 ^ np.shape1 x - 1).
    { rewrite Hlen, minus_INR, INR_pow2 by exact Hge. reflexivity. }
    replace (100 * (1 - alpha) / 100 * INR (length T - 1))
      with ((1 - alpha) * (2 ^ np.shape1 x - 1)) by (rewrite HN; field).
    set (h := (1 - alpha) * (2 ^ np.shape1 x - 1)).
    assert (Hh : 0 <= h <= INR (length (np.sort T) - 1)).
    { rewrite sort_length, HN. unfold h.
      pose proof (pow2_pos (np.shape1 x)) as Hp.
      assert (0 <= 2 ^ np.shape1 x - 1).
      { rewrite <- HN. apply pos_INR. }
      split; nra. }
    assert (Hs : Sorted Rle (np.sort T)) by apply sort_sorted.
    assert (Hne' : np.sort T <> []).
    { intros E. apply (f_equal (@length R)) in E.
      rewrite sort_length in E. simpl in E. lia. }
    destruct (interp_bounds _ h Hs Hne' Hh) as [Hlow _].
    pose proof (floor_le_index h _ Hh) as Hk.
    unfold count_le.
    rewrite (count_map_perm _ _ _ (sort_perm T)).
    apply (count_le_sorted (np.sort T) (np.floor h)); [exact Hs | | exact Hlow].
    rewrite sort_length in *. lia.
Qed.

Lemma count_le_T_ex_half : count_le (1/2) T_ex = 3%nat.
Proof. unfold count_le, T_ex, np.count. simpl. decide_R. reflexivity. Qed.

Lemma threshold_properties_witness :
  0 <= 1 / 2
  /\ (np.floor ((1 - 1 / 3) * (2 ^ np.shape1 x_ex - 1)) + 1
      <= count_le (1 / 2) T_ex)%nat.
Proof.
  destruct (threshold_properties x_ex mu_ex (1/3) T_ex (1/2)
              primary_ex tCrit_ex_third) as [H1 H2].
  split; [apply H1; lra | exact H2].
Defined.

Lemma tCrit_ex_one : critical_threshold x_ex mu_ex 1 = Ok (-2).
Proof.
  unfold critical_threshold. rewrite primary_ex. cbn [bind].
  rewrite (percentile_split T_ex _ 0 0).
  - rewrite sort_T_ex. simpl. f_equal. lra.
  - lra.
  - simpl. lra.
  - lra.
Qed.

Lemma tCrit_ex_eighth : critical_threshold x_ex mu_ex (1/8) = Ok (23/16).
Proof.
  unfold critical_threshold. rewrite primary_ex. cbn [bind].
  rewrite (percentile_split T_ex _ 2 (5/8)).
  - rewrite sort_T_ex. simpl. f_equal. lra.
  - lra.
  - simpl. lra.
  - lra.
Qed.

Lemma count_le_T_ex_eighth : count_le (23/16) T_ex = 3%nat.
Proof. unfold count_le, T_ex, np.count. simpl. decide_R. reflexivity. Qed.

Lemma ceil_ex : ceil ((1 - 1 / 8) * 2 ^ np.shape1 x_ex) = 4%nat.
Proof.
  unfold ceil. rewrite <- (Int_part_spec _ (-4)); [reflexivity|].
  simpl. lra.
Qed.

(** C8, as stated, fails: on the sample input [alpha = 1] gives the
    threshold -2; and [alpha = 1/8] gives the threshold 23/16, which 3 of
    the 4 members do not exceed, while [ceil((1 - 1/8) * 4) = 4]. *)
Lemma threshold_counterexample :
  ~ (forall x mu alpha tCrit,
       critical_threshold x mu alpha = Ok tCrit -> 0 <= tCrit)
  /\ ~ (forall x mu alpha T tCrit,
          primary_pdf x mu = Ok T ->
          critical_threshold x mu alpha = Ok tCrit ->
          (ceil ((1 - alpha) * 2 ^ np.shape1 x) <= count_le tCrit T)%nat).
Proof.
  split; intros H.
  - specialize (H _ _ _ _ tCrit_ex_one). lra.
  - specialize (H _ _ _ _ _ primary_ex tCrit_ex_eighth).
    rewrite ceil_ex, count_le_T_ex_eighth in H. lia.
Qed.
(** * Further properties of [ttest_nonparametric] *)

(** ** When the call returns *)

Lemma sub_bcast_Ok_shape a v y :
  np.sub_bcast a v = Ok y ->
  np.shape1 y
  = (if (length v =? np.shape1 a)%nat then np.shape1 a
     else if (length v =? 1)%nat then np.shape1 a else length v).
Proof.
  unfold np.sub_bcast.
  destruct (length v =? np.shape1 a)%nat;
    [|destruct (length v =? 1)%nat; [|destruct (np.shape1 a =? 1)%nat]];
    intros H; try discriminate; injection H as <-; reflexivity.
Qed.

Lemma primary_loop_empty_field y sqrtN LABELS T0 T :
  np.shape1 y = 0%nat -> LABELS <> [] ->
  primary_loop y sqrtN LABELS T0 <> Ok T.
Proof.
  intros Hm Hne. destruct LABELS as [|labels rest]; [contradiction|].
  simpl. pose proof (tperm_length y sqrtN labels) as Hlen.
  rewrite Hm in Hlen. apply length_zero_iff_nil in Hlen. rewrite Hlen.
  discriminate.
Qed.

Lemma product_nonempty {A : Type} (pool : list A) (n : nat) :
  pool <> [] -> itertools.product pool n <> [].
Proof.
  intros Hp H. apply (f_equal (@length _)) in H.
  rewrite product_length in H. simpl in H.
  destruct pool as [|a pool]; [contradiction|].
  assert (length (a :: pool) ^ n <> 0)%nat
    by (apply Nat.pow_nonzero; discriminate).
  contradiction.
Qed.

(** X1: the call returns exactly when the datum and the fields have
    the same non-zero length, or one of the two lengths is 1 and the other
    is not 0, and [alpha] lies between 0 and 1; in every other case it
    raises [ValueError]. *)
Theorem ttest_returns_iff x mu alpha :
  (exists r, ttest_nonparametric x mu alpha = Ok r)
  <-> (length mu = np.shape0 x \/ length mu = 1%nat \/ np.shape0 x = 1%nat)
      /\ (0 < np.shape0 x)%nat /\ (0 < length mu)%nat
      /\ 0 <= alpha <= 1.
Proof.
  split.
  - intros [r H]. unfold ttest_nonparametric in H.
    apply bind_Ok in H as [l [Hl _]].
    apply ttest_locals_Ok in Hl
      as [y [T [tCrit [M [Hy [HT [Hc [HM _]]]]]]]].
    assert (Hm : (0 < np.shape1 y)%nat).
    { destruct (np.shape1 y) eqn:E; [|lia]. exfalso.
      apply (primary_loop_empty_field _ _ _ _ _ E) in HT; [exact HT|].
      apply product_nonempty. discriminate. }
    apply percentile_interp in Hc as [Hq _].
    pose proof (sub_bcast_Ok_shape _ _ _ Hy) as Hs. simpl in Hs.
    assert (Hb : ~ (length mu <> np.shape0 x /\ length mu <> 1%nat
                    /\ np.shape0 x <> 1%nat)).
    { intros Hn. apply (sub_bcast_Raise (np.T x) mu ValueError) in Hn.
      rewrite Hy in Hn. discriminate. }
    destruct (Nat.eqb_spec (length mu) (np.shape0 x));
      [|destruct (Nat.eqb_spec (length mu) 1)].
    + repeat split; try lia; lra.
    + repeat split; try lia; lra.
    + repeat split; try lia; lra.
  - intros [Hb [Hm [Hk Ha]]].
    destruct (np.sub_bcast (np.T x) mu) as [y|e] eqn:Hy.
    + apply (ttest_returns x mu alpha y Hy); [|exact Ha].
      rewrite (sub_bcast_Ok_shape _ _ _ Hy). simpl.
      destruct (length mu =? np.shape0 x)%nat; [exact Hm|].
      destruct (length mu =? 1)%nat; [exact Hm | exact Hk].
    + apply sub_bcast_Raise in Hy. simpl in Hy. lia.
Qed.

Lemma ttest_returns_iff_witness :
  exists r, ttest_nonparametric x_ex mu_ex (1/3) = Ok r.
Proof.
  apply (proj2 (ttest_returns_iff x_ex mu_ex (1/3))).
  simpl. repeat split; try lia; try lra.
Defined.

(** ** The p-values and the threshold within their ranges *)

Lemma compute_p_PList t0 tCrit M p :
  compute_p t0 tCrit M = PList p ->
  let z := np.abs t0 in
  let L := fst (ndimage.label (np.gt z tCrit)) in
  let nC := snd (ndimage.label (np.gt z tCrit)) in
  (0 < nC)%nat
  /\ p = map (fun m => pymax2 (np.bmean (np.gt M m)) (1 / INR (length M)))
           (cluster_integrals z tCrit L nC).
Proof.
  unfold compute_p.
  destruct (ndimage.label (np.gt (np.abs t0) tCrit)) as [L nC]. simpl.
  destruct (Nat.ltb_spec 0 nC) as [HnC|HnC]; [|discriminate].
  intros H. injection H as <-. split; [exact HnC|].
  now rewrite map_map.
Qed.

Lemma count_gt_antitone (M : list R) (m1 m2 : R) :
  m1 <= m2 -> (count_gt m2 M <= count_gt m1 M)%nat.
Proof.
  intros Hm. induction M as [|a M IH].
  - unfold count_gt, np.count. simpl. lia.
  - rewrite !count_gt_cons.
    destruct (Rgt_dec a m2), (Rgt_dec a m1); try lia. lra.
Qed.

Lemma pvalue_le_1 (M : list R) (m : R) :
  M <> [] -> pymax2 (np.bmean (np.gt M m)) (1 / INR (length M)) <= 1.
Proof.
  intros Hne. rewrite pymax2_Rmax. unfold np.bmean. rewrite gt_length.
  assert (Hlen : (1 <= length M)%nat)
    by (destruct M; [contradiction | simpl; lia]).
  assert (Hpos : 1 <= INR (length M)) by (apply (le_INR 1), Hlen).
  pose proof (count_map_le_length
                (fun a => if Rgt_dec a m then true else false) M) as Hc.
  fold (np.gt M m) in Hc. apply le_INR in Hc.
  pose proof (pos_INR (np.count (np.gt M m))) as H0.
  assert (Hinv : 0 < / INR (length M)) by (apply Rinv_0_lt_compat; lra).
  apply Rmax_lub; unfold Rdiv.
  - apply (Rmult_le_reg_r (INR (length M))); [lra|].
    rewrite Rmult_assoc, Rinv_l by lra. lra.
  - apply (Rmult_le_reg_r (INR (length M))); [lra|].
    rewrite Rmult_assoc, Rinv_l by lra. lra.
Qed.

Lemma pvalue_antitone (M : list R) (m1 m2 : R) :
  m1 <= m2 ->
  pymax2 (np.bmean (np.gt M m2)) (1 / INR (length M))
  <= pymax2 (np.bmean (np.gt M m1)) (1 / INR (length M)).
Proof.
  intros Hm. rewrite !pymax2_Rmax. unfold np.bmean. rewrite !gt_length.
  pose proof (count_gt_antitone M _ _ Hm) as Hc. unfold count_gt in Hc.
  apply le_INR in Hc.
  assert (Hinv : 0 <= / INR (length M)).
  { destruct M as [|a M].
    - simpl. rewrite Rinv_0. lra.
    - left. apply Rinv_0_lt_compat. apply lt_0_INR. simpl. lia. }
  apply Rle_max_compat_r. unfold Rdiv.
  apply Rmult_le_compat_r; assumption.
Qed.

(** X2: no p-value exceeds 1, and of two clusters of the unpermuted
    field the one with the larger integral never has the larger
    p-value. *)
Theorem pvalues_bounded_antitone x mu alpha l p :
  ttest_locals x mu alpha = Ok l ->
  l_p l = PList p ->
  let z := np.abs (l_t0 l) in
  let L := fst (ndimage.label (np.gt z (l_tCrit l))) in
  let m0 := fun k => cluster_integral z (l_tCrit l) (np.eq L (k + 1)) in
  Forall (fun v => v <= 1) p
  /\ forall k1 k2, (k1 < length p)%nat -> (k2 < length p)%nat ->
       m0 k1 <= m0 k2 -> nth k2 p 0 <= nth k1 p 0.
Proof.
  intros H Hp z L m0.
  pose proof (secondary_length _ _ _ _ H) as HlenM.
  assert (HM : l_M l <> []).
  { intros E. rewrite E in HlenM. simpl in HlenM.
    pose proof (pow2_ge_1 (np.shape1 x)). lia. }
  apply ttest_locals_Ok in H
    as [y [T [tCrit [M [Hy [HT [Hc [HM' ->]]]]]]]].
  cbn [l_p l_M l_t0 l_tCrit] in *.
  apply compute_p_PList in Hp as [HnC ->]. fold z. fold L.
  set (nC := snd (ndimage.label (np.gt z tCrit))) in *.
  split.
  - apply Forall_map, Forall_forall. intros m _. now apply pvalue_le_1.
  - intros k1 k2. unfold cluster_integrals.
    rewrite !length_map, length_seq, map_map. intros H1 H2 Hm.
    rewrite !nth_map_seq by assumption. now apply pvalue_antitone.
Qed.

Lemma pvalues_bounded_antitone_witness :
  Forall (fun v => v <= 1) [1/4].
Proof.
  exact (proj1 (pvalues_bounded_antitone x_ex mu_ex (1/3) locals_ex_third
                  [1/4] ttest_locals_ex_third eq_refl)).
Defined.

Lemma sorted_last_max (s : list R) :
  Sorted Rle s -> Forall (fun v => v <= nth (length s - 1) s 0) s.
Proof.
  intros Hs. apply Forall_forall. intros v Hv.
  destruct (In_nth s v 0 Hv) as [i [Hi <-]].
  apply sorted_nth_le; [exact Hs | lia | lia].
Qed.

Lemma sorted_first_min (s : list R) :
  Sorted Rle s -> Forall (fun v => nth 0 s 0 <= v) s.
Proof.
  intros Hs. apply Forall_forall. intros v Hv.
  destruct (In_nth s v 0 Hv) as [i [Hi <-]].
  apply sorted_nth_le; [exact Hs | lia | lia].
Qed.

Lemma Forall_perm_sort (P : R -> Prop) (T : list R) :
  Forall P (np.sort T) -> Forall P T.
Proof.
  intros H. eapply Permutation_Forall; [|exact H].
  apply Permutation_sym, sort_perm.
Qed.

Lemma In_sort (T : list R) (v : R) : In v (np.sort T) -> In v T.
Proof. apply Permutation_in, Permutation_sym, sort_perm. Qed.

(** At [alpha = 0] the percentile is the largest member. *)
Lemma percentile_100_max (T : list R) (v : R) :
  T <> [] ->
  np.percentile T (100 * (1 - 0)) = Ok v ->
  In v T /\ Forall (fun a => a <= v) T.
Proof.
  intros Hne Hc.
  assert (Hsl : length (np.sort T) = length T) by apply sort_length.
  assert (Hlen : (0 < length T)%nat)
    by (destruct T; [contradiction | simpl; lia]).
  rewrite (percentile_split T _ (length T - 1) 0) in Hc;
    [|lra | lra | lra].
  injection Hc as <-.
  replace (nth (length T - 1) (np.sort T) 0 * (1 - 0)
           + nth (Nat.min (length T - 1 + 1) (length T - 1)) (np.sort T) 0
             * 0)
    with (nth (length (np.sort T) - 1) (np.sort T) 0)
    by (rewrite Hsl; ring).
  split.
  - apply In_sort, nth_In. lia.
  - apply Forall_perm_sort, sorted_last_max, sort_sorted.
Qed.

(** X3: the critical threshold lies between two members of the
    primary distribution; at [alpha = 0] it is the largest member and at
    [alpha = 1] the smallest. *)
Theorem threshold_range x mu alpha T tCrit :
  primary_pdf x mu = Ok T ->
  critical_threshold x mu alpha = Ok tCrit ->
  (exists a b, In a T /\ In b T /\ a <= tCrit <= b)
  /\ (alpha = 0 -> In tCrit T /\ Forall (fun v => v <= tCrit) T)
  /\ (alpha = 1 -> In tCrit T /\ Forall (fun v => tCrit <= v) T).
Proof.
  intros HT Hc. unfold critical_threshold in Hc. rewrite HT in Hc.
  cbn [bind] in Hc.
  pose proof (primary_pdf_length _ _ _ HT) as Hlen.
  pose proof (pow2_ge_1 (np.shape1 x)) as Hge.
  assert (Hs : Sorted Rle (np.sort T)) by apply sort_sorted.
  assert (Hsl : length (np.sort T) = length T) by apply sort_length.
  assert (Hne : np.sort T <> []).
  { intros E. rewrite E in Hsl. simpl in Hsl. lia. }
  assert (Hzero : forall a b, a * (1 - 0) + b * 0 = a) by (intros; ring).
  split; [|split].
  - apply percentile_interp in Hc as [Hq ->].
    set (h := 100 * (1 - alpha) / 100 * INR (length T - 1)).
    assert (Hn : 0 <= INR (length T - 1)) by apply pos_INR.
    assert (Hh : 0 <= h <= INR (length (np.sort T) - 1)).
    { rewrite Hsl. unfold h. split; nra. }
    destruct (interp_bounds _ h Hs Hne Hh) as [Hlow Hup].
    pose proof (floor_le_index h _ Hh) as Hk.
    eexists. eexists. split; [|split; [|split; [exact Hlow | exact Hup]]].
    + apply In_sort, nth_In. lia.
    + apply In_sort, nth_In. lia.
  - intros ->. apply percentile_100_max; [|exact Hc].
    intros E. rewrite E in Hlen. simpl in Hlen. lia.
  - intros ->.
    rewrite (percentile_split T _ 0 0) in Hc; [|lra | simpl; lra | lra].
    injection Hc as <-. rewrite Hzero.
    split.
    + apply In_sort, nth_In. lia.
    + apply Forall_perm_sort, sorted_first_min, Hs.
Qed.

Lemma threshold_range_witness :
  In 2 T_ex /\ Forall (fun v => v <= 2) T_ex.
Proof.
  exact (proj1 (proj2 (threshold_range x_ex mu_ex 0 T_ex 2
                         primary_ex tCrit_ex_zero)) eq_refl).
Defined.

(** ** Rescaled and reflected observations *)

Lemma sum_map_scale (k : R) (l : list R) :
  np.sum (map (Rmult k) l) = k * np.sum l.
Proof.
  induction l as [|a l IH]; simpl.
  - rewrite sum_nil. ring.
  - rewrite !sum_cons, IH. ring.
Qed.

Lemma tstat_column_scale (k : R) (c : list R) (n : nat) (sqrtN : R) :
  k <> 0 ->
  tstat_column (map (Rmult k) c) n sqrtN
  = k / Rabs k * tstat_column c n sqrtN.
Proof.
  intros Hk. unfold tstat_column. cbv zeta.
  rewrite sum_map_scale, map_map.
  set (m := np.sum c / INR n).
  replace (map (fun v => (k * v - k * np.sum c / INR n)
                         * (k * v - k * np.sum c / INR n)) c)
    with (map (Rmult (k * k)) (map (fun v => (v - m) * (v - m)) c))
    by (rewrite map_map; apply map_ext; intros v; unfold m, Rdiv; ring).
  rewrite sum_map_scale.
  set (S := np.sum (map (fun v => (v - m) * (v - m)) c)).
  replace (k * k * S / INR (n - 1)) with ((k * k) * (S / INR (n - 1)))
    by (unfold Rdiv; ring).
  rewrite sqrt_mult_alt by nra.
  replace (sqrt (k * k)) with (Rabs k)
    by (symmetry; apply sqrt_Rsqr_abs).
  unfold Rdiv. rewrite Rinv_mult. fold m. unfold m, Rdiv. ring.
Qed.

Lemma column_scaled k y y' j :
  scaled k y y' -> (j < np.shape1 y)%nat ->
  np.column y' j = map (Rmult k) (np.column y j).
Proof.
  intros [H0 [H1 Hi]] Hj. unfold np.column. rewrite H0, map_map.
  apply map_ext_in. intros i Hin. apply in_seq in Hin. apply Hi; lia.
Qed.

Lemma tfield_scaled k y y' sqrtN :
  scaled k y y' -> k <> 0 ->
  tfield y' sqrtN = map (Rmult (k / Rabs k)) (tfield y sqrtN).
Proof.
  intros Hs Hk. rewrite !tfield_eq, map_map.
  destruct Hs as [H0 [H1 Hi]]. rewrite H1, H0.
  apply map_ext_in. intros j Hin. apply in_seq in Hin.
  rewrite (column_scaled k y y') by (repeat split; auto; lia).
  now apply tstat_column_scale.
Qed.

Lemma mul_rows_scaled k y y' s :
  scaled k y y' -> scaled k (np.mul_rows y s) (np.mul_rows y' s).
Proof.
  intros [H0 [H1 Hi]]. repeat split; simpl; auto.
  intros i j Hi' Hj'. rewrite Hi by assumption. ring.
Qed.

Lemma tperm_scaled k y y' sqrtN labels :
  scaled k y y' -> k <> 0 ->
  tperm y' sqrtN labels = map (Rmult (k / Rabs k)) (tperm y sqrtN labels).
Proof.
  intros Hs Hk. unfold tperm. apply tfield_scaled; [|exact Hk].
  now apply mul_rows_scaled.
Qed.

Lemma map_Rmult_1 (l : list R) : map (Rmult 1) l = l.
Proof.
  rewrite <- (map_id l) at 2. apply map_ext. intros v. ring.
Qed.

Lemma map_Rmult_m1 (l : list R) : map (Rmult (-1)) l = map Ropp l.
Proof. apply map_ext. intros v. ring. Qed.

Lemma sign_pos (k : R) : 0 < k -> k / Rabs k = 1.
Proof. intros Hk. rewrite Rabs_right by lra. field. lra. Qed.

Lemma sign_neg (k : R) : k < 0 -> k / Rabs k = -1.
Proof. intros Hk. rewrite Rabs_left by lra. field. lra. Qed.

Lemma primary_loop_ext y y' sqrtN LABELS T0 :
  (forall labels, tperm y' sqrtN labels = tperm y sqrtN labels) ->
  primary_loop y' sqrtN LABELS T0 = primary_loop y sqrtN LABELS T0.
Proof.
  intros H. revert T0. induction LABELS as [|labels rest IH]; intros T0.
  - reflexivity.
  - simpl. rewrite H. destruct (np.amax (tperm y sqrtN labels)); simpl.
    + apply IH.
    + reflexivity.
Qed.

Lemma secondary_loop_ext y y' sqrtN tCrit LABELS M0 :
  (forall labels,
      max_cluster_integral (tperm y' sqrtN labels) tCrit
      = max_cluster_integral (tperm y sqrtN labels) tCrit) ->
  secondary_loop y' sqrtN tCrit LABELS M0
  = secondary_loop y sqrtN tCrit LABELS M0.
Proof.
  intros H. revert M0. induction LABELS as [|labels rest IH]; intros M0.
  - reflexivity.
  - simpl. rewrite H.
    destruct (max_cluster_integral (tperm y sqrtN labels) tCrit); simpl.
    + apply IH.
    + reflexivity.
Qed.

(** X4: the result does not depend on the unit of measurement: when
    the differences between observations and datum are all multiplied by
    the same positive factor, the statistic field, the threshold and the
    p-values (or the exception) are the same. *)
Theorem ttest_scale_invariant x mu x' mu' alpha y y' k :
  np.sub_bcast (np.T x) mu = Ok y ->
  np.sub_bcast (np.T x') mu' = Ok y' ->
  scaled k y y' ->
  0 < k ->
  ttest_nonparametric x' mu' alpha = ttest_nonparametric x mu alpha.
Proof.
  intros Hy Hy' Hs Hk.
  assert (Ht : forall s labels, tperm y' s labels = tperm y s labels).
  { intros s labels.
    rewrite (tperm_scaled k y y') by (auto; lra).
    rewrite sign_pos by exact Hk. apply map_Rmult_1. }
  assert (Hf : forall s, tfield y' s = tfield y s).
  { intros s. rewrite (tfield_scaled k y y') by (auto; lra).
    rewrite sign_pos by exact Hk. apply map_Rmult_1. }
  unfold ttest_nonparametric, ttest_locals. rewrite Hy, Hy'. cbn [bind].
  destruct Hs as [H0 _]. rewrite H0.
  rewrite (primary_loop_ext y y') by apply Ht.
  destruct (primary_loop y _ _ []) as [T|e]; [|reflexivity]. cbn [bind].
  destruct (np.percentile T _) as [tc|e]; [|reflexivity]. cbn [bind].
  rewrite (secondary_loop_ext y y') by (intros; now rewrite Ht).
  destruct (secondary_loop y _ _ _ []) as [M|e]; [|reflexivity].
  cbn [bind l_t0 l_tCrit l_p]. now rewrite Hf.
Qed.

Lemma ttest_scale_invariant_witness :
  ttest_nonparametric x_ex_twice mu_ex (1/3)
  = ttest_nonparametric x_ex mu_ex (1/3).
Proof.
  apply (ttest_scale_invariant x_ex mu_ex x_ex_twice mu_ex (1/3) y_ex
           (np.mk2 2 1
              (fun i j => np.item (np.T x_ex_twice) i j - nth j mu_ex 0)) 2).
  - reflexivity.
  - reflexivity.
  - repeat split; try reflexivity.
    intros [|[|i]] [|j] Hi Hj; simpl in *; try lia; lra.
  - lra.
Defined.

Lemma sorted_perm_eq (a b : list R) :
  Sorted Rle a -> Sorted Rle b -> Permutation a b -> a = b.
Proof.
  intros Ha Hb. apply strongly_sorted in Ha. apply strongly_sorted in Hb.
  revert b Hb. induction Ha as [|x a Ha IH Hx]; intros b Hb Hp.
  - apply Permutation_nil in Hp. now subst.
  - destruct Hb as [|z b Hb Hz].
    + apply Permutation_sym, Permutation_nil in Hp. discriminate.
    + assert (Hxz : x = z).
      { assert (Hin1 : In x (z :: b))
          by (eapply Permutation_in; [exact Hp | now left]).
        assert (Hin2 : In z (x :: a))
          by (eapply Permutation_in;
              [apply Permutation_sym, Hp | now left]).
        rewrite Forall_forall in Hx, Hz.
        destruct Hin1 as [E|Hin1]; [now subst|].
        destruct Hin2 as [E|Hin2]; [now subst|].
        apply Hz in Hin1. apply Hx in Hin2. lra. }
      subst z. f_equal. apply IH; [exact Hb|].
      eapply Permutation_cons_inv, Hp.
Qed.

Lemma sort_perm_eq (a b : list R) :
  Permutation a b -> np.sort a = np.sort b.
Proof.
  intros Hp. apply sorted_perm_eq; try apply sort_sorted.
  eapply perm_trans; [apply Permutation_sym, sort_perm|].
  eapply perm_trans; [exact Hp | apply sort_perm].
Qed.

(** The percentile depends on the members of the array only. *)
Lemma percentile_perm (a b : list R) (q : R) :
  Permutation a b -> np.percentile a q = np.percentile b q.
Proof.
  intros Hp. unfold np.percentile.
  now rewrite (sort_perm_eq a b Hp), (Permutation_length Hp).
Qed.

Lemma abs_map_opp (t : list R) : np.abs (map Ropp t) = np.abs t.
Proof.
  unfold np.abs. rewrite map_map. apply map_ext. intros v. apply Rabs_Ropp.
Qed.

Lemma max_cluster_integral_opp (t : list R) (tCrit : R) :
  max_cluster_integral (map Ropp t) tCrit = max_cluster_integral t tCrit.
Proof. unfold max_cluster_integral. now rewrite abs_map_opp. Qed.

Lemma compute_p_opp (t0 : list R) (tCrit : R) (M : list R) :
  compute_p (map Ropp t0) tCrit M = compute_p t0 tCrit M.
Proof. unfold compute_p. now rewrite abs_map_opp. Qed.

Lemma primary_loop_rev y sqrtN LABELS T :
  primary_loop y sqrtN LABELS [] = Ok T ->
  primary_loop y sqrtN (rev LABELS) [] = Ok (rev T).
Proof.
  intros H. apply primary_loop_spec in H as [ms [-> Hms]]. simpl.
  apply primary_loop_spec. exists (rev ms). split; [reflexivity|].
  now apply Forall2_rev_both.
Qed.

Lemma primary_loop_reflected y y' sqrtN LABELS T0 :
  (forall labels, tperm y' sqrtN labels = tperm y sqrtN (complement labels)) ->
  primary_loop y' sqrtN LABELS T0
  = primary_loop y sqrtN (map complement LABELS) T0.
Proof.
  intros H. revert T0. induction LABELS as [|labels rest IH]; intros T0.
  - reflexivity.
  - simpl. rewrite H.
    destruct (np.amax (tperm y sqrtN (complement labels))); simpl.
    + apply IH.
    + reflexivity.
Qed.

(** X5: the test is two-sided: when the differences between
    observations and datum are all multiplied by the same negative factor
    (for instance reflected about the datum), the statistic field changes
    sign and the threshold and the p-values stay the same. *)
Theorem ttest_reflected x mu x' mu' alpha y y' k t0 tCrit p :
  np.sub_bcast (np.T x) mu = Ok y ->
  np.sub_bcast (np.T x') mu' = Ok y' ->
  scaled k y y' ->
  k < 0 ->
  ttest_nonparametric x mu alpha = Ok (t0, tCrit, p) ->
  ttest_nonparametric x' mu' alpha = Ok (map Ropp t0, tCrit, p).
Proof.
  intros Hy Hy' Hs Hk H.
  assert (Ht : forall s labels,
             tperm y' s labels = map Ropp (tperm y s labels)).
  { intros s labels.
    rewrite (tperm_scaled k y y') by (auto; lra).
    rewrite sign_neg by exact Hk. apply map_Rmult_m1. }
  assert (Hf : forall s, tfield y' s = map Ropp (tfield y s)).
  { intros s. rewrite (tfield_scaled k y y') by (auto; lra).
    rewrite sign_neg by exact Hk. apply map_Rmult_m1. }
  unfold ttest_nonparametric in *.
  apply bind_Ok in H as [l [Hl H]]. injection H as <- <- <-.
  apply ttest_locals_Ok in Hl
    as [y0 [T [tc [M [Hy0 [HT [Hc [HM ->]]]]]]]].
  rewrite Hy in Hy0. injection Hy0 as <-. cbn [l_t0 l_tCrit l_p].
  destruct Hs as [H0 _].
  apply bind_Ok. eexists. split.
  - apply ttest_locals_Ok. exists y', (rev T), tc, M. rewrite H0.
    split; [exact Hy'|]. split; [|split; [|split; [|reflexivity]]].
    + rewrite (primary_loop_reflected y y')
        by (intros; now rewrite Ht, tperm_complement).
      rewrite <- product_rev. now apply primary_loop_rev.
    + rewrite <- (percentile_perm T (rev T)) by apply Permutation_rev.
      exact Hc.
    + rewrite (secondary_loop_ext y y')
        by (intros; now rewrite Ht, max_cluster_integral_opp).
      exact HM.
  - cbn [l_t0 l_tCrit l_p]. now rewrite Hf, compute_p_opp.
Qed.

Lemma ttest_reflected_witness :
  ttest_nonparametric x_ex_neg mu_ex (1/3)
  = Ok (map Ropp [2], 1/2, PList [1/4]).
Proof.
  apply (ttest_reflected x_ex mu_ex x_ex_neg mu_ex (1/3) y_ex
           (np.mk2 2 1
              (fun i j => np.item (np.T x_ex_neg) i j - nth j mu_ex 0))
           (-1)).
  - reflexivity.
  - reflexivity.
  - repeat split; try reflexivity.
    intros [|[|i]] [|j] Hi Hj; simpl in *; try lia; lra.
  - lra.
  - exact ttest_ex_third.
Defined.

(** ** The unpermuted labelling *)

Lemma product_head (n : nat) :
  exists rest, itertools.product [0%Z; 1%Z] n = repeat 0%Z n :: rest.
Proof.
  induction n as [|n [rest IH]].
  - now exists [].
  - rewrite product_S, IH. unfold itertools.step. simpl.
    rewrite <- repeat_cons. eexists. reflexivity.
Qed.

Lemma nth_repeat_in {A : Type} (a d : A) (n i : nat) :
  (i < n)%nat -> nth i (repeat a n) d = a.
Proof.
  revert i. induction n as [|n IH]; intros [|i] Hi; simpl; try lia.
  - reflexivity.
  - apply IH. lia.
Qed.

Lemma tperm_zeros y sqrtN :
  tperm y sqrtN (repeat 0%Z (np.shape0 y)) = tfield y sqrtN.
Proof.
  unfold tperm. rewrite signs_of_zeros.
  rewrite (tfield_scaled 1 y).
  - rewrite sign_pos by lra. apply map_Rmult_1.
  - repeat split; try reflexivity. intros i j Hi Hj. simpl.
    rewrite nth_repeat_in by exact Hi. ring.
  - lra.
Qed.

(** X6: the labelling enumerated first is the unpermuted one: the
    first member of the primary distribution is the maximum of the
    statistic field that is returned, and the first member of the
    secondary distribution is its largest cluster integral. *)
Theorem unpermuted_first x mu alpha l :
  ttest_locals x mu alpha = Ok l ->
  np.amax (l_t0 l) = Ok (nth 0 (l_T l) 0)
  /\ max_cluster_integral (l_t0 l) (l_tCrit l) = Ok (nth 0 (l_M l) 0).
Proof.
  intros H. apply ttest_locals_Ok in H
    as [y [T [tCrit [M [Hy [HT [Hc [HM ->]]]]]]]]. simpl.
  destruct (product_head (np.shape0 y)) as [rest HL].
  apply primary_loop_spec in HT as [ms [-> Hms]].
  apply secondary_loop_spec in HM as [ms' [-> Hms']]. simpl.
  rewrite HL in Hms, Hms'.
  inversion Hms as [|? tm ? ms1 Htm _]; subst.
  inversion Hms' as [|? m ? ms2 Hm _]; subst. simpl.
  rewrite tperm_zeros in Htm, Hm. auto.
Qed.

Lemma unpermuted_first_witness :
  np.amax (l_t0 locals_ex_third) = Ok (nth 0 (l_T locals_ex_third) 0).
Proof.
  exact (proj1 (unpermuted_first x_ex mu_ex (1/3) locals_ex_third
                  ttest_locals_ex_third)).
Defined.

(** * [tensor2effective] *)

Lemma zip_with_map {A : Type} (f : R -> R -> R) (g h : A -> R)
  (l : list A) :
  np1.zip_with f (map g l) (map h l) = map (fun i => f (g i) (h i)) l.
Proof.
  unfold np1.zip_with. induction l as [|a l IH]; simpl.
  - reflexivity.
  - f_equal. exact IH.
Qed.

Lemma unpack_six {A B : Type} (l : list A) (F : A -> A -> A -> A -> A -> A -> B)
  (d : B) :
  length l <> 6%nat ->
  match l with
  | [x0; x1; x2; a; b; c] => F x0 x1 x2 a b c
  | _ => d
  end = d.
Proof.
  intros H.
  destruct l as [|x0 [|x1 [|x2 [|a [|b [|c [|e l]]]]]]]; try reflexivity.
  simpl in H. lia.
Qed.

Lemma rows_T_length Y : length (np1.rows (np.T Y)) = np.shape1 Y.
Proof. unfold np1.rows. simpl. now rewrite length_map, length_seq. Qed.

(** With six columns the result is computed element by element. *)
Lemma tensor2effective_six Y :
  np.shape1 Y = 6%nat ->
  tensor2effective Y
  = Ok (map (fun i =>
               effective_value (np.item Y i 0) (np.item Y i 1)
                 (np.item Y i 2) (np.item Y i 3) (np.item Y i 4)
                 (np.item Y i 5))
          (seq 0 (np.shape0 Y))).
Proof.
  intros H6. unfold tensor2effective, np1.rows.
  cbn [np.T np.shape0 np.shape1 np.item]. rewrite H6.
  cbn [seq map].
  unfold np1.add, np1.sub, np1.mul, np1.square, np1.scale, np1.sqrt.
  repeat (rewrite ?zip_with_map, ?map_map).
  reflexivity.
Qed.

Lemma effective_value_nonneg x0 x1 x2 a b c :
  0 <= effective_value x0 x1 x2 a b c.
Proof. apply sqrt_pos. Qed.

Lemma effective_radicand_nonneg x0 x1 x2 a b c :
  0 <= 0.5 * ((x0 - x1) ^ 2 + (x0 - x2) ^ 2 + (x1 - x2) ^ 2
              + 6 * (a * a + b * b + c * c)).
Proof.
  pose proof (pow2_ge_0 (x0 - x1)). pose proof (pow2_ge_0 (x0 - x2)).
  pose proof (pow2_ge_0 (x1 - x2)). nra.
Qed.

Lemma tensor2effective_not_six Y :
  np.shape1 Y <> 6%nat -> tensor2effective Y = Raise ValueError.
Proof.
  intros H6. unfold tensor2effective. apply unpack_six.
  now rewrite rows_T_length.
Qed.

(** X7: [tensor2effective] returns exactly when its argument has six
    columns and raises [ValueError] otherwise; the result has one value
    per row, none negative: the square root of half of
    [(x0-x1)^2 + (x0-x2)^2 + (x1-x2)^2 + 6(a^2 + b^2 + c^2)]. *)
Theorem tensor2effective_shape Y :
  (np.shape1 Y = 6%nat ->
   exists r,
     tensor2effective Y = Ok r
     /\ length r = np.shape0 Y
     /\ Forall (fun v => 0 <= v) r
     /\ forall i, (i < np.shape0 Y)%nat ->
          nth i r 0
          = effective_value (np.item Y i 0) (np.item Y i 1) (np.item Y i 2)
              (np.item Y i 3) (np.item Y i 4) (np.item Y i 5))
  /\ (np.shape1 Y <> 6%nat -> tensor2effective Y = Raise ValueError).
Proof.
  split.
  - intros H6. eexists. split; [apply tensor2effective_six, H6|].
    split; [now rewrite length_map, length_seq|]. split.
    + apply Forall_map, Forall_forall. intros i _.
      apply effective_value_nonneg.
    + intros i Hi. now rewrite nth_map_seq.
  - apply tensor2effective_not_six.
Qed.

Lemma tensor2effective_shape_witness :
  tensor2effective (np.array2 1 5 [[1; 2; 3; 4; 5]]) = Raise ValueError
  /\ exists r, tensor2effective (np.array2 1 6 [[1; 0; 0; 0; 0; 0]]) = Ok r.
Proof.
  split.
  - apply (proj2 (tensor2effective_shape (np.array2 1 5 [[1; 2; 3; 4; 5]]))).
    simpl. lia.
  - destruct (proj1 (tensor2effective_shape
                       (np.array2 1 6 [[1; 0; 0; 0; 0; 0]])) eq_refl)
      as [r [Hr _]].
    now exists r.
Defined.

Lemma tensor2effective_ext Y Y' :
  np.shape0 Y' = np.shape0 Y ->
  np.shape1 Y = 6%nat -> np.shape1 Y' = 6%nat ->
  (forall i, (i < np.shape0 Y)%nat ->
     effective_value (np.item Y' i 0) (np.item Y' i 1) (np.item Y' i 2)
       (np.item Y' i 3) (np.item Y' i 4) (np.item Y' i 5)
     = effective_value (np.item Y i 0) (np.item Y i 1) (np.item Y i 2)
         (np.item Y i 3) (np.item Y i 4) (np.item Y i 5)) ->
  tensor2effective Y' = tensor2effective Y.
Proof.
  intros H0 H6 H6' He. rewrite !tensor2effective_six by assumption.
  rewrite H0. f_equal. apply map_ext_in. intros i Hi. apply in_seq in Hi.
  apply He. lia.
Qed.

(** X8: the value is blind to hydrostatic loading: adding to the
    three normal components of each row one and the same number (which
    may differ from row to row) does not change the result. *)
Theorem tensor2effective_hydrostatic Y Y' (p : nat -> R) :
  np.shape0 Y' = np.shape0 Y ->
  np.shape1 Y = 6%nat -> np.shape1 Y' = 6%nat ->
  (forall i j, (i < np.shape0 Y)%nat -> (j < 3)%nat ->
     np.item Y' i j = np.item Y i j + p i) ->
  (forall i j, (i < np.shape0 Y)%nat -> (3 <= j < 6)%nat ->
     np.item Y' i j = np.item Y i j) ->
  tensor2effective Y' = tensor2effective Y.
Proof.
  intros H0 H6 H6' Hn Hs. apply tensor2effective_ext; try assumption.
  intros i Hi.
  rewrite !(Hn i) by (try exact Hi; lia).
  rewrite !(Hs i) by (try exact Hi; lia).
  unfold effective_value. f_equal. ring.
Qed.

Lemma tensor2effective_hydrostatic_witness :
  tensor2effective (np.array2 1 6 [[11; 12; 13; 4; 5; 6]])
  = tensor2effective (np.array2 1 6 [[1; 2; 3; 4; 5; 6]]).
Proof.
  apply (tensor2effective_hydrostatic _ _ (fun _ => 10));
    try reflexivity.
  - intros [|i] [|[|[|j]]] Hi Hj; simpl in *; try lia; lra.
  - intros [|i] [|[|[|[|[|[|j]]]]]] Hi Hj; simpl in *; try lia; lra.
Defined.

Lemma effective_value_scale k x0 x1 x2 a b c :
  effective_value (k * x0) (k * x1) (k * x2) (k * a) (k * b) (k * c)
  = Rabs k * effective_value x0 x1 x2 a b c.
Proof.
  unfold effective_value.
  replace (0.5 * ((k * x0 - k * x1) ^ 2 + (k * x0 - k * x2) ^ 2
                  + (k * x1 - k * x2) ^ 2
                  + 6 * (k * a * (k * a) + k * b * (k * b) + k * c * (k * c))))
    with ((k * k) * (0.5 * ((x0 - x1) ^ 2 + (x0 - x2) ^ 2 + (x1 - x2) ^ 2
                            + 6 * (a * a + b * b + c * c)))) by ring.
  rewrite sqrt_mult_alt by nra.
  now rewrite <- sqrt_Rsqr_abs.
Qed.

(** X9: multiplying every component by [k] multiplies every value by
    [|k|]. *)
Theorem tensor2effective_homogeneous Y Y' (k : R) r :
  np.shape0 Y' = np.shape0 Y ->
  np.shape1 Y = 6%nat -> np.shape1 Y' = 6%nat ->
  (forall i j, (i < np.shape0 Y)%nat -> (j < 6)%nat ->
     np.item Y' i j = k * np.item Y i j) ->
  tensor2effective Y = Ok r ->
  tensor2effective Y' = Ok (map (Rmult (Rabs k)) r).
Proof.
  intros H0 H6 H6' Hk Hr.
  rewrite tensor2effective_six in Hr by exact H6. injection Hr as <-.
  rewrite tensor2effective_six by exact H6'. rewrite H0, map_map.
  f_equal. apply map_ext_in. intros i Hi. apply in_seq in Hi.
  rewrite !(Hk i) by lia. apply effective_value_scale.
Qed.

Lemma tensor2effective_homogeneous_witness :
  tensor2effective (np.array2 1 6 [[-2; -4; -6; -8; -10; -12]])
  = Ok (map (Rmult (Rabs (-2)))
          [effective_value 1 2 3 4 5 6]).
Proof.
  apply (tensor2effective_homogeneous
           (np.array2 1 6 [[1; 2; 3; 4; 5; 6]])
           (np.array2 1 6 [[-2; -4; -6; -8; -10; -12]]) (-2));
    try reflexivity.
  intros [|i] [|[|[|[|[|[|j]]]]]] Hi Hj; simpl in *; try lia; lra.
Defined.

Lemma tensor2effective_Ok_six Y r :
  tensor2effective Y = Ok r -> np.shape1 Y = 6%nat.
Proof.
  intros H. destruct (Nat.eq_dec (np.shape1 Y) 6) as [E|E]; [exact E|].
  apply tensor2effective_not_six in E. rewrite E in H. discriminate.
Qed.

Lemma tensor2effective_nth Y r i :
  tensor2effective Y = Ok r -> (i < np.shape0 Y)%nat ->
  nth i r 0
  = effective_value (np.item Y i 0) (np.item Y i 1) (np.item Y i 2)
      (np.item Y i 3) (np.item Y i 4) (np.item Y i 5).
Proof.
  intros H Hi. pose proof (tensor2effective_Ok_six _ _ H) as H6.
  rewrite tensor2effective_six in H by exact H6. injection H as <-.
  now rewrite nth_map_seq.
Qed.

Lemma effective_value_zero x0 x1 x2 a b c :
  effective_value x0 x1 x2 a b c = 0
  <-> x0 = x1 /\ x1 = x2 /\ a = 0 /\ b = 0 /\ c = 0.
Proof.
  unfold effective_value. split.
  - intros H. apply sqrt_eq_0 in H; [|apply effective_radicand_nonneg].
    pose proof (pow2_ge_0 (x0 - x1)). pose proof (pow2_ge_0 (x0 - x2)).
    pose proof (pow2_ge_0 (x1 - x2)).
    assert (Ha : 0 <= a * a) by nra. assert (Hb : 0 <= b * b) by nra.
    assert (Hc : 0 <= c * c) by nra.
    assert (E1 : (x0 - x1) ^ 2 = 0) by lra.
    assert (E2 : (x1 - x2) ^ 2 = 0) by lra.
    assert (Ea : a * a = 0) by lra. assert (Eb : b * b = 0) by lra.
    assert (Ec : c * c = 0) by lra.
    simpl in E1, E2. repeat split; nra.
  - intros [-> [-> [-> [-> ->]]]].
    replace (0.5 * ((x2 - x2) ^ 2 + (x2 - x2) ^ 2 + (x2 - x2) ^ 2
                    + 6 * (0 * 0 + 0 * 0 + 0 * 0))) with 0 by ring.
    apply sqrt_0.
Qed.

(** X10: the value of an element is zero exactly when its three
    normal components are equal and its three shear components are
    zero. *)
Theorem tensor2effective_zero Y r i :
  tensor2effective Y = Ok r ->
  (i < np.shape0 Y)%nat ->
  nth i r 0 = 0
  <-> np.item Y i 0 = np.item Y i 1 /\ np.item Y i 1 = np.item Y i 2
      /\ np.item Y i 3 = 0 /\ np.item Y i 4 = 0 /\ np.item Y i 5 = 0.
Proof.
  intros H Hi. rewrite (tensor2effective_nth _ _ _ H Hi).
  apply effective_value_zero.
Qed.

Lemma tensor2effective_zero_witness :
  nth 0 [effective_value 7 7 7 0 0 0] 0 = 0.
Proof.
  apply (tensor2effective_zero (np.array2 1 6 [[7; 7; 7; 0; 0; 0]])
           [effective_value 7 7 7 0 0 0] 0).
  - now apply tensor2effective_six.
  - simpl. lia.
  - simpl. repeat split; reflexivity.
Defined.

(** X11: for an element loaded along one axis only (one of the three
    normal components, the others and the shears zero) the value is the
    magnitude of that component; for an element with a single shear
    component (one of the three, every other component zero) it is
    [sqrt 3] times its magnitude.  Column [c] holds the only component
    that may differ from zero: columns 0, 1 and 2 are the axes, columns
    3, 4 and 5 the shears. *)
Theorem tensor2effective_uniaxial_shear Y r i (c : nat) (v : R) :
  tensor2effective Y = Ok r ->
  (i < np.shape0 Y)%nat ->
  (c < 6)%nat ->
  np.item Y i c = v ->
  (forall j, (j < 6)%nat -> j <> c -> np.item Y i j = 0) ->
  nth i r 0 = if (c <? 3)%nat then Rabs v else sqrt 3 * Rabs v.
Proof.
  intros H Hi Hc Hv H0. rewrite (tensor2effective_nth _ _ _ H Hi).
  assert (E : forall j, (j < 6)%nat ->
                np.item Y i j = if (j =? c)%nat then v else 0).
  { intros j Hj. destruct (Nat.eqb_spec j c) as [->|Hne];
      [exact Hv | now apply H0]. }
  rewrite (E 0%nat), (E 1%nat), (E 2%nat), (E 3%nat), (E 4%nat), (E 5%nat)
    by lia.
  clear E Hv H0 H Hi. unfold effective_value.
  do 6 (destruct c as [|c];
        [cbn [Nat.eqb Nat.ltb Nat.leb];
         match goal with
         | |- sqrt ?e = Rabs v =>
             replace e with (Rsqr v) by (unfold Rsqr; simpl; nra);
             apply sqrt_Rsqr_abs
         | |- sqrt ?e = sqrt 3 * Rabs v =>
             replace e with (3 * Rsqr v) by (unfold Rsqr; simpl; nra);
             rewrite sqrt_mult_alt by lra; now rewrite sqrt_Rsqr_abs
         end|]).
  lia.
Qed.

Lemma tensor2effective_uniaxial_shear_witness :
  nth 0 [effective_value 0 (-5) 0 0 0 0; effective_value 0 0 0 0 0 4] 0
  = Rabs (-5)
  /\ nth 1 [effective_value 0 (-5) 0 0 0 0; effective_value 0 0 0 0 0 4] 0
     = sqrt 3 * Rabs 4.
Proof.
  split.
  - apply (tensor2effective_uniaxial_shear
             (np.array2 2 6 [[0; -5; 0; 0; 0; 0]; [0; 0; 0; 0; 0; 4]])
             [effective_value 0 (-5) 0 0 0 0; effective_value 0 0 0 0 0 4]
             0 1 (-5)).
    + now apply tensor2effective_six.
    + simpl. lia.
    + lia.
    + reflexivity.
    + intros j Hj Hne.
      do 6 (destruct j as [|j]; [reflexivity || contradiction|]). lia.
  - apply (tensor2effective_uniaxial_shear
             (np.array2 2 6 [[0; -5; 0; 0; 0; 0]; [0; 0; 0; 0; 0; 4]])
             [effective_value 0 (-5) 0 0 0 0; effective_value 0 0 0 0 0 4]
             1 5 4).
    + now apply tensor2effective_six.
    + simpl. lia.
    + lia.
    + reflexivity.
    + intros j Hj Hne.
      do 6 (destruct j as [|j]; [reflexivity || contradiction|]). lia.
Defined.

(** X12: the two fields computed by [simulate] from the parsed log
    exist exactly when the log has twelve columns (six strain and six
    stress components); any other number makes the call raise
    [ValueError]. *)
Theorem effective_fields_returns A :
  (np.shape1 A = 12%nat ->
   exists strain stress,
     effective_fields A = Ok (strain, stress)
     /\ length strain = np.shape0 A /\ length stress = np.shape0 A
     /\ forall i, (i < np.shape0 A)%nat ->
          nth i strain 0
          = effective_value (np.item A i 0) (np.item A i 1) (np.item A i 2)
              (np.item A i 3) (np.item A i 4) (np.item A i 5)
          /\ nth i stress 0
             = effective_value (np.item A i 6) (np.item A i 7)
                 (np.item A i 8) (np.item A i 9) (np.item A i 10)
                 (np.item A i 11))
  /\ (np.shape1 A <> 12%nat -> effective_fields A = Raise ValueError).
Proof.
  unfold effective_fields. split.
  - intros H12.
    rewrite (tensor2effective_six (np1.cols_to 6 A))
      by (simpl; rewrite H12; reflexivity).
    rewrite (tensor2effective_six (np1.cols_from 6 A))
      by (simpl; rewrite H12; reflexivity).
    cbn [bind]. eexists. eexists. split; [reflexivity|].
    cbn [np1.cols_to np1.cols_from np.shape0 np.item].
    rewrite !length_map, !length_seq. split; [reflexivity|].
    split; [reflexivity|]. intros i Hi.
    rewrite !nth_map_seq by exact Hi. split; reflexivity.
  - intros H12.
    destruct (Nat.eq_dec (Nat.min 6 (np.shape1 A)) 6) as [E|E].
    + rewrite (tensor2effective_six (np1.cols_to 6 A)) by exact E.
      cbn [bind].
      rewrite (tensor2effective_not_six (np1.cols_from 6 A))
        by (simpl; lia).
      reflexivity.
    + rewrite (tensor2effective_not_six (np1.cols_to 6 A))
        by exact E.
      reflexivity.
Qed.

Lemma effective_fields_returns_witness :
  effective_fields (np.array2 1 6 [[1; 0; 0; 0; 0; 0]]) = Raise ValueError.
Proof.
  apply (proj2 (effective_fields_returns
                  (np.array2 1 6 [[1; 0; 0; 0; 0; 0]]))).
  simpl. lia.
Defined.

(** * [parse_logfile] *)

Lemma first_record_loop_found pre hdr post idx last :
  no_record pre ->
  py.startswith hdr data_record = true ->
  first_record_loop (pre ++ hdr :: post) idx last
  = Some (idx + length pre)%nat.
Proof.
  intros Hpre Hhdr. revert idx last.
  induction Hpre as [|s pre Hs Hpre IH]; intros idx last; simpl.
  - rewrite Hhdr. f_equal. lia.
  - rewrite Hs, IH. f_equal. lia.
Qed.

Lemma first_record_loop_none lines idx last :
  no_record lines ->
  first_record_loop lines idx last
  = match lines with
    | [] => last
    | _ :: _ => Some (idx + length lines - 1)%nat
    end.
Proof.
  intros H. revert idx last.
  induction H as [|s lines Hs H IH]; intros idx last; simpl.
  - reflexivity.
  - rewrite Hs, IH. destruct lines; simpl; f_equal; lia.
Qed.

Lemma skipn_past {A : Type} (pre : list A) (hdr : A) (post : list A) :
  skipn (0 + length pre + 5) (pre ++ hdr :: post) = skipn 4 post.
Proof.
  replace (0 + length pre + 5)%nat with (length pre + 5)%nat by lia.
  rewrite skipn_app. rewrite skipn_all2 by lia.
  replace (length pre + 5 - length pre)%nat with 5%nat by lia.
  reflexivity.
Qed.

Lemma parse_rows_first nrows pre hdr post :
  no_record pre ->
  py.startswith hdr data_record = true ->
  parse_logfile_rows nrows (pre ++ hdr :: post)
  = py.Returns (map row_tokens (firstn nrows (skipn 4 post))).
Proof.
  intros Hpre Hhdr. unfold parse_logfile_rows.
  rewrite (first_record_loop_found _ _ _ _ _ Hpre Hhdr).
  now rewrite skipn_past.
Qed.

(** X13: the rows are read from the first line that starts with
    ['Data Record'], whatever follows, also further such lines: they are
    the tokens, the first one dropped, of at most [nrows] lines beginning
    four lines below it. *)
Theorem parse_logfile_first_record nrows pre hdr post :
  no_record pre ->
  py.startswith hdr data_record = true ->
  parse_logfile_rows nrows (pre ++ hdr :: post)
  = py.Returns (map row_tokens (firstn nrows (skipn 4 post)))
  /\ (length (map row_tokens (firstn nrows (skipn 4 post))) <= nrows)%nat.
Proof.
  intros Hpre Hhdr. split; [now apply parse_rows_first|].
  rewrite length_map. apply firstn_le_length.
Qed.

(** X14: without any such line the call does not fail as long as
    the file has a line: it returns no rows; on a file without lines it
    raises [UnboundLocalError]. *)
Theorem parse_logfile_no_record nrows lines :
  no_record lines ->
  (lines = [] ->
   parse_logfile_rows nrows lines = py.Raises py.UnboundLocalError)
  /\ (lines <> [] -> parse_logfile_rows nrows lines = py.Returns []).
Proof.
  intros H. unfold parse_logfile_rows.
  rewrite (first_record_loop_none _ _ _ H). split.
  - intros ->. reflexivity.
  - intros Hne. destruct lines as [|s lines]; [contradiction|].
    rewrite skipn_all2 by (simpl; lia).
    now rewrite firstn_nil.
Qed.

Lemma record_indices_app l1 l2 idx ind :
  record_indices (l1 ++ l2) idx ind
  = record_indices l2 (idx + length l1) (record_indices l1 idx ind).
Proof.
  revert idx ind. induction l1 as [|s l1 IH]; intros idx ind; simpl.
  - f_equal. lia.
  - rewrite IH. f_equal. lia.
Qed.

Lemma record_indices_none lines idx ind :
  no_record lines -> record_indices lines idx ind = ind.
Proof.
  intros H. revert idx. induction H as [|s lines Hs H IH]; intros idx; simpl.
  - reflexivity.
  - rewrite Hs. apply IH.
Qed.

Lemma parse_rows_B_last nElements pre hdr post :
  py.startswith hdr data_record = true ->
  no_record post ->
  parse_logfile_rows_B nElements (pre ++ hdr :: post)
  = py.Returns (map row_tokens (firstn nElements (skipn 4 post))).
Proof.
  intros Hhdr Hpost. unfold parse_logfile_rows_B.
  rewrite record_indices_app. cbn [record_indices]. rewrite Hhdr.
  rewrite (record_indices_none _ _ _ Hpost), rev_app_distr.
  cbn [rev app]. now rewrite skipn_past.
Qed.

(** X15: the parser of modelB.py reads from the last line that
    starts with ['Data Record'], and raises [IndexError] when there is
    none. *)
Theorem parse_logfile_B_last_record nElements :
  (forall pre hdr post,
      py.startswith hdr data_record = true ->
      no_record post ->
      parse_logfile_rows_B nElements (pre ++ hdr :: post)
      = py.Returns (map row_tokens (firstn nElements (skipn 4 post))))
  /\ (forall lines,
        no_record lines ->
        parse_logfile_rows_B nElements lines = py.Raises py.IndexError).
Proof.
  split.
  - intros pre hdr post. apply parse_rows_B_last.
  - intros lines H. unfold parse_logfile_rows_B.
    now rewrite (record_indices_none _ _ _ H).
Qed.

Lemma parse_logfile_first_record_witness :
  parse_logfile_rows 101 log_ex
  = py.Returns (map row_tokens (firstn 101 (skipn 4 log_ex_post)))
  /\ (length (map row_tokens (firstn 101 (skipn 4 log_ex_post))) <= 101)%nat.
Proof.
  apply (parse_logfile_first_record 101 log_ex_pre data_record log_ex_post).
  - repeat constructor.
  - reflexivity.
Defined.

Lemma parse_logfile_no_record_witness :
  parse_logfile_rows 101 log_ex_pre = py.Returns [].
Proof.
  apply (proj2 (parse_logfile_no_record 101 log_ex_pre
                  ltac:(repeat constructor))).
  discriminate.
Defined.

Lemma parse_logfile_B_last_record_witness :
  parse_logfile_rows_B 2048 log_ex
  = py.Returns (map row_tokens (firstn 2048 (skipn 4 log_ex_post))).
Proof.
  apply (proj1 (parse_logfile_B_last_record 2048)
           log_ex_pre data_record log_ex_post).
  - reflexivity.
  - repeat constructor.
Defined.

(** X16: on a log with exactly one record the parsers of modelA.py
    and modelB.py read the same rows. *)
Theorem parse_logfile_agree n pre hdr post :
  no_record pre ->
  py.startswith hdr data_record = true ->
  no_record post ->
  parse_logfile_rows_B n (pre ++ hdr :: post)
  = parse_logfile_rows n (pre ++ hdr :: post).
Proof.
  intros Hpre Hhdr Hpost.
  rewrite (parse_rows_first n pre hdr post Hpre Hhdr).
  now apply parse_rows_B_last.
Qed.

Lemma parse_logfile_agree_witness :
  parse_logfile_rows_B 101 log_ex = parse_logfile_rows 101 log_ex.
Proof.
  apply (parse_logfile_agree 101 log_ex_pre data_record log_ex_post).
  - repeat constructor.
  - reflexivity.
  - repeat constructor.
Defined.

(** ** The tokens of a line *)

Lemma isspace_space : py.isspace space = true.
Proof. reflexivity. Qed.

Lemma no_space_neq (c : ascii) :
  py.isspace c = false -> Ascii.eqb c space = false.
Proof.
  intros H. destruct (Ascii.eqb_spec c space) as [->|]; [|reflexivity].
  rewrite isspace_space in H. discriminate.
Qed.

Lemma split_no_space (w : py.str) :
  no_space w -> py.split space w = [w].
Proof.
  intros H. induction H as [|c w Hc H IH]; simpl.
  - reflexivity.
  - now rewrite (no_space_neq c Hc), IH.
Qed.

Lemma split_at_space (w r : py.str) :
  no_space w -> py.split space (w ++ space :: r) = w :: py.split space r.
Proof.
  intros H. induction H as [|c w Hc H IH]; simpl.
  - reflexivity.
  - now rewrite (no_space_neq c Hc), IH.
Qed.

Lemma split_values (w : py.str) (values : list py.str) :
  no_space w -> Forall no_space values ->
  py.split space (w ++ concat (map (fun v => space :: v) values))
  = w :: values.
Proof.
  intros Hw Hv. revert w Hw.
  induction Hv as [|v values Hv _ IH]; intros w Hw; simpl.
  - rewrite app_nil_r. now apply split_no_space.
  - rewrite split_at_space by exact Hw. f_equal. now apply IH.
Qed.

Lemma lstrip_no_space (c : ascii) (s : py.str) :
  py.isspace c = false -> py.lstrip (c :: s) = c :: s.
Proof. intros H. simpl. now rewrite H. Qed.

(** The text before the end of the line ends with a character that
    [strip] keeps. *)
Lemma body_last (label : py.str) (values : list py.str) :
  label <> [] -> no_space label ->
  Forall (fun v => v <> [] /\ no_space v) values ->
  exists b c,
    label ++ concat (map (fun v => space :: v) values) = b ++ [c]
    /\ py.isspace c = false.
Proof.
  intros Hne Hl Hv. destruct values as [|v0 vs0].
  - simpl. rewrite app_nil_r.
    destruct (exists_last Hne) as [b [c ->]]. exists b, c.
    split; [reflexivity|]. apply Forall_app in Hl as [_ Hc].
    now inversion Hc.
  - destruct (@exists_last _ (v0 :: vs0)) as [vs [v E]]; [discriminate|].
    rewrite E in *. clear E v0 vs0.
    apply Forall_app in Hv as [_ Hv]. inversion Hv as [|? ? [Hvne Hvs] _].
    subst. destruct (exists_last Hvne) as [v' [c ->]].
    exists (label ++ concat (map (fun v => space :: v) vs) ++ space :: v'), c.
    split.
    + rewrite map_app, concat_app. simpl.
      rewrite app_nil_r, <- !app_assoc. reflexivity.
    + apply Forall_app in Hvs as [_ Hc]. now inversion Hc.
Qed.

Lemma strip_log_line (label : py.str) (values : list py.str) :
  label <> [] -> no_space label ->
  Forall (fun v => v <> [] /\ no_space v) values ->
  py.strip (log_line label values)
  = label ++ concat (map (fun v => space :: v) values).
Proof.
  intros Hne Hl Hv. unfold log_line, py.strip, py.rstrip.
  destruct label as [|c0 label]; [contradiction|].
  assert (H0 : py.isspace c0 = false) by now inversion Hl.
  cbn [app]. rewrite (lstrip_no_space c0) by exact H0.
  change (c0 :: label ++ ?r) with ((c0 :: label) ++ r).
  destruct (body_last (c0 :: label) values Hne Hl Hv) as [b [c [E Hc]]].
  rewrite app_assoc, E, !rev_app_distr. cbn [rev app].
  change (py.lstrip ("010"%char :: c :: rev b)) with (py.lstrip (c :: rev b)).
  rewrite (lstrip_no_space c) by exact Hc.
  change (c :: rev b) with ([c] ++ rev b).
  now rewrite rev_app_distr, rev_involutive.
Qed.

(** X17: a line written as a label, the values each after one space,
    and the end of the line is read back as the list of its values,
    provided the label and the values are not empty and free of white
    space. *)
Theorem row_tokens_log_line (label : py.str) (values : list py.str) :
  label <> [] -> no_space label ->
  Forall (fun v => v <> [] /\ no_space v) values ->
  row_tokens (log_line label values) = values.
Proof.
  intros Hne Hl Hv. unfold row_tokens.
  rewrite (strip_log_line label values Hne Hl Hv).
  rewrite split_values; [reflexivity | exact Hl |].
  eapply Forall_impl; [|exact Hv]. now intros v [_ H].
Qed.

Lemma row_tokens_log_line_witness :
  row_tokens (log_line ["1"]%char [["2"; "."; "5"]; ["7"]]%char)
  = [["2"; "."; "5"]; ["7"]]%char.
Proof.
  apply row_tokens_log_line.
  - discriminate.
  - repeat constructor.
  - repeat constructor; discriminate.
Defined.

(** * More on [ttest_nonparametric] *)

Lemma fold_Rmax_upper (r : list R) (a : R) :
  Forall (fun v => v <= fold_left Rmax r a) r.
Proof.
  revert a. induction r as [|b r IH]; intros a; simpl.
  - constructor.
  - constructor.
    + eapply Rle_trans; [apply (Rmax_r a b) | apply fold_Rmax_ge].
    + apply IH.
Qed.

Lemma amax_upper (u : list R) (m : R) :
  np.amax u = Ok m -> Forall (fun v => v <= m) u.
Proof.
  destruct u as [|a r]; [discriminate|]. simpl. intros H. injection H as <-.
  constructor; [apply fold_Rmax_ge | apply fold_Rmax_upper].
Qed.

Lemma product_last (n : nat) :
  exists front,
    itertools.product [0%Z; 1%Z] n = front ++ [complement (repeat 0%Z n)].
Proof.
  destruct (product_head n) as [rest H].
  exists (rev (map complement rest)).
  rewrite <- (rev_involutive (itertools.product [0%Z; 1%Z] n)).
  rewrite product_rev, H. reflexivity.
Qed.

Lemma Forall2_last {A B : Type} (P : A -> B -> Prop) (u : list A) (a : A)
  (v : list B) :
  Forall2 P (u ++ [a]) v -> exists v' b, v = v' ++ [b] /\ P a b.
Proof.
  intros H. apply Forall2_app_inv_l in H as [v' [w [_ [Hw ->]]]].
  inversion Hw as [|? b ? w' Hab Hnil]; subst. inversion Hnil; subst.
  now exists v', b.
Qed.

(** X18: with [alpha = 0] nothing is significant: the threshold is
    the largest member of the primary distribution, the unpermuted
    labelling and its mirror image are both enumerated, so no position of
    the absolute statistic field exceeds it and [p] is [np.nan]. *)
Theorem alpha_zero_no_cluster x mu t0 tCrit p :
  ttest_nonparametric x mu 0 = Ok (t0, tCrit, p) ->
  Forall (fun v => Rabs v <= tCrit) t0 /\ p = PNan.
Proof.
  intros H. unfold ttest_nonparametric in H.
  apply bind_Ok in H as [l [Hl H]]. injection H as <- <- <-.
  apply ttest_locals_Ok in Hl
    as [y [T [tc [M [Hy [HT' [Hc' [HM ->]]]]]]]].
  cbn [l_t0 l_tCrit l_p l_T] in *.
  assert (Hmax : Forall (fun a => a <= tc) T).
  { apply percentile_100_max; [|exact Hc'].
    intros ->. destruct (product_head (np.shape0 y)) as [rest HL].
    rewrite HL in HT'. simpl in HT'. apply bind_Ok in HT' as [m [_ HT']].
    apply primary_loop_spec in HT' as [ms [E _]].
    destruct ms; discriminate. }
  apply primary_loop_spec in HT' as [ms [-> Hms]]. simpl in Hmax.
  assert (Hfirst : exists m, np.amax (tfield y (sqrt (INR (np.shape0 y))))
                             = Ok m /\ m <= tc).
  { destruct (product_head (np.shape0 y)) as [rest HL].
    rewrite HL in Hms. inversion Hms as [|? m ? ms1 Hm _]; subst.
    rewrite tperm_zeros in Hm. exists m. split; [exact Hm|].
    now inversion Hmax. }
  assert (Hlast : exists m,
             np.amax (map Ropp (tfield y (sqrt (INR (np.shape0 y)))))
             = Ok m /\ m <= tc).
  { destruct (product_last (np.shape0 y)) as [front HL].
    rewrite HL in Hms. apply Forall2_last in Hms as [ms1 [m [-> Hm]]].
    rewrite tperm_complement, tperm_zeros in Hm.
    exists m. split; [exact Hm|].
    apply Forall_app in Hmax as [_ Hm']. now inversion Hm'. }
  destruct Hfirst as [m1 [H1 Hle1]]. destruct Hlast as [m2 [H2 Hle2]].
  apply amax_upper in H1. apply amax_upper in H2.
  assert (Hall : Forall (fun v => Rabs v <= tc)
                   (tfield y (sqrt (INR (np.shape0 y))))).
  { rewrite Forall_forall in *. intros v Hv.
    pose proof (H1 v Hv) as Hv1.
    pose proof (H2 (- v) (in_map Ropp _ _ Hv)) as Hv2.
    unfold Rabs. destruct (Rcase_abs v); lra. }
  split; [exact Hall|].
  apply compute_p_none. eapply Forall_impl; [|exact Hall].
  intros v Hv. simpl in Hv. lra.
Qed.

Lemma ttest_ex_zero :
  ttest_nonparametric x_ex mu_ex 0 = Ok ([2], 2, PNan).
Proof.
  unfold ttest_nonparametric.
  destruct (ttest_locals_total x_ex mu_ex 0 [2] 2 statistic_field_ex
              tCrit_ex_zero) as [l [Hl [H0 H1]]].
  rewrite Hl. cbn [bind]. rewrite H0, H1. do 2 f_equal.
  apply ttest_locals_Ok in Hl
    as [y [T [tc [M [Hy [HT [Hc [HM ->]]]]]]]].
  cbn [l_t0 l_tCrit l_p] in *. rewrite H0, H1. apply compute_p_none.
  constructor; [|constructor]. rewrite Rabs_right; lra.
Qed.

Lemma alpha_zero_no_cluster_witness :
  Forall (fun v => Rabs v <= 2) [2] /\ PNan = PNan.
Proof.
  exact (alpha_zero_no_cluster x_ex mu_ex [2] 2 PNan ttest_ex_zero).
Defined.

Lemma label_from_count prev c b :
  (snd (ndimage.label_from prev c b)
   <= c + (length b + (if prev then 0 else 1)) / 2)%nat.
Proof.
  revert prev c. induction b as [|[|] b IH]; intros prev c.
  - simpl. lia.
  - rewrite label_from_true. cbv zeta. cbn [snd length].
    specialize (IH true (if prev then c else S c)).
    destruct prev.
    + assert ((length b + 0) / 2 <= (S (length b) + 0) / 2)%nat
        by (apply Nat.Div0.div_le_mono; lia).
      lia.
    + replace (S (length b) + 1)%nat with (length b + 0 + 1 * 2)%nat by lia.
      rewrite Nat.div_add by lia. lia.
  - rewrite label_from_false. cbn [snd length].
    specialize (IH false c).
    assert ((length b + 1) / 2
            <= (S (length b) + (if prev then 0 else 1)) / 2)%nat
      by (apply Nat.Div0.div_le_mono; destruct prev; lia).
    lia.
Qed.

(** X19: when p-values are returned there is at least one and there
    are at most [(m + 1) / 2] of them for a field of [m] positions:
    clusters are separated by at least one position. *)
Theorem pvalues_count x mu alpha l p :
  ttest_locals x mu alpha = Ok l ->
  l_p l = PList p ->
  (1 <= length p <= (length (l_t0 l) + 1) / 2)%nat.
Proof.
  intros H Hp.
  apply ttest_locals_Ok in H
    as [y [T [tCrit [M [Hy [HT [Hc [HM ->]]]]]]]].
  cbn [l_p l_t0] in *.
  apply compute_p_PList in Hp as [HnC ->].
  unfold cluster_integrals. rewrite !length_map, length_seq.
  split; [exact HnC|].
  pose proof (label_from_count false 0
                (np.gt (np.abs (tfield y (sqrt (INR (np.shape0 y))))) tCrit))
    as Hb.
  rewrite gt_length in Hb. unfold np.abs in Hb at 2.
  rewrite length_map in Hb. exact Hb.
Qed.

Lemma pvalues_count_witness :
  (1 <= length [(1/4)%R] <= (length (l_t0 locals_ex_third) + 1) / 2)%nat.
Proof.
  exact (pvalues_count x_ex mu_ex (1/3) locals_ex_third [1/4]
           ttest_locals_ex_third eq_refl).
Defined.

(** * The image of modelB.py *)

Lemma nth_skipn_shift (u : list R) (k i : nat) :
  nth i (skipn k u) 0 = nth (k + i) u 0.
Proof.
  revert u. induction k as [|k IH]; intros u; simpl.
  - reflexivity.
  - destruct u as [|a u]; simpl.
    + now destruct i.
    + apply IH.
Qed.

Lemma last_items_length (n : nat) (u : list R) :
  length (last_items n u) = Nat.min n (length u).
Proof. unfold last_items. rewrite length_skipn. lia. Qed.

(** X20: [simulate] of modelB.py returns its 32 x 32 image exactly
    when the parsed log has twelve columns and at least 1024 rows, and
    raises [ValueError] otherwise; the image holds, row after row, the
    von Mises stress of the last 1024 elements. *)
Theorem stress_image_returns A :
  (np.shape1 A = 12%nat -> (1024 <= np.shape0 A)%nat ->
   exists S,
     stress_image A = Ok S
     /\ np.shape0 S = 32%nat /\ np.shape1 S = 32%nat
     /\ forall i j, (i < 32)%nat -> (j < 32)%nat ->
          let e := (np.shape0 A - 1024 + (i * 32 + j))%nat in
          np.item S i j
          = effective_value (np.item A e 6) (np.item A e 7) (np.item A e 8)
              (np.item A e 9) (np.item A e 10) (np.item A e 11))
  /\ (np.shape1 A <> 12%nat \/ (np.shape0 A < 1024)%nat ->
      stress_image A = Raise ValueError).
Proof.
  unfold stress_image. split.
  - intros H12 Hrows.
    rewrite (tensor2effective_six (np1.cols_from 6 A))
      by (simpl; rewrite H12; reflexivity).
    cbn [bind np1.cols_from np.shape0 np.item].
    set (stress := map _ (seq 0 (np.shape0 A))).
    assert (Hlen : length stress = np.shape0 A)
      by (unfold stress; now rewrite length_map, length_seq).
    unfold reshape2. rewrite last_items_length, Hlen.
    replace (Nat.min (32 * 32) (np.shape0 A)) with (32 * 32)%nat by lia.
    rewrite Nat.eqb_refl. eexists. split; [reflexivity|].
    cbn [np.shape0 np.shape1 np.item]. split; [reflexivity|].
    split; [reflexivity|]. intros i j Hi Hj. cbv zeta.
    unfold last_items. rewrite nth_skipn_shift, Hlen.
    change (32 * 32)%nat with 1024%nat.
    unfold stress. rewrite nth_map_seq by lia. reflexivity.
  - intros Hbad.
    destruct (Nat.eq_dec (np.shape1 A) 12) as [H12|H12].
    + destruct Hbad as [Hbad|Hrows]; [contradiction|].
      rewrite (tensor2effective_six (np1.cols_from 6 A))
        by (simpl; rewrite H12; reflexivity).
      cbn [bind np1.cols_from np.shape0 np.item].
      unfold reshape2. rewrite last_items_length, length_map, length_seq.
      destruct (Nat.eqb_spec (Nat.min (32 * 32) (np.shape0 A)) (32 * 32));
        [lia | reflexivity].
    + rewrite tensor2effective_not_six by (simpl; lia). reflexivity.
Qed.

Lemma stress_image_returns_witness :
  stress_image (np.array2 2 12 [[1; 2; 3; 4; 5; 6; 1; 2; 3; 4; 5; 6];
                                [1; 2; 3; 4; 5; 6; 1; 2; 3; 4; 5; 6]])
  = Raise ValueError.
Proof.
  apply (proj2 (stress_image_returns _)). right. simpl. lia.
Defined.

(** * The two-sample statistic of modelC.py *)

Lemma bcast_same (f : R -> R -> R) (u v : list R) :
  length u = length v -> bcast f u v = py.Returns (np1.zip_with f u v).
Proof. intros H. unfold bcast. now rewrite H, Nat.eqb_refl. Qed.

Lemma zip_with_length (f : R -> R -> R) (u v : list R) :
  length u = length v -> length (np1.zip_with f u v) = length u.
Proof.
  intros H. unfold np1.zip_with. rewrite length_map, length_combine. lia.
Qed.

(** The mean and the standard deviation of one column. *)
Lemma mean_axis0_nth Y j :
  (j < np.shape1 Y)%nat ->
  nth j (np.mean_axis0 Y) 0 = np.sum (np.column Y j) / INR (np.shape0 Y).
Proof. intros Hj. unfold np.mean_axis0. now rewrite nth_map_seq. Qed.

Lemma column_length Y j : length (np.column Y j) = np.shape0 Y.
Proof. unfold np.column. now rewrite length_map, length_seq. Qed.

Lemma mean_axis0_spec Y j :
  (j < np.shape1 Y)%nat ->
  nth j (np.mean_axis0 Y) 0 = spec_mean (np.column Y j).
Proof.
  intros Hj. rewrite mean_axis0_nth by exact Hj. unfold spec_mean.
  now rewrite sum_fold_right, column_length.
Qed.

Lemma std_axis0_spec Y j :
  (j < np.shape1 Y)%nat -> (1 <= np.shape0 Y)%nat ->
  nth j (np.std_axis0 1 Y) 0 = spec_sample_std (np.column Y j).
Proof.
  intros Hj Hn. unfold np.std_axis0. rewrite nth_map_seq by exact Hj.
  cbv zeta. unfold spec_sample_std, spec_mean.
  rewrite column_length, !sum_fold_right, minus_INR by exact Hn.
  replace (INR 1) with 1 by reflexivity.
  do 3 f_equal. apply map_ext. intros v. ring.
Qed.

Lemma nth_zip_with (f : R -> R -> R) (u v : list R) (j : nat) :
  (j < length u)%nat -> (j < length v)%nat ->
  nth j (np1.zip_with f u v) 0 = f (nth j u 0) (nth j v 0).
Proof.
  unfold np1.zip_with.
  revert v j. induction u as [|a u IH]; intros [|b v] [|j]; simpl;
    try lia; intros Hu Hv.
  - reflexivity.
  - apply IH; lia.
Qed.

Lemma nth_map_R (g : R -> R) (u : list R) (j : nat) :
  (j < length u)%nat -> nth j (map g u) 0 = g (nth j u 0).
Proof.
  revert j. induction u as [|a u IH]; intros [|j]; simpl; try lia; intros Hu.
  - reflexivity.
  - apply IH; lia.
Qed.

(** With the same number of columns and at least one row in [YA] the
    statistic is computed column by column. *)
Lemma tstat2_columns YA YB :
  np.shape1 YA = np.shape1 YB ->
  (0 < np.shape0 YA)%nat ->
  tstat2 YA YB
  = py.Returns
      (map (fun j =>
              (nth j (np.mean_axis0 YA) 0 - nth j (np.mean_axis0 YB) 0)
              / (sqrt (0.5 * (nth j (np.std_axis0 1 YA) 0
                              * nth j (np.std_axis0 1 YA) 0
                              + nth j (np.std_axis0 1 YB) 0
                                * nth j (np.std_axis0 1 YB) 0))
                 * sqrt (2 / INR (np.shape0 YA))))
         (seq 0 (np.shape1 YA))).
Proof.
  intros Hm Hn. unfold tstat2.
  pose proof (mean_axis0_length YA) as LmA.
  pose proof (mean_axis0_length YB) as LmB.
  pose proof (std_axis0_length 1 YA) as LsA.
  pose proof (std_axis0_length 1 YB) as LsB.
  rewrite <- Hm in LmB, LsB.
  set (mA := np.mean_axis0 YA) in *. set (mB := np.mean_axis0 YB) in *.
  set (sA := np.std_axis0 1 YA) in *. set (sB := np.std_axis0 1 YB) in *.
  set (m := np.shape1 YA) in *.
  assert (LAA : length (np1.mul sA sA) = m)
    by (unfold np1.mul; rewrite zip_with_length; auto).
  assert (LBB : length (np1.mul sB sB) = m)
    by (unfold np1.mul; rewrite zip_with_length; auto).
  rewrite bcast_same by congruence. cbn [py.bind].
  rewrite bcast_same by congruence. cbn [py.bind].
  destruct (Nat.eqb_spec (np.shape0 YA) 0) as [E|_]; [lia|].
  assert (Lss : length (np1.zip_with Rplus (np1.mul sA sA) (np1.mul sB sB))
                = m) by (rewrite zip_with_length; congruence).
  assert (Ld : length (np1.zip_with Rminus mA mB) = m)
    by (rewrite zip_with_length; congruence).
  assert (Ls : length (np.times
                         (np1.sqrt
                            (np1.scale 0.5
                               (np1.zip_with Rplus (np1.mul sA sA)
                                  (np1.mul sB sB))))
                         (sqrt (2 / INR (np.shape0 YA)))) = m)
    by (unfold np.times, np1.sqrt, np1.scale; now rewrite !length_map).
  rewrite bcast_same by congruence. f_equal.
  apply (nth_ext _ _ 0 0).
  - rewrite zip_with_length, length_map, length_seq; congruence.
  - intros j Hj. rewrite zip_with_length in Hj by congruence.
    rewrite Ld in Hj. rewrite nth_map_seq by exact Hj.
    rewrite nth_zip_with by congruence.
    rewrite nth_zip_with by congruence.
    rewrite nth_times
      by (unfold np1.sqrt, np1.scale; rewrite !length_map; congruence).
    unfold np1.sqrt, np1.scale.
    rewrite nth_map_R by (rewrite length_map; congruence).
    rewrite nth_map_R by congruence.
    rewrite nth_zip_with by congruence.
    unfold np1.mul. rewrite !nth_zip_with by congruence.
    reflexivity.
Qed.

(** X21: for two groups of the same size (at least two observations
    each) and the same number of positions [tstat2] is, position by
    position, the pooled two-sample statistic of the spec; the code
    divides by [sqrt(2/nA)], the size of the first group. *)
Theorem tstat2_equal_groups YA YB :
  np.shape1 YA = np.shape1 YB ->
  np.shape0 YA = np.shape0 YB ->
  (2 <= np.shape0 YA)%nat ->
  exists t,
    tstat2 YA YB = py.Returns t
    /\ length t = np.shape1 YA
    /\ forall j, (j < np.shape1 YA)%nat ->
         nth j t 0 = spec_statistic2 (np.column YA j) (np.column YB j).
Proof.
  intros Hm Hn H2. eexists. split; [apply tstat2_columns; [exact Hm | lia]|].
  split; [now rewrite length_map, length_seq|].
  intros j Hj. rewrite nth_map_seq by exact Hj.
  rewrite !mean_axis0_spec by (try exact Hj; congruence).
  rewrite !std_axis0_spec by (try exact Hj; try congruence; lia).
  unfold spec_statistic2. rewrite !column_length, <- Hn.
  assert (Hpos : 0 < INR (np.shape0 YA)) by (apply lt_0_INR; lia).
  replace (1 / INR (np.shape0 YA) + 1 / INR (np.shape0 YA))
    with (2 / INR (np.shape0 YA)) by (field; lra).
  do 4 f_equal. ring.
Qed.

Lemma tstat2_equal_groups_witness :
  exists t,
    tstat2 YA_ex YB_ex = py.Returns t
    /\ length t = np.shape1 YA_ex
    /\ forall j, (j < np.shape1 YA_ex)%nat ->
         nth j t 0 = spec_statistic2 (np.column YA_ex j) (np.column YB_ex j).
Proof.
  apply (tstat2_equal_groups YA_ex YB_ex).
  - reflexivity.
  - reflexivity.
  - simpl. lia.
Defined.

Lemma tstat2_no_rows YA YB :
  np.shape1 YA = np.shape1 YB -> np.shape0 YA = 0%nat ->
  tstat2 YA YB = py.Raises py.ZeroDivisionError.
Proof.
  intros Hm Hn. unfold tstat2.
  rewrite bcast_same
    by (unfold np1.mul; rewrite !zip_with_length; auto;
        rewrite !std_axis0_length; exact Hm).
  cbn [py.bind].
  rewrite bcast_same by (rewrite !mean_axis0_length; exact Hm).
  cbn [py.bind]. now rewrite Hn.
Qed.

(** X22: exchanging two groups of the same size changes the sign of
    the statistic at every position. *)
Theorem tstat2_antisymmetric YA YB t :
  np.shape1 YA = np.shape1 YB ->
  np.shape0 YA = np.shape0 YB ->
  tstat2 YA YB = py.Returns t ->
  tstat2 YB YA = py.Returns (map Ropp t).
Proof.
  intros Hm Hn H.
  destruct (Nat.eq_dec (np.shape0 YA) 0) as [E|E].
  - rewrite (tstat2_no_rows YA YB Hm E) in H. discriminate.
  - rewrite tstat2_columns in H by (try exact Hm; lia).
    injection H as <-.
    rewrite tstat2_columns by (try congruence; lia).
    rewrite <- Hm, <- Hn, map_map. f_equal. apply map_ext. intros j.
    rewrite (Rplus_comm (nth j (np.std_axis0 1 YB) 0 * _)).
    unfold Rdiv. ring.
Qed.

Lemma tstat2_antisymmetric_witness :
  exists t,
    tstat2 YA_ex YB_ex = py.Returns t
    /\ tstat2 YB_ex YA_ex = py.Returns (map Ropp t).
Proof.
  eexists. split.
  - apply tstat2_columns; [reflexivity | simpl; lia].
  - apply (tstat2_antisymmetric YA_ex YB_ex); reflexivity.
Defined.

(** X23: [tstat2] raises [ValueError] when the two groups differ in
    their number of positions, neither number being 1, and
    [ZeroDivisionError] when they agree in it and the first group has no
    observation; in every other case with equal numbers of positions it
    returns. *)
Theorem tstat2_errors YA YB :
  (np.shape1 YA <> np.shape1 YB -> np.shape1 YA <> 1%nat ->
   np.shape1 YB <> 1%nat -> tstat2 YA YB = py.Raises py.ValueError)
  /\ (np.shape1 YA = np.shape1 YB -> np.shape0 YA = 0%nat ->
      tstat2 YA YB = py.Raises py.ZeroDivisionError)
  /\ (np.shape1 YA = np.shape1 YB -> (0 < np.shape0 YA)%nat ->
      exists t, tstat2 YA YB = py.Returns t).
Proof.
  split; [|split].
  - intros Hm HA HB. unfold tstat2, bcast at 1. unfold np1.mul.
    rewrite !zip_with_length, !std_axis0_length by reflexivity.
    destruct (Nat.eqb_spec (np.shape1 YA) (np.shape1 YB)); [contradiction|].
    destruct (Nat.eqb_spec (np.shape1 YA) 1); [contradiction|].
    destruct (Nat.eqb_spec (np.shape1 YB) 1); [contradiction|].
    reflexivity.
  - apply tstat2_no_rows.
  - intros Hm Hn. eexists. now apply tstat2_columns.
Qed.

Lemma tstat2_errors_witness :
  tstat2 (np.array2 2 3 [[1; 2; 3]; [4; 5; 6]])
    (np.array2 2 2 [[5; 6]; [7; 8]])
  = py.Raises py.ValueError.
Proof.
  apply (proj1 (tstat2_errors (np.array2 2 3 [[1; 2; 3]; [4; 5; 6]])
                  (np.array2 2 2 [[5; 6]; [7; 8]])));
    simpl; lia.
Defined.

(** ** Labelled groups *)

Lemma mean_axis0_same Y Y' :
  scaled 1 Y Y' -> np.mean_axis0 Y' = np.mean_axis0 Y.
Proof.
  intros Hs. pose proof Hs as [H0 [H1 _]]. unfold np.mean_axis0.
  rewrite H0, H1. apply map_ext_in. intros j Hj. apply in_seq in Hj.
  rewrite (column_scaled 1 Y Y') by (auto; lia). now rewrite map_Rmult_1.
Qed.

Lemma std_axis0_same ddof Y Y' :
  scaled 1 Y Y' -> np.std_axis0 ddof Y' = np.std_axis0 ddof Y.
Proof.
  intros Hs. pose proof Hs as [H0 [H1 _]]. unfold np.std_axis0.
  rewrite H0, H1. apply map_ext_in. intros j Hj. apply in_seq in Hj.
  rewrite (column_scaled 1 Y Y') by (auto; lia). now rewrite map_Rmult_1.
Qed.

Lemma tstat2_same YA YB YA' YB' :
  scaled 1 YA YA' -> scaled 1 YB YB' -> tstat2 YA' YB' = tstat2 YA YB.
Proof.
  intros HA HB. unfold tstat2.
  rewrite (mean_axis0_same _ _ HA), (mean_axis0_same _ _ HB).
  rewrite (std_axis0_same _ _ _ HA), (std_axis0_same _ _ _ HB).
  destruct HA as [H0 _]. now rewrite H0.
Qed.

Lemma filter_all {A : Type} (f : A -> bool) (l : list A) :
  Forall (fun a => f a = true) l -> filter f l = l.
Proof.
  intros H. induction H as [|a l Ha H IH]; simpl.
  - reflexivity.
  - now rewrite Ha, IH.
Qed.

Lemma filter_none {A : Type} (f : A -> bool) (l : list A) :
  Forall (fun a => f a = false) l -> filter f l = [].
Proof.
  intros H. induction H as [|a l Ha H IH]; simpl.
  - reflexivity.
  - now rewrite Ha.
Qed.

Lemma label_in_seq (i a n : nat) :
  existsb (Nat.eqb i) (seq a n) = ((a <=? i) && (i <? a + n))%nat.
Proof.
  destruct (existsb (Nat.eqb i) (seq a n)) eqn:E.
  - apply existsb_exists in E as [k [Hk He]]. apply in_seq in Hk.
    apply Nat.eqb_eq in He. subst k. symmetry. apply andb_true_iff.
    split; [apply Nat.leb_le | apply Nat.ltb_lt]; lia.
  - symmetry. apply andb_false_iff.
    destruct (Nat.leb_spec a i) as [H1|H1]; [|now left].
    destruct (Nat.ltb_spec i (a + n)) as [H2|H2]; [|now right].
    exfalso. assert (Ht : existsb (Nat.eqb i) (seq a n) = true).
    { apply existsb_exists. exists i. split; [apply in_seq; lia|].
      apply Nat.eqb_refl. }
    rewrite E in Ht. discriminate.
Qed.

Lemma filter_first_group (nA nB : nat) :
  filter (fun i => negb (existsb (Nat.eqb i) (seq nA nB))) (seq 0 (nA + nB))
  = seq 0 nA.
Proof.
  rewrite seq_app, filter_app. simpl.
  rewrite filter_all, filter_none.
  - apply app_nil_r.
  - apply Forall_forall. intros i Hi. apply in_seq in Hi.
    rewrite label_in_seq.
    destruct (Nat.leb_spec nA i), (Nat.ltb_spec i (nA + nB));
      try reflexivity; lia.
  - apply Forall_forall. intros i Hi. apply in_seq in Hi.
    rewrite label_in_seq.
    destruct (Nat.leb_spec nA i); [lia | reflexivity].
Qed.

Lemma filter_second_group (nA nB : nat) :
  filter (fun i => existsb (Nat.eqb i) (seq nA nB)) (seq 0 (nA + nB))
  = seq nA nB.
Proof.
  rewrite seq_app, filter_app. simpl.
  rewrite filter_none, filter_all.
  - reflexivity.
  - apply Forall_forall. intros i Hi. apply in_seq in Hi.
    rewrite label_in_seq.
    destruct (Nat.leb_spec nA i), (Nat.ltb_spec i (nA + nB));
      try reflexivity; lia.
  - apply Forall_forall. intros i Hi. apply in_seq in Hi.
    rewrite label_in_seq.
    destruct (Nat.leb_spec nA i); [lia | reflexivity].
Qed.

(** X24: applied to the two groups stacked, with the rows of the
    second group labelled 1, [tstat2_labels] gives the statistic of the
    two groups: the original grouping is one of the labellings. *)
Theorem tstat2_labels_original YA YB Y :
  vstack YA YB = py.Returns Y ->
  tstat2_labels Y (seq (np.shape0 YA) (np.shape0 YB)) = tstat2 YA YB.
Proof.
  unfold vstack.
  destruct (Nat.eqb_spec (np.shape1 YA) (np.shape1 YB)) as [Hm|];
    [|discriminate].
  intros H. injection H as <-. unfold tstat2_labels. cbn [np.shape0].
  assert (Hin : forallb (fun i => (i <? np.shape0 YA + np.shape0 YB)%nat)
                  (seq (np.shape0 YA) (np.shape0 YB)) = true).
  { apply forallb_forall. intros i Hi. apply in_seq in Hi.
    apply Nat.ltb_lt. lia. }
  rewrite Hin, filter_first_group, filter_second_group.
  apply tstat2_same.
  - repeat split; simpl.
    + apply length_seq.
    + intros i j Hi Hj. rewrite seq_nth by exact Hi. simpl.
      destruct (Nat.ltb_spec i (np.shape0 YA)); [ring | lia].
  - repeat split; simpl.
    + apply length_seq.
    + exact Hm.
    + intros i j Hi Hj. rewrite seq_nth by exact Hi.
      destruct (Nat.ltb_spec (np.shape0 YA + i) (np.shape0 YA)); [lia|].
      replace (np.shape0 YA + i - np.shape0 YA)%nat with i by lia. ring.
Qed.

Lemma tstat2_labels_original_witness :
  tstat2_labels
    (np.mk2 4 1
       (fun i j => if (i <? 2)%nat then np.item YA_ex i j
                   else np.item YB_ex (i - 2) j))
    [2; 3]%nat
  = tstat2 YA_ex YB_ex.
Proof.
  apply (tstat2_labels_original YA_ex YB_ex). reflexivity.
Defined.

(** X25: [tstat2_labels] raises [IndexError] when an index in
    [ones] is not the index of a row, [ZeroDivisionError] when every row
    is labelled 1 (no row is left for the first group), and returns in
    every other case. *)
Theorem tstat2_labels_errors Y ones :
  ((exists i, In i ones /\ (np.shape0 Y <= i)%nat) ->
   tstat2_labels Y ones = py.Raises py.IndexError)
  /\ (Forall (fun i => (i < np.shape0 Y)%nat) ones ->
      (forall i, (i < np.shape0 Y)%nat -> In i ones) ->
      tstat2_labels Y ones = py.Raises py.ZeroDivisionError)
  /\ (Forall (fun i => (i < np.shape0 Y)%nat) ones ->
      (exists i, (i < np.shape0 Y)%nat /\ ~ In i ones) ->
      exists t, tstat2_labels Y ones = py.Returns t).
Proof.
  unfold tstat2_labels. split; [|split].
  - intros [i [Hin Hi]].
    destruct (forallb _ ones) eqn:E; [|reflexivity].
    rewrite forallb_forall in E. apply E in Hin. apply Nat.ltb_lt in Hin.
    lia.
  - intros Hall Hevery.
    assert (E : forallb (fun i => (i <? np.shape0 Y)%nat) ones = true).
    { apply forallb_forall. rewrite Forall_forall in Hall.
      intros i Hi. apply Nat.ltb_lt. now apply Hall. }
    rewrite E. apply tstat2_no_rows.
    + reflexivity.
    + simpl. rewrite filter_none; [reflexivity|].
      apply Forall_forall. intros i Hi. apply in_seq in Hi.
      apply negb_false_iff, existsb_exists. exists i.
      split; [apply Hevery; lia | apply Nat.eqb_refl].
  - intros Hall [i [Hi Hout]].
    assert (E : forallb (fun i => (i <? np.shape0 Y)%nat) ones = true).
    { apply forallb_forall. rewrite Forall_forall in Hall.
      intros k Hk. apply Nat.ltb_lt. now apply Hall. }
    rewrite E. eexists. apply tstat2_columns; [reflexivity|].
    simpl.
    assert (Hin : In i (filter
                          (fun k => negb (existsb (Nat.eqb k) ones))
                          (seq 0 (np.shape0 Y)))).
    { apply filter_In. split; [apply in_seq; lia|].
      apply negb_true_iff. destruct (existsb (Nat.eqb i) ones) eqn:Ex;
        [|reflexivity].
      apply existsb_exists in Ex as [k [Hk He]].
      apply Nat.eqb_eq in He. subst k. contradiction. }
    destruct (filter _ (seq 0 (np.shape0 Y))); [destruct Hin | simpl; lia].
Qed.

Lemma tstat2_labels_errors_witness :
  tstat2_labels YA_ex [5%nat] = py.Raises py.IndexError.
Proof.
  apply (proj1 (tstat2_labels_errors YA_ex [5%nat])).
  exists 5%nat. split; [now left | simpl; lia].
Defined.
